(** * aria parser: import merging, import ordering and data type components

    A shallow embedding of
      - [aria/parser/framework/elements/imports.py]
        ([ImportsLoader], [ImportsGraph]) and
      - [aria/parser/framework/elements/data_types.py]
        ([SchemaPropertyDefault], [SchemaProperty], [DataType]),
    followed by the properties established about them.

    Python dictionaries are finite maps ([gmap]); their iteration order is the
    order of [map_to_list].  Exceptions are values of [exception] carried by
    [result].  The loader threads the imports graph and the log of resolver
    calls through a small state-and-exception monad. *)

From Stdlib Require Import Ascii String.
From stdpp Require Import gmap strings list fin_maps relations.

Open Scope string_scope.
Open Scope list_scope.
Open Scope nat_scope.

#[local] Set Warnings "-register-all,-clear-no-such-hyp".

(** ** Exceptions and results *)

Inductive exception : Type :=
| DSLParsingLogicException (code : nat) (message : string)
| DSLParsingFormatException (code : nat) (message : string)
| NetworkXUnfeasible (message : string)
| KeyError (key : string)
| TypeError (message : string)
| AttributeError (attribute : string)
| RecursionError
| ResolverError (import_url : string)
| CyclicDependency (path : string)
| Diverged.

Inductive result (A : Type) : Type :=
| Ok (a : A)
| Raise (e : exception).

Arguments Ok {A} a.
Arguments Raise {A} e.

Definition result_bind {A B} (r : result A) (k : A → result B) : result B :=
  match r with
  | Ok a => k a
  | Raise e => Raise e
  end.

Notation "x ←r r ; k" := (result_bind r (fun x => k))
  (at level 100, r at next level, right associativity).

(** [for x in items: s = body(s, x)], leaving at the first exception. *)
Fixpoint for_each {A S} (body : S → A → result S) (items : list A) (s : S)
  : result S :=
  match items with
  | [] => Ok s
  | x :: rest => s' ←r body s x; for_each body rest s'
  end.

Definition is_ok {A} (r : result A) : bool :=
  match r with Ok _ => true | Raise _ => false end.

(** ** Document holders *)

(** Modelled from the spec: the Document Holder (class [Holder], not part of
    the sources at hand), a key/value tree mirroring one parsed document,
    with item lookup by key.  A holder wraps a scalar, a sequence of holders
    or a mapping from (string) keys to holders. *)
Inductive Holder : Type :=
| HStr (value : string)
| HList (value : list Holder)
| HDict (value : gmap string Holder).

(** A parsed document is a holder over a mapping; [Document] is that mapping. *)
Abbreviation Document := (gmap string Holder).

(** [holder.get_item(key)]: the pair [(key_holder, value_holder)], or
    [(None, None)]. *)
Definition get_item (key : string) (d : Document)
  : option string * option Holder :=
  match d !! key with
  | Some v => (Some key, Some v)
  | None => (None, None)
  end.

(** [key in holder]. *)
Definition contains (key : string) (d : Document) : bool :=
  bool_decide (is_Some (d !! key)).

(** [holder.restore()] on an imports declaration, as the sequence the loop
    [for another_import in ...] walks: the items of a list, the characters
    of a string, the keys of a mapping. *)
Definition restore_imports (h : Holder) : list Holder :=
  match h with
  | HList items => items
  | HStr s => map (fun c => HStr (String c EmptyString)) (list_ascii_of_string s)
  | HDict d => map (fun item => HStr item.1) (map_to_list d)
  end.

(** ** Constants *)

(** Modelled from the spec: module [constants] and [VERSION] of
    [dsl_supported_versions] (not part of the sources at hand); the section
    names of the merge policy table. *)
Module constants.
Definition INTERFACES := "interfaces".
Definition NODE_TYPES := "node_types".
Definition PLUGINS := "plugins".
Definition WORKFLOWS := "workflows".
Definition RELATIONSHIPS := "relationships".
Definition GROUPS := "groups".
Definition DATA_TYPES := "data_types".
Definition DSL_DEFINITIONS := "dsl_definitions".
Definition IMPORTS := "imports".
Definition PROPERTIES := "properties".
Definition DERIVED_FROM := "derived_from".
End constants.

Definition VERSION := "tosca_definitions_version".

(** [version.raw] is all the loader reads of the version input. *)
Record VersionNumber := { raw : string }.

(** Python truthiness of an optional string: [None] and the empty string are
    false. *)
Definition truthy (o : option string) : bool :=
  match o with
  | Some s => negb (bool_decide (s = ""))
  | None => false
  end.

(** ** [networkx.DiGraph] and [networkx.topological_sort]

    The part of networkx 1.x the imports graph relies on ([topological_sort]
    returns a list there, and node attributes are read through [G.node]).
    Every node carries its attribute [parsed], when it was given one, and
    its successors.  networkx keeps the nodes in a dictionary, whose order
    of iteration is not fixed by the order of insertion; [nodes_iter] below
    enumerates them as they were added, and [topological_sort] takes the
    enumeration to start from as its argument [nbunch], so that what is
    stated of the sort can be stated for every enumeration of the nodes. *)
Module networkx.

Record Node := { name : string; parsed_attr : option Document; adj : list string }.

Definition DiGraph := list Node.

Definition empty : DiGraph := [].

(** [G.nodes_iter()] *)
Definition nodes_iter (G : DiGraph) : list string := map name G.

(** [n in G] *)
Definition has_node (G : DiGraph) (n : string) : bool :=
  bool_decide (n ∈ nodes_iter G).

Fixpoint find_node (G : DiGraph) (n : string) : option Node :=
  match G with
  | [] => None
  | x :: rest => if bool_decide (name x = n) then Some x else find_node rest n
  end.

(** [G.add_node(n, parsed=parsed)]: a new node is appended; a known node has
    its attribute updated. *)
Fixpoint add_node (G : DiGraph) (n : string) (parsed : Document) : DiGraph :=
  match G with
  | [] => [ {| name := n; parsed_attr := Some parsed; adj := [] |} ]
  | x :: rest =>
      if bool_decide (name x = n)
      then {| name := name x; parsed_attr := Some parsed; adj := adj x |} :: rest
      else x :: add_node rest n parsed
  end.

(** A node that [add_edge] has to create carries no attribute. *)
Definition ensure_node (G : DiGraph) (n : string) : DiGraph :=
  if has_node G n then G
  else G ++ [ {| name := n; parsed_attr := None; adj := [] |} ].

Fixpoint add_succ (G : DiGraph) (u v : string) : DiGraph :=
  match G with
  | [] => []
  | x :: rest =>
      if bool_decide (name x = u)
      then {| name := name x; parsed_attr := parsed_attr x;
              adj := if bool_decide (v ∈ adj x) then adj x else adj x ++ [v] |}
           :: rest
      else x :: add_succ rest u v
  end.

(** [G.add_edge(u, v)]: both ends become nodes when they are not yet. *)
Definition add_edge (G : DiGraph) (u v : string) : DiGraph :=
  add_succ (ensure_node (ensure_node G u) v) u v.

(** [G[w]]: the successors of [w]. *)
Definition successors (G : DiGraph) (w : string) : result (list string) :=
  match find_node G w with
  | Some x => Ok (adj x)
  | None => Raise (KeyError w)
  end.

(** [G.node[n]['parsed']] *)
Definition node_parsed (G : DiGraph) (n : string) : result Document :=
  match find_node G n with
  | Some x =>
      match parsed_attr x with
      | Some d => Ok d
      | None => Raise (KeyError "parsed")
      end
  | None => Raise (KeyError n)
  end.

Definition has_edge (G : DiGraph) (u v : string) : Prop :=
  ∃ x, find_node G u = Some x ∧ v ∈ adj x.

(** The state of the depth-first search of [topological_sort]. *)
Record dfs_state := {
  seen : gset string;
  order : list string;
  explored : gset string
}.

Definition dfs_init : dfs_state :=
  {| seen := ∅; order := []; explored := ∅ |}.

(** The scan of the successors of the node on top of the fringe:
    [for n in G[w]: if n not in explored: if n in seen: raise ...;
     new_nodes.append(n)]. *)
Fixpoint new_nodes (succs : list string) (seen explored : gset string)
  : result (list string) :=
  match succs with
  | [] => Ok []
  | n :: rest =>
      if bool_decide (n ∈ explored) then new_nodes rest seen explored
      else if bool_decide (n ∈ seen)
           then Raise (NetworkXUnfeasible "Graph contains a cycle.")
           else ns ←r new_nodes rest seen explored; Ok (n :: ns)
  end.

(** [while fringe: ...].  The fringe is kept with its top ([fringe[-1]])
    first, so [fringe.extend(new_nodes)] puts the reversed new nodes in
    front.  [budget] bounds the number of iterations. *)
Fixpoint explore (budget : nat) (G : DiGraph) (fringe : list string)
    (st : dfs_state) : result dfs_state :=
  match budget with
  | 0 => match fringe with [] => Ok st | _ => Raise Diverged end
  | S budget =>
      match fringe with
      | [] => Ok st
      | w :: below =>
          if bool_decide (w ∈ explored st) then explore budget G below st
          else
            let seen' := {[ w ]} ∪ seen st in
            succs ←r successors G w;
            new ←r new_nodes succs seen' (explored st);
            match new with
            | [] =>
                explore budget G below
                  {| seen := seen'; order := order st ++ [w];
                     explored := {[ w ]} ∪ explored st |}
            | _ :: _ =>
                explore budget G (rev new ++ w :: below)
                  {| seen := seen'; order := order st;
                     explored := explored st |}
            end
      end
  end.

(** [for v in nbunch: if v in explored: continue; fringe = [v]; while ...] *)
Fixpoint visit (budget : nat) (G : DiGraph) (nbunch : list string)
    (st : dfs_state) : result dfs_state :=
  match nbunch with
  | [] => Ok st
  | v :: rest =>
      if bool_decide (v ∈ explored st) then visit budget G rest st
      else st' ←r explore budget G [v] st; visit budget G rest st'
  end.

Definition edge_count (G : DiGraph) : nat :=
  length (concat (map adj G)).

(** Every name a search over [G] can meet. *)
Definition universe (G : DiGraph) : gset string :=
  list_to_set (nodes_iter G ++ concat (map adj G)).

(** Enough iterations for any search over [G] (see [explore_budget]). *)
Definition search_budget (G : DiGraph) : nat :=
  (2 * size (universe G) + 2) * S (edge_count G) + 2.

(** [networkx.topological_sort(G, nbunch=None)]: the search collects the
    nodes in post-order and the result is that list reversed, so that the
    source of every edge comes before its target. *)
Definition topological_sort (G : DiGraph) (nbunch : option (list string))
  : result (list string) :=
  let nbunch := default (nodes_iter G) nbunch in
  st ←r visit (search_budget G) G nbunch dfs_init;
  Ok (rev (order st)).

End networkx.

(** ** [ImportsGraph] *)
Module ImportsGraph.

Record t := {
  _imports_tree : networkx.DiGraph;
  _imports_graph : networkx.DiGraph
}.

(** [ImportsGraph()] *)
Definition init : t :=
  {| _imports_tree := networkx.empty; _imports_graph := networkx.empty |}.

(** [item in imports_graph] *)
Definition contains (self : t) (item : string) : bool :=
  networkx.has_node (_imports_tree self) item.

Definition add (self : t) (import_url : string) (parsed : Document)
    (via_import : option string) : t :=
  let self1 :=
    if negb (networkx.has_node (_imports_tree self) import_url)
    then {| _imports_tree := networkx.add_node (_imports_tree self) import_url parsed;
            _imports_graph := networkx.add_node (_imports_graph self) import_url parsed |}
    else self in
  match via_import with
  | Some via =>
      if truthy via_import
      then {| _imports_tree := networkx.add_edge (_imports_tree self1) import_url via;
              _imports_graph := networkx.add_edge (_imports_graph self1) import_url via |}
      else self1
  | None => self1
  end.

Definition add_graph_dependency (self : t) (import_url : string)
    (via_import : option string) : t :=
  match via_import with
  | Some via =>
      if truthy via_import
      then {| _imports_tree := _imports_tree self;
              _imports_graph := networkx.add_edge (_imports_graph self) import_url via |}
      else self
  | None => self
  end.

(** One entry of the ordered imports: [{'import': ..., 'parsed': ...}]. *)
Record entry := { import : string; parsed : Document }.

Definition topological_sort (self : t) : result (list entry) :=
  sorted ←r networkx.topological_sort (_imports_tree self) None;
  for_each (fun acc node =>
              p ←r networkx.node_parsed (_imports_tree self) node;
              Ok (acc ++ [ {| import := node; parsed := p |} ]))
           (rev sorted) [].

End ImportsGraph.

(** ** The loader's monad: imports graph, resolver log, exceptions *)

Record loader_state := {
  imports_graph : ImportsGraph.t;
  fetched : list string;  (* every location handed to the resolver, in order *)
  loaded : list string    (* every location whose text went to the YAML loader *)
}.

Definition M (A : Type) : Type := loader_state → result A * loader_state.

Definition ret {A} (a : A) : M A := fun s => (Ok a, s).

Definition raise {A} (e : exception) : M A := fun s => (Raise e, s).

Definition bind {A B} (m : M A) (k : A → M B) : M B :=
  fun s =>
    match m s with
    | (Ok a, s') => k a s'
    | (Raise e, s') => (Raise e, s')
    end.

Notation "x ←m c ; k" := (bind c (fun x => k))
  (at level 100, c at next level, right associativity).

Definition lift {A} (r : result A) : M A := fun s => (r, s).

Definition get_graph : M ImportsGraph.t := fun s => (Ok (imports_graph s), s).

Definition modify_graph (f : ImportsGraph.t → ImportsGraph.t) : M unit :=
  fun s => (Ok tt, {| imports_graph := f (imports_graph s);
                      fetched := fetched s; loaded := loaded s |}).

(** [for x in items: body(x)] *)
Fixpoint for_ {A} (items : list A) (body : A → M unit) : M unit :=
  match items with
  | [] => ret tt
  | x :: rest => _u ←m body x; for_ rest body
  end.

(** What the loader reaches outside itself: the file system behind
    [os.path], and the YAML loader [load(raw_yaml, error_message, filename)],
    which gives no document for a text it cannot parse. *)
Record Environment := {
  os_path_exists : string → bool;
  os_path_abspath : string → string;
  os_path_join : string → string → string;
  yaml_load : string → string → option Document
}.

(** The injected resolver, [resolver.fetch_import(import_url)]: the raw text
    at the location, when it can be fetched. *)
Definition Resolver := string → option string.

(** ** [ImportsLoader] *)
Module ImportsLoader.

Definition MERGE_NO_OVERRIDE : gset string :=
  {[ constants.INTERFACES; constants.NODE_TYPES; constants.PLUGINS;
     constants.WORKFLOWS; constants.RELATIONSHIPS; constants.GROUPS;
     constants.DATA_TYPES ]}.

Definition IGNORE : gset string :=
  {[ constants.DSL_DEFINITIONS; constants.IMPORTS; VERSION ]}.

Definition assert_mergeable {A} (key_holder : string) : result A :=
  Raise (DSLParsingLogicException 3
           ("Import failed: non-mergeable field: '" +:+ key_holder +:+ "'")).

(** The holder [to_dict_holder] is updated in place; the updated holder is
    returned.  The loop reads [from_dict_holder.value.iteritems()], which is
    an [AttributeError] on a value that is a string or a list.  The test
    [key_holder.value in to_dict_holder] belongs to the holder class, which
    these sources do not contain: on a holder whose value is not a mapping it
    is modelled as failing with a [TypeError], and the statements on the
    merge are made for holders that are mappings. *)
Definition _merge_into_dict_or_throw_on_duplicate
    (from_dict_holder to_dict_holder : Holder) (key_name : string)
  : result Holder :=
  match from_dict_holder with
  | HDict from_dict =>
      for_each
        (fun to_dict '(key_holder, value_holder) =>
           match to_dict with
           | HDict to_value =>
               if contains key_holder to_value
               then Raise (DSLParsingLogicException 4
                      ("Import failed: Could not merge '" +:+ key_name +:+
                       "' due to conflict on '" +:+ key_holder +:+ "'"))
               else Ok (HDict (<[key_holder := value_holder]> to_value))
           | _ => Raise (TypeError "holder value is not a dict")
           end)
        (map_to_list from_dict) to_dict_holder
  | _ => Raise (AttributeError "iteritems")
  end.

(** The body of the loop of [merge_parsed_into_combined] for one item of the
    imported document. *)
Definition merge_item (merge_no_override : gset string)
    (combined : Document) (item : string * Holder) : result Document :=
  let '(key_holder, value_holder) := item in
  if bool_decide (key_holder ∈ IGNORE) then Ok combined
  else if negb (contains key_holder combined)
  then Ok (<[key_holder := value_holder]> combined)
  else if bool_decide (key_holder ∈ merge_no_override)
  then
    match (get_item key_holder combined).2 with
    | Some to_dict =>
        to_dict' ←r _merge_into_dict_or_throw_on_duplicate
                      value_holder to_dict key_holder;
        Ok (<[key_holder := to_dict']> combined)
    | None => Raise (TypeError "holder is None")
    end
  else assert_mergeable key_holder.

(** [merge_no_override or self.MERGE_NO_OVERRIDE.copy()]: the default also
    replaces an empty set, which is false in Python. *)
Definition merge_parsed_into_combined
    (combined_parsed_dsl_holder parsed_imported_dsl_holder : Document)
    (version : VersionNumber) (merge_no_override : option (gset string))
  : result Document :=
  let merge_no_override :=
    match merge_no_override with
    | Some s => if bool_decide (s = ∅) then MERGE_NO_OVERRIDE else s
    | None => MERGE_NO_OVERRIDE
    end in
  for_each (merge_item merge_no_override)
           (map_to_list parsed_imported_dsl_holder)
           combined_parsed_dsl_holder.

(** The text [str.format] puts in place of a held value.  Versions are
    strings.  The text of a sequence or a mapping shows the holders inside
    it as the holder class prints them, and that class is not among these
    sources: a fixed text stands for it here, and what is stated of the
    version check is stated for versions that are strings. *)
Definition format_value (h : Holder) : string :=
  match h with
  | HStr s => s
  | HList _ => "[...]"
  | HDict _ => "{...}"
  end.

(** [holder.value != dsl_version] *)
Definition value_differs (h : Holder) (dsl_version : string) : bool :=
  match h with
  | HStr s => negb (bool_decide (s = dsl_version))
  | _ => true
  end.

Definition _validate_version (dsl_version import_url : string)
    (parsed_imported_dsl_holder : Document) : result unit :=
  let '(version_key_holder, version_value_holder) :=
    get_item VERSION parsed_imported_dsl_holder in
  match version_value_holder with
  | Some value_holder =>
      if value_differs value_holder dsl_version
         && negb (bool_decide (format_value value_holder +:+ "_0" = dsl_version))
      then Raise (DSLParsingLogicException 28
             ("An import uses a different tosca_definitions_version than the "
              +:+ "one defined in the main blueprint's file: main blueprint's "
              +:+ "file version is '" +:+ dsl_version
              +:+ "', import with different version is '" +:+ import_url
              +:+ "', version of problematic import is '"
              +:+ format_value value_holder +:+ "'"))
      else Ok tt
  | None => Ok tt
  end.

(** [resource_name.split(':')[0]] *)
Fixpoint split_head (resource_name : string) : string :=
  match resource_name with
  | EmptyString => EmptyString
  | String c rest =>
      if bool_decide (c = ":"%char) then EmptyString
      else String c (split_head rest)
  end.

Definition _get_resource_location (env : Environment)
    (resource_name : string) (resources_base_url : option string)
  : option string :=
  if bool_decide (split_head resource_name ∈ ["http"; "https"; "file"; "ftp"])
  then Some resource_name
  else if os_path_exists env resource_name
  then Some (os_path_abspath env resource_name)
  else match resources_base_url with
       | Some base =>
           if truthy resources_base_url
           then Some (os_path_join env base resource_name)
           else None
       | None => None
       end.

(** [location(value) = value or 'root'] *)
Definition location (value : option string) : string :=
  match value with
  | Some s => if truthy value then s else "root"
  | None => "root"
  end.

(** [resolver.fetch_import(import_url)], logged. *)
Definition fetch (resolver : Resolver) (import_url : string) : M string :=
  fun s =>
    (match resolver import_url with
     | Some raw_yaml => Ok raw_yaml
     | None => Raise (ResolverError import_url)
     end,
     {| imports_graph := imports_graph s;
        fetched := fetched s ++ [import_url];
        loaded := loaded s |}).

(** [load(raw_yaml, error_message, filename)] for the text fetched from
    [import_url], logged. *)
Definition load (env : Environment) (raw_yaml error_message filename : string)
    (import_url : string) : M Document :=
  fun s =>
    (match yaml_load env raw_yaml filename with
     | Some holder => Ok holder
     | None => Raise (DSLParsingFormatException 0 error_message)
     end,
     {| imports_graph := imports_graph s;
        fetched := fetched s;
        loaded := loaded s ++ [import_url] |}).

(** The nested function of [_build_ordered_imports].  [depth] is the number
    of nested calls the interpreter still allows.  A restored reference that
    is not a string has no [split] for [_get_resource_location] to call. *)
Fixpoint _build_ordered_imports_recursive (depth : nat) (env : Environment)
    (resources_base_url : option string) (resolver : Resolver)
    (_current_parsed_dsl_holder : Document) (_current_import : option string)
  : M unit :=
  match depth with
  | 0 => raise RecursionError
  | S depth =>
      match (get_item constants.IMPORTS _current_parsed_dsl_holder).2 with
      | None => ret tt
      | Some imports_value_holder =>
          for_ (restore_imports imports_value_holder) (fun item =>
            match item with
            | HStr another_import =>
            match _get_resource_location env another_import resources_base_url with
            | None =>
                raise (DSLParsingLogicException 13
                  ("Import failed: no suitable location found for import '"
                   +:+ another_import +:+ "'"))
            | Some import_url =>
                g ←m get_graph;
                if ImportsGraph.contains g import_url
                then modify_graph (fun g =>
                       ImportsGraph.add_graph_dependency g import_url
                         (Some (location _current_import)))
                else
                  raw_imported_dsl ←m fetch resolver import_url;
                  imported_dsl_holder ←m
                    load env raw_imported_dsl
                      ("Failed to parse import '" +:+ another_import
                       +:+ "' (via '" +:+ import_url +:+ "')")
                      another_import import_url;
                  _u ←m modify_graph (fun g =>
                    ImportsGraph.add g import_url imported_dsl_holder
                      (Some (location _current_import)));
                  _build_ordered_imports_recursive depth env resources_base_url
                    resolver imported_dsl_holder (Some import_url)
            end
            | _ => raise (AttributeError "split")
            end)
      end
  end.

Definition _build_ordered_imports_M (depth : nat) (env : Environment)
    (parsed_dsl_holder : Document) (dsl_location : option string)
    (resources_base_url : option string) (resolver : Resolver)
  : M (list ImportsGraph.entry) :=
  _u ←m modify_graph (fun g =>
    ImportsGraph.add g (location dsl_location) parsed_dsl_holder None);
  _u ←m _build_ordered_imports_recursive depth env resources_base_url resolver
    parsed_dsl_holder dsl_location;
  g ←m get_graph;
  lift (ImportsGraph.topological_sort g).

(** One pass starts from a fresh [ImportsGraph()]; the final state is kept
    next to the outcome so that the resolver log can be inspected. *)
Definition _build_ordered_imports (depth : nat) (env : Environment)
    (parsed_dsl_holder : Document) (dsl_location : option string)
    (resources_base_url : option string) (resolver : Resolver)
  : result (list ImportsGraph.entry) * loader_state :=
  _build_ordered_imports_M depth env parsed_dsl_holder dsl_location
    resources_base_url resolver
    {| imports_graph := ImportsGraph.init; fetched := []; loaded := [] |}.

(** The loop of [_combine_imports] over the ordered imports. *)
Definition combine_step (validate_version : bool) (version : VersionNumber)
    (holder_result : Document) (imported : ImportsGraph.entry)
  : result Document :=
  let import_url := ImportsGraph.import imported in
  let parsed_imported_dsl_holder := ImportsGraph.parsed imported in
  _u ←r (if validate_version
        then _validate_version (raw version) import_url parsed_imported_dsl_holder
        else Ok tt);
  merge_parsed_into_combined holder_result parsed_imported_dsl_holder version None.

(** The value of the combined holder.  Its keys and values are optional:
    [holder_result.value[version_key_holder] = version_value_holder] stores
    the pair [None: None] when the root document has no version item. *)
Definition _combine_imports (depth : nat) (env : Environment)
    (parsed_dsl_holder : Document) (dsl_location : option string)
    (resources_base_url : option string) (version : VersionNumber)
    (resolver : Resolver) (validate_version : bool)
  : result (gmap (option string) (option Holder)) :=
  ordered_imports ←r (_build_ordered_imports depth env parsed_dsl_holder
                        dsl_location resources_base_url resolver).1;
  let '(version_key_holder, version_value_holder) :=
    get_item VERSION parsed_dsl_holder in
  holder_result ←r for_each (combine_step validate_version version)
                     ordered_imports ∅;
  Ok (<[version_key_holder := version_value_holder]>
        (kmap Some (Some <$> holder_result))).

(** [validate]: [imports] are the values of the children of the element,
    in document order. *)
Definition validate (imports : list string) : result unit :=
  _u ←r for_each (fun (imports_set : gset string) _import =>
                    if bool_decide (_import ∈ imports_set)
                    then Raise (DSLParsingFormatException 2 "Duplicate imports")
                    else Ok ({[ _import ]} ∪ imports_set))
                 imports ∅;
  Ok tt.

(** ['{0}'.format(value)] for a location or [None]. *)
Definition format_location (value : option string) : string :=
  match value with
  | Some s => s
  | None => "None"
  end.

(** The name [dsl_location] is bound again to the converted location before
    it is tested, and the message is formatted with what it is bound to
    then. *)
Definition _dsl_location_to_url (env : Environment)
    (dsl_location resources_base_url : option string)
  : result (option string) :=
  match dsl_location with
  | Some resource_name =>
      let dsl_location :=
        _get_resource_location env resource_name resources_base_url in
      match dsl_location with
      | None =>
          Raise (DSLParsingLogicException 30
            ("Failed converting dsl location to url: no suitable "
             +:+ "location found for dsl '"
             +:+ format_location dsl_location +:+ "'"))
      | Some _ => Ok dsl_location
      end
  | None => Ok None
  end.

(** [s.rfind(c)]: the highest index of [c] in [s], or [-1]. *)
Fixpoint rfind (s : string) (c : ascii) : Z :=
  match s with
  | EmptyString => (-1)%Z
  | String a rest =>
      let r := rfind rest c in
      if (0 <=? r)%Z then (r + 1)%Z
      else if bool_decide (a = c) then 0%Z else (-1)%Z
  end.

(** [s[:stop]]: a negative [stop] counts from the end. *)
Definition slice_to (s : string) (stop : Z) : string :=
  let n := Z.of_nat (String.length s) in
  let stop := if (stop <? 0)%Z then Z.max 0 (stop + n) else Z.min stop n in
  substring 0 (Z.to_nat stop) s.

(** [parse]: the combined holder, next to [self.resource_base] as the call
    leaves it ([None] is the value of the class attribute). *)
Definition parse (depth : nat) (env : Environment)
    (main_blueprint_holder : Document)
    (resources_base_url blueprint_location : option string)
    (version : VersionNumber) (resolver : Resolver) (validate_version : bool)
  : result (gmap (option string) (option Holder)) * option string :=
  if truthy blueprint_location
  then
    match _dsl_location_to_url env blueprint_location resources_base_url with
    | Ok (Some url) =>
        let slash_index := rfind url "/" in
        (_combine_imports depth env main_blueprint_holder (Some url)
           resources_base_url version resolver validate_version,
         Some (slice_to url slash_index))
    | Ok None => (Raise (AttributeError "rfind"), None)
    | Raise e => (Raise e, None)
    end
  else
    (_combine_imports depth env main_blueprint_holder blueprint_location
       resources_base_url version resolver validate_version,
     None).

(** [calculate_provided] *)
Definition calculate_provided (resource_base : option string)
  : gmap string (option string) :=
  {[ "resource_base" := resource_base ]}.

End ImportsLoader.

(** ** Data types ([data_types.py]) *)

(** Plain Python values: initial values of elements, defaults, parsed
    results. *)
Inductive pyvalue : Type :=
| PyStr (s : string)
| PyInt (z : Z)
| PyBool (b : bool)
| PyList (l : list pyvalue)
| PyDict (d : gmap string pyvalue).

(** Component types: data type name to the parsed data type. *)
Abbreviation ComponentTypes := (gmap string pyvalue).

(** What [data_types.py] imports from [constants], [utils] and the element
    framework. *)
Record Framework := {
  USER_PRIMITIVE_TYPES : list string;
  (* utils.parse_value(value, type_name, data_types, undefined_error_message,
                       missing_error_message, node_name, path,
                       raise_on_missing_property) *)
  parse_value : pyvalue → option string → ComponentTypes → string → string →
                string → list string → bool → result (option pyvalue);
  (* utils.merge_schemas(overridden_schema, overriding_schema, data_types) *)
  merge_schemas : pyvalue → pyvalue → ComponentTypes → result pyvalue;
  (* Element.build_dict_result, by element name *)
  build_dict_result : string → gmap string pyvalue;
  (* Type.fix_properties, updating the result in place *)
  fix_properties : gmap string pyvalue → gmap string pyvalue
}.

(** Modelled from the spec: a node of the evaluation tree (class [Element],
    not part of the sources at hand) with its raw initial value, its position
    in the document when it was declared there, and its parsed value.  A
    node counts as defined when it holds a value or was present in the
    document.  The name of a child node is the key of its parent's schema it
    was built for. *)
Record Element := {
  initial_value : option pyvalue;
  start_line : option nat;
  value : option pyvalue
}.

Definition defined (e : Element) : bool :=
  bool_decide (is_Some (value e)) || bool_decide (is_Some (start_line e)).

(** The text of a type name held by a [SchemaPropertyType] node. *)
Definition type_name_of (v : option pyvalue) : option string :=
  match v with
  | Some (PyStr s) => Some s
  | _ => None
  end.

Module SchemaPropertyDefault.

(** [type_name] is [self.sibling(SchemaPropertyType).value], [prop_name] is
    [self.ancestor(SchemaProperty).name] and [current_type] is
    [self.ancestor(Schema).parent().name]. *)
Definition parse (fw : Framework) (self : Element)
    (type_name : option string) (prop_name current_type : string)
    (component_types : option ComponentTypes) : result (option pyvalue) :=
  let continue_with (initial_value : pyvalue) :=
    let component_types := default ∅ component_types in
    let undefined_property_error :=
      "Undefined property {1} in default value of type {0}" in
    parse_value fw initial_value type_name component_types
      undefined_property_error "illegal state" current_type [prop_name] false in
  match initial_value self with
  | None =>
      match type_name with
      | Some t =>
          if bool_decide (t ∉ USER_PRIMITIVE_TYPES fw)
          then continue_with (PyDict ∅)
          else Ok None
      | None => Ok None
      end
  | Some initial_value => continue_with initial_value
  end.

End SchemaPropertyDefault.

Module SchemaProperty.

(** The children of a schema property, one per key of its schema. *)
Record t := {
  name : string;
  required : Element;
  default_ : Element;
  description : Element;
  type : Element
}.

Definition children (self : t) : list (string * Element) :=
  [ ("required", required self); ("default", default_ self);
    ("description", description self); ("type", type self) ].

(** The parsed property: a dict whose values may be [None]
    ([Some None] is a key bound to [None]). *)
Definition parse (self : t) (parent_is_SchemaWithInitialDefault : bool)
  : gmap string (option pyvalue) :=
  let result :=
    foldl (fun acc '(child_name, child) =>
             if defined child then <[child_name := value child]> acc else acc)
          ∅ (children self) in
  if parent_is_SchemaWithInitialDefault
  then <["initial_default" := initial_value (default_ self)]> result
  else result.

(** Modelled from the spec: the engine evaluates the children of a property
    before the property (parse step 3 of the evaluation contract); a leaf
    without a parse step of its own keeps its initial value, and the default
    node gets the value its [parse] returns. *)
Definition evaluate (fw : Framework) (self : t) (current_type : string)
    (component_types : option ComponentTypes) : result t :=
  let leaf (e : Element) :=
    {| initial_value := initial_value e;
       start_line := start_line e; value := initial_value e |} in
  let type' := leaf (type self) in
  v ←r SchemaPropertyDefault.parse fw (default_ self)
         (type_name_of (value type')) (name self) current_type component_types;
  Ok {| name := name self;
        required := leaf (required self);
        default_ := {| initial_value := initial_value (default_ self);
                       start_line := start_line (default_ self);
                       value := v |};
        description := leaf (description self);
        type := type' |}.

End SchemaProperty.

Module DataType.

(** A data type node: its name, [self.initial_value.get(DERIVED_FROM)] and
    the initial value of every [SchemaPropertyType] descendant. *)
Record t := {
  name : string;
  derived_from : option string;
  property_types : list (option string)
}.

(** The set may hold [None], the type of a property that declares none. *)
Definition direct_component_types (self : t) : gset (option string) :=
  let direct_component_types : gset (option string) := ∅ in
  let direct_component_types :=
    if truthy (derived_from self)
    then {[ derived_from self ]} ∪ direct_component_types
    else direct_component_types in
  foldl (fun acc desc => {[ desc ]} ∪ acc) direct_component_types
        (property_types self).

(** What a data type node holds after [parse]: its parsed value, the
    [merged_component_types] it computed on the way, and
    [self.component_types], which [calculate_provided] publishes. *)
Record parsed := {
  result_value : gmap string pyvalue;
  merged_component_types : ComponentTypes;
  component_types : ComponentTypes
}.

(** [dict.update]: the entries of [other] win. *)
Definition update (d other : ComponentTypes) : ComponentTypes := other ∪ d.

(** [if super_type:] on a dict *)
Definition truthy_dict (d : option (gmap string pyvalue)) : bool :=
  match d with
  | Some m => negb (bool_decide (m = ∅))
  | None => false
  end.

Definition parse (fw : Framework) (self : t)
    (super_type : option (gmap string pyvalue))
    (component_types : list ComponentTypes) : result parsed :=
  let merged_component_types :=
    foldl (fun merged component => update merged component) ∅ component_types in
  let self_component_types := update ∅ merged_component_types in
  let result := build_dict_result fw (name self) in
  let result :=
    if bool_decide (is_Some (result !! constants.PROPERTIES)) then result
    else <[constants.PROPERTIES := PyDict ∅]> result in
  result ←r
    match super_type with
    | Some super =>
        if truthy_dict super_type
        then
          merged ←r merge_schemas fw
                      (default (PyDict ∅) (super !! "properties"))
                      (default (PyDict ∅) (result !! "properties"))
                      merged_component_types;
          Ok (<[constants.PROPERTIES := merged]> result)
        else Ok result
    | None => Ok result
    end;
  let result := fix_properties fw result in
  Ok {| result_value := result;
        merged_component_types := merged_component_types;
        component_types := <[name self := PyDict result]> self_component_types |}.

End DataType.

Module DataTypes.

(** Modelled from the spec: the dependency resolution engine (not part of
    the sources at hand), restricted to the data type nodes of one document.
    The nodes are evaluated in the given order.  The requirement
    [component_types] is a multiple-results edge: it collects, in document
    order, the published component types of every data type node the
    predicate [target.name in source.direct_component_types] selects.  The
    requirement [super_type] is the parsed value of the node naming the
    parent.  A node selected before it was evaluated means the order is not
    a dependency order, which the engine reports as a cyclic dependency. *)
Definition resolve_component_types (document : list DataType.t)
    (evaluated : gmap string DataType.parsed) (source : DataType.t)
  : result (list ComponentTypes) :=
  for_each
    (fun acc target =>
       if bool_decide (Some (DataType.name target)
                         ∈ DataType.direct_component_types source)
       then match evaluated !! DataType.name target with
            | Some p => Ok (acc ++ [DataType.component_types p])
            | None => Raise (CyclicDependency (DataType.name source))
            end
       else Ok acc)
    document [].

Definition resolve_super_type (evaluated : gmap string DataType.parsed)
    (source : DataType.t) : option (gmap string pyvalue) :=
  match DataType.derived_from source with
  | Some parent => DataType.result_value <$> (evaluated !! parent)
  | None => None
  end.

Definition evaluate (fw : Framework) (document order : list DataType.t)
  : result (gmap string DataType.parsed) :=
  for_each
    (fun evaluated source =>
       component_types ←r resolve_component_types document evaluated source;
       p ←r DataType.parse fw source (resolve_super_type evaluated source)
              component_types;
       Ok (<[DataType.name source := p]> evaluated))
    order ∅.

End DataTypes.

(** ** Vocabulary of the properties *)

(** The spec's wording of the version check: a version [s] with a trailing
    [_0] suffix removed. *)
Fixpoint remove_trailing_0 (s : string) : string :=
  match s with
  | EmptyString => EmptyString
  | String c rest =>
      if bool_decide (s = "_0") then EmptyString
      else String c (remove_trailing_0 rest)
  end.

(** The spec's wording: the declared version differs from the root's version
    and from the root's version with a trailing [_0] removed. *)
Definition incompatible_version (declared root_version : string) : Prop :=
  declared ≠ root_version ∧ declared ≠ remove_trailing_0 root_version.

(** The message of a duplicate definition names the section and the key. *)
Definition duplicate_definition (section key : string) : exception :=
  DSLParsingLogicException 4
    ("Import failed: Could not merge '" +:+ section +:+
     "' due to conflict on '" +:+ key +:+ "'").

(** The document [doc] without its ignore sections. *)
Definition without_ignored (doc : Document) : Document :=
  filter (fun kv => kv.1 ∉ ImportsLoader.IGNORE) doc.

(** [a] comes before [b] in [l]. *)
Definition precedes {A} (l : list A) (a b : A) : Prop :=
  ∃ i j, l !! i = Some a ∧ l !! j = Some b ∧ i < j.

(** Every edge of [G] goes down in [rank]: [G] has no cycle. *)
Definition ranked (G : networkx.DiGraph) (rank : string → nat) : Prop :=
  ∀ x n, networkx.has_edge G x n → rank n < rank x.

(** Every edge of [G] ends in a node of [G]. *)
Definition closed (G : networkx.DiGraph) : Prop :=
  ∀ x n, networkx.has_edge G x n → n ∈ networkx.nodes_iter G.

(** What the search maintains: explored nodes have been seen; [order] lists
    the explored nodes once each; every node of [order] comes after all its
    successors. *)
Record dfs_inv (G : networkx.DiGraph) (st : networkx.dfs_state) : Prop := {
  inv_explored_seen : networkx.explored st ⊆ networkx.seen st;
  inv_order_nodup : NoDup (networkx.order st);
  inv_order_explored : ∀ x, x ∈ networkx.order st ↔ x ∈ networkx.explored st;
  inv_post_order : ∀ l1 x l2,
    networkx.order st = l1 ++ x :: l2 →
    ∃ node, networkx.find_node G x = Some node ∧
            ∀ n, n ∈ networkx.adj node → n ∈ l1
}.

(** The quantity every iteration of the search loop decreases. *)
Definition dfs_measure (G : networkx.DiGraph) (fringe : list string)
    (st : networkx.dfs_state) : nat :=
  (2 * size ((networkx.universe G) ∖ (networkx.seen st))
   + match fringe with
     | w :: _ => if bool_decide (w ∈ networkx.seen st) then 1 else 0
     | [] => 1
     end) * S (networkx.edge_count G)
  + length fringe.

(** Every node seen and not yet explored waits in the fringe, below nodes of
    smaller rank only. *)
Definition gray_inv (rank : string → nat) (fringe : list string)
    (st : networkx.dfs_state) : Prop :=
  ∀ x, x ∈ networkx.seen st → x ∉ networkx.explored st →
    ∃ pre post, fringe = pre ++ (x :: post) ∧ (x ∉ pre) ∧
                ∀ y, y ∈ pre → rank y < rank x.

(** The shape of the tree of first discoveries: the root, then every
    document with one edge to the document it was first imported from, which
    was registered before it.  [docs] lists the registered documents in the
    order of registration. *)
Inductive discovery_tree
  : networkx.DiGraph → list (string * Document) → Prop :=
| dt_root k d :
    discovery_tree
      [ {| networkx.name := k; networkx.parsed_attr := Some d;
           networkx.adj := [] |} ]
      [ (k, d) ]
| dt_add G docs k d via :
    discovery_tree G docs →
    k ∉ docs.*1 → via ∈ docs.*1 →
    discovery_tree
      (G ++ [ {| networkx.name := k; networkx.parsed_attr := Some d;
                 networkx.adj := [via] |} ])
      (docs ++ [ (k, d) ]).

(** The imports graphs the loader builds, with the documents it registered:
    the root is registered first; a location met for the first time is
    registered with the document it was met in; a location met again is only
    recorded as a dependency, or registered again without effect. *)
Inductive registered : ImportsGraph.t → list (string * Document) → Prop :=
| reg_root k d :
    registered (ImportsGraph.add ImportsGraph.init k d None) [ (k, d) ]
| reg_add g docs k d via :
    registered g docs →
    ImportsGraph.contains g k = false →
    ImportsGraph.contains g via = true →
    via ≠ "" →
    registered (ImportsGraph.add g k d (Some via)) (docs ++ [ (k, d) ])
| reg_again g docs k d :
    registered g docs →
    ImportsGraph.contains g k = true →
    registered (ImportsGraph.add g k d None) docs
| reg_dependency g docs k via :
    registered g docs →
    registered (ImportsGraph.add_graph_dependency g k via) docs.

(** The file system functions never produce an empty location. *)
Definition resolves_nonempty (env : Environment) : Prop :=
  ∀ resource_name resources_base_url import_url,
    ImportsLoader._get_resource_location env resource_name resources_base_url
      = Some import_url →
    import_url ≠ "".

(** The exceptions the discovery of the imports raises: the interpreter's
    recursion limit, a reference that is not a string, a reference
    with no location (code 13), a failed fetch, a text that does not parse. *)
Definition is_discovery_exception (e : exception) : bool :=
  match e with
  | RecursionError => true
  | AttributeError _ => true
  | DSLParsingLogicException code _ => bool_decide (code = 13)
  | ResolverError _ => true
  | DSLParsingFormatException _ _ => true
  | _ => false
  end.

(** A triple for the loader's monad: from a state satisfying [P], the
    computation ends in a state satisfying [Q a] when it returns [a], and in
    a state satisfying [E e] when it raises [e]. *)
Definition triple {A} (P : loader_state → Prop) (m : M A)
    (Q : A → loader_state → Prop) (E : exception → loader_state → Prop)
  : Prop :=
  ∀ s, P s →
    match m s with
    | (Ok a, s') => Q a s'
    | (Raise e, s') => E e s'
    end.

(** What holds between two imports: no location was fetched twice, every
    fetched text was parsed, every fetched location is registered; and, when
    locations are never empty, the graph is one the loader registers, with
    [root] registered first, and the locations [K] are in it. *)
Definition loader_inv (env : Environment) (root : string * Document)
    (K : list string) (s : loader_state) : Prop :=
  NoDup (fetched s) ∧
  loaded s = fetched s ∧
  (∀ u, u ∈ fetched s → ImportsGraph.contains (imports_graph s) u = true) ∧
  (resolves_nonempty env →
     (∃ docs, registered (imports_graph s) docs ∧ head docs = Some root) ∧
     ∀ c, c ∈ K → ImportsGraph.contains (imports_graph s) c = true).

(** What holds when the discovery raises. *)
Definition loader_err (env : Environment) (root : string * Document)
    (e : exception) (s : loader_state) : Prop :=
  is_discovery_exception e = true ∧
  NoDup (fetched s) ∧
  loaded s `prefix_of` fetched s ∧
  (resolves_nonempty env →
     ∃ docs, registered (imports_graph s) docs ∧ head docs = Some root).

(** The locations of an outcome of the ordering. *)
Definition imports_of (r : result (list ImportsGraph.entry))
  : result (list string) :=
  match r with
  | Ok entries => Ok (map ImportsGraph.import entries)
  | Raise e => Raise e
  end.

(** What the loop of [merge_parsed_into_combined] stores under the key of
    one item, given what the accumulator holds under that key: nothing for
    an ignored key, the imported value for a key that is new, the merged
    section for a no-override key. *)
Definition merge_value (merge_no_override : gset string)
    (current : option Holder) (key : string) (value_holder : Holder)
  : result (option Holder) :=
  if bool_decide (key ∈ ImportsLoader.IGNORE) then Ok None
  else match current with
       | None => Ok (Some value_holder)
       | Some to_dict =>
           if bool_decide (key ∈ merge_no_override)
           then to_dict' ←r ImportsLoader._merge_into_dict_or_throw_on_duplicate
                              value_holder to_dict key;
                Ok (Some to_dict')
           else ImportsLoader.assert_mergeable key
       end.

(** Every no-override section of the document is a mapping. *)
Definition sections_are_mappings (doc : Document) : Prop :=
  ∀ key h, key ∈ ImportsLoader.MERGE_NO_OVERRIDE → doc !! key = Some h →
           ∃ d, h = HDict d.

(** The same, as a test that can be run on a document. *)
Definition mappings_only (doc : Document) : bool :=
  forallb (fun key => match doc !! key with
                      | Some (HDict _) | None => true
                      | Some _ => false
                      end)
          (elements ImportsLoader.MERGE_NO_OVERRIDE).

(** The value under [j] after a successful merge of the document [m] into
    the accumulator [c]. *)
Definition merged_lookup (merge_no_override : gset string) (m c : Document)
    (j : string) : option Holder :=
  match m !! j with
  | None => c !! j
  | Some v =>
      match merge_value merge_no_override (c !! j) j v with
      | Ok (Some h) => Some h
      | _ => c !! j
      end
  end.

(** The imports graphs a caller of [ImportsGraph] can build. *)
Inductive built : ImportsGraph.t → Prop :=
| built_init : built ImportsGraph.init
| built_add g k d via : built g → built (ImportsGraph.add g k d via)
| built_dependency g k via :
    built g → built (ImportsGraph.add_graph_dependency g k via).

(** What holds of the resolver log between two imports: no location was
    fetched twice, every fetched text was parsed, every fetched location was
    handed out by the resolver and is registered; and, when locations are
    never empty, the nodes of the tree, as [networkx.nodes_iter] enumerates
    them here, are the root location followed by the fetched locations. *)
Definition fetch_inv (env : Environment) (resolver : Resolver)
    (root_location : string) (s : loader_state) : Prop :=
  NoDup (fetched s) ∧
  loaded s = fetched s ∧
  (∀ u, u ∈ fetched s →
        ImportsGraph.contains (imports_graph s) u = true ∧
        is_Some (resolver u)) ∧
  (resolves_nonempty env →
     networkx.nodes_iter (ImportsGraph._imports_tree (imports_graph s))
     = root_location :: fetched s).

(** The full graph holds every node of the tree with the same document and
    at least the same successors, and holds a document for no other node. *)
Definition extends (tree graph : networkx.DiGraph) : Prop :=
  ∀ x,
    match networkx.find_node tree x, networkx.find_node graph x with
    | Some nt, Some ng =>
        networkx.parsed_attr ng = networkx.parsed_attr nt ∧
        ∀ w, w ∈ networkx.adj nt → w ∈ networkx.adj ng
    | Some _, None => False
    | None, Some ng => networkx.parsed_attr ng = None
    | None, None => True
    end.

(** Every import reference of the document [d] that resolves to a location
    has an edge from that location to [k] in the graph [G]. *)
Definition references_recorded (env : Environment)
    (resources_base_url : option string) (G : networkx.DiGraph)
    (k : string) (d : Document) : Prop :=
  ∀ h another_import import_url,
    (get_item constants.IMPORTS d).2 = Some h →
    HStr another_import ∈ restore_imports h →
    ImportsLoader._get_resource_location env another_import resources_base_url
      = Some import_url →
    networkx.has_edge G import_url k.

(** From [s] to [s'] the full graph lost no edge and the tree lost no node
    and changed no document. *)
Definition grows (s s' : loader_state) : Prop :=
  (∀ x y,
     networkx.has_edge (ImportsGraph._imports_graph (imports_graph s)) x y →
     networkx.has_edge (ImportsGraph._imports_graph (imports_graph s')) x y) ∧
  (∀ k,
     k ∈ networkx.nodes_iter (ImportsGraph._imports_tree (imports_graph s)) →
     k ∈ networkx.nodes_iter (ImportsGraph._imports_tree (imports_graph s')) ∧
     networkx.node_parsed (ImportsGraph._imports_tree (imports_graph s')) k
     = networkx.node_parsed (ImportsGraph._imports_tree (imports_graph s)) k).

(** ** Example configurations *)

(** A file system without local files, a base location joined with a slash,
    and a YAML loader and a resolver reading from a table of documents: the
    resolver hands back the location itself as the raw text. *)
Definition table_env (files : list (string * Document)) : Environment :=
  {| os_path_exists := fun _ => false;
     os_path_abspath := fun p => p;
     os_path_join := fun base p => base +:+ "/" +:+ p;
     yaml_load := fun raw_yaml filename =>
       match list_find (fun f => f.1 = raw_yaml) files with
       | Some (_, f) => Some f.2
       | None => None
       end |}.

Definition table_resolver (files : list (string * Document)) : Resolver :=
  fun import_url =>
    if bool_decide (import_url ∈ files.*1) then Some import_url else None.

(** Root imports [a.yaml], which imports [b.yaml], which imports [a.yaml]. *)
Definition cyclic_root : Document :=
  {[ "imports" := HList [HStr "a.yaml"];
     "tosca_definitions_version" := HStr "v2_0";
     "node_types" := HDict {[ "root_type" := HStr "r" ]} ]}.

Definition cyclic_files : list (string * Document) :=
  [ ("base/a.yaml",
     {[ "imports" := HList [HStr "b.yaml"];
        "tosca_definitions_version" := HStr "v2";
        "node_types" := HDict {[ "a_type" := HStr "a" ]} ]});
    ("base/b.yaml",
     {[ "imports" := HList [HStr "a.yaml"];
        "dsl_definitions" := HStr "anchors";
        "node_types" := HDict {[ "b_type" := HStr "b" ]};
        "inputs" := HStr "b inputs" ]}) ].

(** Root declares [timeout: 10], its import declares [timeout: 20]. *)
Definition timeout_root : Document :=
  {[ "imports" := HList [HStr "a.yaml"]; "timeout" := HStr "10" ]}.

Definition timeout_files : list (string * Document) :=
  [ ("base/a.yaml", {[ "timeout" := HStr "20" ]}) ].

(** Root, [a.yaml] first imported from the root, [b.yaml] first imported
    from [a.yaml]: the graph as the loader registers it. *)
Definition chain_docs : list (string * Document) :=
  [ ("root", {[ "imports" := HList [HStr "a.yaml"] ]});
    ("a.yaml", {[ "imports" := HList [HStr "b.yaml"] ]});
    ("b.yaml", {[ "inputs" := HStr "b inputs" ]}) ].

Definition chain_graph : ImportsGraph.t :=
  ImportsGraph.add
    (ImportsGraph.add
       (ImportsGraph.add ImportsGraph.init
          "root" {[ "imports" := HList [HStr "a.yaml"] ]} None)
       "a.yaml" {[ "imports" := HList [HStr "b.yaml"] ]} (Some "root"))
    "b.yaml" {[ "inputs" := HStr "b inputs" ]} (Some "a.yaml").

(** Root imports [a.yaml] and [b.yaml], and [a.yaml] imports [c.yaml]: the
    graph as the loader registers it. *)
Definition fork_graph : ImportsGraph.t :=
  ImportsGraph.add
    (ImportsGraph.add
       (ImportsGraph.add
          (ImportsGraph.add ImportsGraph.init
             "root" {[ "imports" := HList [HStr "a.yaml"; HStr "b.yaml"] ]}
             None)
          "a.yaml" {[ "imports" := HList [HStr "c.yaml"] ]} (Some "root"))
       "c.yaml" {[ "inputs" := HStr "c inputs" ]} (Some "a.yaml"))
    "b.yaml" {[ "inputs" := HStr "b inputs" ]} (Some "root").

(** A framework whose helpers do nothing: values parse to themselves, a
    schema merge keeps the overriding schema, results start empty. *)
Definition plain_framework : Framework :=
  {| USER_PRIMITIVE_TYPES := ["string"; "integer"; "float"; "boolean"];
     parse_value := fun v _ _ _ _ _ _ _ => Ok (Some v);
     merge_schemas := fun _ overriding _ => Ok overriding;
     build_dict_result := fun _ => ∅;
     fix_properties := fun result => result |}.

(** [pair] with a property of type [point] and derived from [base]; [point]
    and [base] declare nothing. *)
Definition point_type : DataType.t :=
  {| DataType.name := "point"; DataType.derived_from := None;
     DataType.property_types := [] |}.

Definition base_type : DataType.t :=
  {| DataType.name := "base"; DataType.derived_from := None;
     DataType.property_types := [Some "string"; None] |}.

Definition pair_type : DataType.t :=
  {| DataType.name := "pair"; DataType.derived_from := Some "base";
     DataType.property_types := [Some "point"; Some "integer"] |}.

(** A property of type [point] that declares no default. *)
Definition undeclared : Element :=
  {| initial_value := None; start_line := None; value := None |}.

Definition point_property : SchemaProperty.t :=
  {| SchemaProperty.name := "origin";
     SchemaProperty.required := undeclared;
     SchemaProperty.default_ := undeclared;
     SchemaProperty.description := undeclared;
     SchemaProperty.type :=
       {| initial_value := Some (PyStr "point"); start_line := Some 3;
          value := None |} |}.

(** [a.yaml] registered through [b.yaml] and [b.yaml] through [a.yaml]: a
    tree with a cycle, which the loader never builds. *)
Definition cyclic_graph : ImportsGraph.t :=
  ImportsGraph.add
    (ImportsGraph.add ImportsGraph.init "a.yaml" ∅ (Some "b.yaml"))
    "b.yaml" ∅ (Some "a.yaml").

(** [a.yaml] registered through a root that was never registered. *)
Definition orphan_graph : ImportsGraph.t :=
  ImportsGraph.add ImportsGraph.init "a.yaml" ∅ (Some "root").

(** A root with a description of its own, importing [a.yaml]. *)
Definition described_root : Document :=
  {[ "imports" := HList [HStr "a.yaml"]; "description" := HStr "root" ]}.

(** [source] names [target] among its direct component types, and both are
    data types of the document. *)
Definition refers (document : list DataType.t) (source target : string)
  : Prop :=
  ∃ S T, S ∈ document ∧ T ∈ document ∧
         DataType.name S = source ∧ DataType.name T = target ∧
         Some target ∈ DataType.direct_component_types S.

(** * Properties *)

(** ** Results and loops *)

Lemma result_bind_ok {A B} (r : result A) (k : A → result B) b :
  result_bind r k = Ok b ↔ ∃ a, r = Ok a ∧ k a = Ok b.
Proof.
  destruct r as [a|e]; simpl; split.
  - eauto.
  - by intros (a' & [= <-] & ?).
  - done.
  - by intros (? & ? & ?).
Qed.

Lemma for_each_app {A S} (body : S → A → result S) l1 l2 s :
  for_each body (l1 ++ l2) s
  = result_bind (for_each body l1 s) (for_each body l2).
Proof.
  revert s. induction l1 as [|x l1 IH]; intros s; simpl; [done|].
  destruct (body s x); simpl; auto.
Qed.

Lemma not_ok_raise {A} (r : result A) :
  (∀ a, r ≠ Ok a) → ∃ e, r = Raise e.
Proof. destruct r as [a|e]; [intros H; by destruct (H a) | eauto]. Qed.

(** ** Merging one section without override *)

Section merge_into_dict.
Context (key_name : string).

Let step : Holder → string * Holder → result Holder :=
  fun to_dict '(key_holder, value_holder) =>
    match to_dict with
    | HDict to_value =>
        if contains key_holder to_value
        then Raise (DSLParsingLogicException 4
               ("Import failed: Could not merge '" +:+ key_name +:+
                "' due to conflict on '" +:+ key_holder +:+ "'"))
        else Ok (HDict (<[key_holder := value_holder]> to_value))
    | _ => Raise (TypeError "holder value is not a dict")
    end.

Lemma contains_true key (d : Document) :
  contains key d = true ↔ is_Some (d !! key).
Proof. unfold contains. by rewrite bool_decide_eq_true. Qed.

Lemma contains_false key (d : Document) :
  contains key d = false ↔ d !! key = None.
Proof.
  unfold contains. rewrite bool_decide_eq_false. symmetry. apply eq_None_not_Some.
Qed.

Lemma merge_steps_disjoint (items : list (string * Holder)) (to_value : Document) :
  NoDup items.*1 →
  (∀ k, k ∈ items.*1 → to_value !! k = None) →
  for_each step items (HDict to_value)
  = Ok (HDict (list_to_map items ∪ to_value)).
Proof.
  revert to_value.
  induction items as [|[k v] items IH]; intros to_value Hnd Hfresh.
  - cbn. by rewrite (left_id_L ∅ (∪)).
  - rewrite fmap_cons in Hnd, Hfresh. cbn [fst] in *.
    apply NoDup_cons in Hnd as [Hk Hnd].
    cbn [for_each step].
    assert (contains k to_value = false) as ->.
    { apply contains_false, Hfresh. left. }
    cbn [result_bind]. rewrite IH; [|done|].
    + do 2 f_equal. rewrite list_to_map_cons, <-insert_union_l.
      symmetry. apply insert_union_r. by apply not_elem_of_list_to_map_1.
    + intros k' Hk'. rewrite lookup_insert_ne by (intros ->; contradiction).
      apply Hfresh. by right.
Qed.

Lemma merge_steps_conflict (items : list (string * Holder)) (to_value : Document) :
  NoDup items.*1 →
  (∃ k, k ∈ items.*1 ∧ is_Some (to_value !! k)) →
  ∃ k, k ∈ items.*1 ∧ is_Some (to_value !! k) ∧
       for_each step items (HDict to_value)
       = Raise (duplicate_definition key_name k).
Proof.
  revert to_value.
  induction items as [|[k v] items IH]; intros to_value Hnd (j & Hj & Hin).
  - by apply elem_of_nil in Hj.
  - rewrite fmap_cons in Hnd, Hj. cbn [fst] in *.
    apply NoDup_cons in Hnd as [Hk Hnd].
    cbn [for_each step]. destruct (contains k to_value) eqn:Hc.
    + exists k. split; [rewrite fmap_cons; left|].
      split; [by apply contains_true|done].
    + apply contains_false in Hc. cbn [result_bind].
      apply elem_of_cons in Hj as [->|Hj].
      { rewrite Hc in Hin. by destruct Hin. }
      destruct (IH (<[k := v]> to_value) Hnd) as (k' & Hk' & Hs & Heq).
      { exists j. split; [done|].
        rewrite lookup_insert_ne; [done|]. intros ->. contradiction. }
      exists k'. split; [rewrite fmap_cons; by right|]. split; [|done].
      rewrite lookup_insert_ne in Hs; [done|]. intros ->. contradiction.
Qed.

End merge_into_dict.

Lemma merge_into_dict_disjoint (from_dict to_dict : Document) key_name :
  from_dict ##ₘ to_dict →
  ImportsLoader._merge_into_dict_or_throw_on_duplicate
    (HDict from_dict) (HDict to_dict) key_name
  = Ok (HDict (from_dict ∪ to_dict)).
Proof.
  intros Hdisj. unfold ImportsLoader._merge_into_dict_or_throw_on_duplicate.
  rewrite merge_steps_disjoint.
  - by rewrite list_to_map_to_list.
  - apply NoDup_fst_map_to_list.
  - intros k Hk. apply list_elem_of_fmap in Hk as ([k' v] & -> & Hkv).
    apply elem_of_map_to_list in Hkv.
    by eapply map_disjoint_Some_l.
Qed.

Lemma merge_into_dict_conflict (from_dict to_dict : Document) key_name :
  ¬ from_dict ##ₘ to_dict →
  ∃ key, is_Some (from_dict !! key) ∧ is_Some (to_dict !! key) ∧
    ImportsLoader._merge_into_dict_or_throw_on_duplicate
      (HDict from_dict) (HDict to_dict) key_name
    = Raise (duplicate_definition key_name key).
Proof.
  intros Hdisj. unfold ImportsLoader._merge_into_dict_or_throw_on_duplicate.
  destruct (merge_steps_conflict key_name (map_to_list from_dict) to_dict)
    as (k & Hk & Hto & Heq).
  - apply NoDup_fst_map_to_list.
  - apply map_not_disjoint in Hdisj as (k & x & y & Hx & Hy).
    exists k. split; [|by eexists].
    apply list_elem_of_fmap. exists (k, x). split; [done|].
    by apply elem_of_map_to_list.
  - exists k. split; [|done].
    apply list_elem_of_fmap in Hk as ([k' v] & -> & Hkv).
    apply elem_of_map_to_list in Hkv. by eexists.
Qed.

(** ** Merging one document into the accumulator *)

Section merge_items.
Context (merge_no_override : gset string).

(** The loop body depends on the accumulator through the item's key only. *)
Lemma merge_item_unfold (combined : Document) key value_holder :
  ImportsLoader.merge_item merge_no_override combined (key, value_holder)
  = if bool_decide (key ∈ ImportsLoader.IGNORE) then Ok combined
    else match combined !! key with
         | None => Ok (<[key := value_holder]> combined)
         | Some to_dict =>
             if bool_decide (key ∈ merge_no_override)
             then result_bind
                    (ImportsLoader._merge_into_dict_or_throw_on_duplicate
                       value_holder to_dict key)
                    (fun to_dict' => Ok (<[key := to_dict']> combined))
             else ImportsLoader.assert_mergeable key
         end.
Proof.
  unfold ImportsLoader.merge_item, contains, get_item.
  destruct (bool_decide (key ∈ ImportsLoader.IGNORE)); [done|].
  destruct (combined !! key) as [to_dict|] eqn:Hc.
  - rewrite bool_decide_eq_true_2 by eauto. done.
  - rewrite bool_decide_eq_false_2; [done|]. by intros [? ?].
Qed.

Lemma merge_item_frame (combined combined' : Document) key value_holder j :
  ImportsLoader.merge_item merge_no_override combined (key, value_holder)
    = Ok combined' →
  j ≠ key → combined' !! j = combined !! j.
Proof.
  rewrite merge_item_unfold. intros H Hne.
  destruct (bool_decide (key ∈ ImportsLoader.IGNORE)); [by inversion H|].
  destruct (combined !! key) as [to_dict|].
  - destruct (bool_decide (key ∈ merge_no_override)); [|done].
    apply result_bind_ok in H as (to_dict' & _ & [= <-]).
    by rewrite lookup_insert_ne.
  - inversion H. by rewrite lookup_insert_ne.
Qed.

Lemma merge_item_ignored (combined combined' : Document) key value_holder j :
  ImportsLoader.merge_item merge_no_override combined (key, value_holder)
    = Ok combined' →
  j ∈ ImportsLoader.IGNORE → combined' !! j = combined !! j.
Proof.
  intros H Hj. destruct (decide (j = key)) as [->|Hne].
  - rewrite merge_item_unfold, bool_decide_eq_true_2 in H by done.
    by inversion H.
  - by eapply merge_item_frame.
Qed.

Lemma merge_items_frame (items : list (string * Holder))
    (combined combined' : Document) j :
  for_each (ImportsLoader.merge_item merge_no_override) items combined
    = Ok combined' →
  j ∉ items.*1 → combined' !! j = combined !! j.
Proof.
  revert combined.
  induction items as [|[k v] items IH]; intros combined H Hj.
  - by inversion H.
  - cbn [for_each] in H. rewrite fmap_cons in Hj. cbn [fst] in Hj.
    apply not_elem_of_cons in Hj as [Hne Hj].
    apply result_bind_ok in H as (c1 & H1 & H).
    rewrite (IH _ H Hj). by eapply merge_item_frame.
Qed.

Lemma merge_items_ignored (items : list (string * Holder))
    (combined combined' : Document) j :
  for_each (ImportsLoader.merge_item merge_no_override) items combined
    = Ok combined' →
  j ∈ ImportsLoader.IGNORE → combined' !! j = combined !! j.
Proof.
  revert combined.
  induction items as [|[k v] items IH]; intros combined H Hj.
  - by inversion H.
  - cbn [for_each] in H.
    apply result_bind_ok in H as (c1 & H1 & H).
    rewrite (IH _ H Hj). by eapply merge_item_ignored.
Qed.

(** What one item of the imported document does to its key, whatever the
    order in which the items are met. *)
Lemma merge_items_at (items : list (string * Holder))
    (combined combined' : Document) key value_holder :
  NoDup items.*1 →
  (key, value_holder) ∈ items →
  for_each (ImportsLoader.merge_item merge_no_override) items combined
    = Ok combined' →
  ∃ c0 c1 : Document,
    c0 !! key = combined !! key ∧ c1 !! key = combined' !! key ∧
    ImportsLoader.merge_item merge_no_override c0 (key, value_holder) = Ok c1.
Proof.
  revert combined.
  induction items as [|[k v] items IH]; intros combined Hnd Hin H.
  - by apply elem_of_nil in Hin.
  - rewrite fmap_cons in Hnd. cbn [fst] in Hnd.
    apply NoDup_cons in Hnd as [Hk Hnd].
    cbn [for_each] in H. apply result_bind_ok in H as (c1 & H1 & H).
    apply elem_of_cons in Hin as [[= <- <-]|Hin].
    + exists combined, c1. split; [done|]. split; [|done].
      symmetry. by eapply merge_items_frame.
    + destruct (IH c1 Hnd Hin H) as (c0 & c2 & E0 & E2 & Hm).
      exists c0, c2. split; [|done]. rewrite E0.
      eapply merge_item_frame; [done|]. intros ->. apply Hk.
      apply list_elem_of_fmap. by exists (k, value_holder).
Qed.

(** Keys are never removed from the accumulator. *)
Lemma merge_items_mono (items : list (string * Holder))
    (combined combined' : Document) j :
  for_each (ImportsLoader.merge_item merge_no_override) items combined
    = Ok combined' →
  is_Some (combined !! j) → is_Some (combined' !! j).
Proof.
  revert combined.
  induction items as [|[k v] items IH]; intros combined H Hj.
  - cbn in H. by simplify_eq.
  - cbn [for_each] in H. apply result_bind_ok in H as (c1 & H1 & H).
    apply (IH _ H). destruct (decide (j = k)) as [->|Hne].
    + rewrite merge_item_unfold in H1.
      destruct (bool_decide (k ∈ ImportsLoader.IGNORE)); [by simplify_eq|].
      destruct (combined !! k) as [to_dict|]; [|by destruct Hj].
      destruct (bool_decide (k ∈ merge_no_override)); [|done].
      apply result_bind_ok in H1 as (to_dict' & _ & [= <-]).
      rewrite lookup_insert_eq. by eexists.
    + by rewrite (merge_item_frame _ _ _ _ _ H1 Hne).
Qed.

(** A document whose mergeable keys are all new to the accumulator is
    adopted whole, ignore sections apart. *)
Lemma merge_items_fresh (items : list (string * Holder)) (combined : Document) :
  NoDup items.*1 →
  (∀ k, k ∈ items.*1 → k ∉ ImportsLoader.IGNORE → combined !! k = None) →
  for_each (ImportsLoader.merge_item merge_no_override) items combined
  = Ok (list_to_map (filter (fun kv => kv.1 ∉ ImportsLoader.IGNORE) items)
          ∪ combined).
Proof.
  revert combined.
  induction items as [|[k v] items IH]; intros combined Hnd Hfresh.
  - cbn. by rewrite (left_id_L ∅ (∪)).
  - rewrite fmap_cons in Hnd, Hfresh. cbn [fst] in *.
    apply NoDup_cons in Hnd as [Hk Hnd].
    cbn [for_each]. rewrite merge_item_unfold, filter_cons. cbn [fst].
    destruct (decide (k ∈ ImportsLoader.IGNORE)) as [Hig|Hig].
    + rewrite bool_decide_eq_true_2 by done. cbn [result_bind].
      rewrite decide_False by (intros H; by apply H).
      apply IH; [done|]. intros k' Hk'. apply Hfresh. by right.
    + rewrite bool_decide_eq_false_2 by done.
      rewrite (Hfresh k) by (done || left). cbn [result_bind].
      rewrite decide_True by done.
      rewrite IH; [|done|].
      * f_equal. rewrite list_to_map_cons, <-insert_union_l.
        symmetry. apply insert_union_r.
        apply not_elem_of_list_to_map_1. intros Hin. apply Hk.
        apply list_elem_of_fmap in Hin as (kv & -> & Hkv).
        apply list_elem_of_filter in Hkv as [_ Hkv].
        apply list_elem_of_fmap. by exists kv.
      * intros k' Hk' Hig'.
        rewrite lookup_insert_ne by (intros ->; contradiction).
        apply Hfresh; [by right|done].
Qed.

End merge_items.

Lemma list_to_map_filter_to_list (P : string * Holder → Prop)
    `{!∀ kv, Decision (P kv)} (m : Document) :
  list_to_map (filter P (map_to_list m)) = filter P m.
Proof.
  apply map_eq. intros i. apply option_eq. intros x.
  rewrite <-elem_of_list_to_map.
  - rewrite list_elem_of_filter, elem_of_map_to_list, map_lookup_filter_Some.
    tauto.
  - eapply sublist_NoDup; [apply (NoDup_fst_map_to_list m)|].
    apply fmap_sublist, sublist_filter.
Qed.

Lemma merge_alone (imported : Document) version :
  ImportsLoader.merge_parsed_into_combined ∅ imported version None
  = Ok (without_ignored imported).
Proof.
  unfold ImportsLoader.merge_parsed_into_combined.
  rewrite merge_items_fresh.
  - rewrite (right_id_L ∅ (∪)). unfold without_ignored.
    by rewrite list_to_map_filter_to_list.
  - apply NoDup_fst_map_to_list.
  - intros k _ _. apply lookup_empty.
Qed.

(** ** The version check *)

Lemma remove_trailing_0_app (v : string) : remove_trailing_0 (v +:+ "_0") = v.
Proof.
  induction v as [|a v IH]; [done|].
  change (String a v +:+ "_0") with (String a (v +:+ "_0")).
  cbn [remove_trailing_0].
  rewrite bool_decide_eq_false_2.
  - by rewrite IH.
  - intros [= -> Hv]. destruct v as [|b [|c v]]; discriminate.
Qed.

Lemma remove_trailing_0_changed (s : string) :
  remove_trailing_0 s ≠ s → remove_trailing_0 s +:+ "_0" = s.
Proof.
  induction s as [|a s IH]; [done|].
  cbn [remove_trailing_0]. case_bool_decide as Heq.
  - intros _. by rewrite Heq.
  - intros Hne.
    change (String a (remove_trailing_0 s +:+ "_0") = String a s).
    f_equal. apply IH. congruence.
Qed.

Lemma incompatible_version_iff (declared root_version : string) :
  incompatible_version declared root_version
  ↔ declared ≠ root_version ∧ declared +:+ "_0" ≠ root_version.
Proof.
  unfold incompatible_version. split; intros [Hne H]; (split; [done|]).
  - intros <-. apply H. by rewrite remove_trailing_0_app.
  - intros ->. apply H, remove_trailing_0_changed. congruence.
Qed.

(** ** The merge policy *)

Lemma no_override_not_ignored (section : string) :
  section ∈ ImportsLoader.MERGE_NO_OVERRIDE → section ∉ ImportsLoader.IGNORE.
Proof.
  unfold ImportsLoader.MERGE_NO_OVERRIDE, ImportsLoader.IGNORE.
  rewrite !elem_of_union, !elem_of_singleton.
  intros H [[?|?]|?]; subst; repeat destruct H as [H|H]; discriminate.
Qed.

(** C5. In a no-override section the mapping of the imported document is
    united key by key with the mapping of the accumulator; a key on both
    sides raises the duplicate definition error, whose message names the
    section and the key; a document merged alone (into the empty accumulator)
    always succeeds. *)
Theorem no_override_section_union_or_duplicate
    (section : string) (combined imported from_dict to_dict : Document)
    (version : VersionNumber) :
  section ∈ ImportsLoader.MERGE_NO_OVERRIDE →
  combined !! section = Some (HDict to_dict) →
  imported !! section = Some (HDict from_dict) →
  (from_dict ##ₘ to_dict →
     ImportsLoader.merge_item ImportsLoader.MERGE_NO_OVERRIDE combined
       (section, HDict from_dict)
     = Ok (<[section := HDict (from_dict ∪ to_dict)]> combined)) ∧
  (¬ from_dict ##ₘ to_dict →
     ∃ key, is_Some (from_dict !! key) ∧ is_Some (to_dict !! key) ∧
       ImportsLoader.merge_item ImportsLoader.MERGE_NO_OVERRIDE combined
         (section, HDict from_dict)
       = Raise (duplicate_definition section key)) ∧
  (∀ combined',
     ImportsLoader.merge_parsed_into_combined combined imported version None
       = Ok combined' →
     from_dict ##ₘ to_dict ∧
     combined' !! section = Some (HDict (from_dict ∪ to_dict))) ∧
  (¬ from_dict ##ₘ to_dict →
     ∃ e, ImportsLoader.merge_parsed_into_combined combined imported version None
          = Raise e) ∧
  ImportsLoader.merge_parsed_into_combined ∅ imported version None
    = Ok (without_ignored imported) ∧
  ImportsLoader.merge_parsed_into_combined ∅ combined version None
    = Ok (without_ignored combined).
Proof.
  intros Hsec Hto Hfrom.
  pose proof (no_override_not_ignored _ Hsec) as Hig.
  assert (∀ c0 : Document, c0 !! section = Some (HDict to_dict) →
    ImportsLoader.merge_item ImportsLoader.MERGE_NO_OVERRIDE c0
      (section, HDict from_dict)
    = result_bind
        (ImportsLoader._merge_into_dict_or_throw_on_duplicate
           (HDict from_dict) (HDict to_dict) section)
        (fun to_dict' => Ok (<[section := to_dict']> c0))) as Hitem.
  { intros c0 Hc0. rewrite merge_item_unfold.
    rewrite bool_decide_eq_false_2, Hc0, bool_decide_eq_true_2; done. }
  assert (∀ combined',
     ImportsLoader.merge_parsed_into_combined combined imported version None
       = Ok combined' →
     from_dict ##ₘ to_dict ∧
     combined' !! section = Some (HDict (from_dict ∪ to_dict))) as Hdoc.
  { intros combined' Hm.
    unfold ImportsLoader.merge_parsed_into_combined in Hm.
    destruct (merge_items_at _ _ _ _ section (HDict from_dict)
                (NoDup_fst_map_to_list imported)
                ltac:(by apply elem_of_map_to_list) Hm)
      as (c0 & c1 & E0 & E1 & Hc).
    rewrite Hitem in Hc by congruence.
    destruct (decide (from_dict ##ₘ to_dict)) as [Hd|Hd].
    - split; [done|]. rewrite merge_into_dict_disjoint in Hc by done.
      cbn in Hc. injection Hc as <-. by rewrite <-E1, lookup_insert_eq.
    - destruct (merge_into_dict_conflict _ _ section Hd) as (k & _ & _ & Hr).
      rewrite Hr in Hc. discriminate. }
  split; [|split; [|split; [|split; [|split]]]].
  - intros Hd. by rewrite Hitem, merge_into_dict_disjoint.
  - intros Hd.
    destruct (merge_into_dict_conflict _ _ section Hd) as (k & H1 & H2 & Hr).
    exists k. split; [done|]. split; [done|]. by rewrite Hitem, Hr.
  - exact Hdoc.
  - intros Hd. apply not_ok_raise. intros c' Hc'.
    by destruct (Hdoc c' Hc').
  - apply merge_alone.
  - apply merge_alone.
Qed.

Lemma no_override_section_union_witness :
  ImportsLoader.merge_parsed_into_combined ∅
    (<["node_types" := HDict {[ "a_type" := HStr "a" ]}]> ∅)
    {| raw := "v2" |} None
  = Ok (without_ignored (<["node_types" := HDict {[ "a_type" := HStr "a" ]}]> ∅)).
Proof.
  assert ("node_types" ∈ ImportsLoader.MERGE_NO_OVERRIDE) as H1.
  { vm_compute. reflexivity. }
  assert ((<["node_types" := HDict {[ "root_type" := HStr "r" ]}]> ∅ : Document)
            !! "node_types"
          = Some (HDict {[ "root_type" := HStr "r" ]})) as H2.
  { vm_compute. reflexivity. }
  assert ((<["node_types" := HDict {[ "a_type" := HStr "a" ]}]> ∅ : Document)
            !! "node_types"
          = Some (HDict {[ "a_type" := HStr "a" ]})) as H3.
  { vm_compute. reflexivity. }
  exact (proj1 (proj2 (proj2 (proj2 (proj2
    (no_override_section_union_or_duplicate "node_types" _ _ _ _
       {| raw := "v2" |} H1 H2 H3)))))).
Defined.

Lemma merge_singleton (combined : Document) key value_holder version :
  ImportsLoader.merge_parsed_into_combined combined {[ key := value_holder ]}
    version None
  = ImportsLoader.merge_item ImportsLoader.MERGE_NO_OVERRIDE combined
      (key, value_holder).
Proof.
  unfold ImportsLoader.merge_parsed_into_combined.
  rewrite map_to_list_singleton. cbn [for_each].
  by destruct (ImportsLoader.merge_item _ _ _).
Qed.

(** C1, as the code has it.  For a top-level key outside the no-override
    sections and outside the ignore sections: when the accumulator lacks the
    key, the imported value is adopted; when the accumulator already has the
    key, nothing is discarded silently: the merge raises the non-mergeable
    field error (code 3) naming the key. *)
Theorem override_key_adopted_or_rejected
    (key : string) (combined imported : Document) (value_holder : Holder)
    (version : VersionNumber) :
  key ∉ ImportsLoader.MERGE_NO_OVERRIDE →
  key ∉ ImportsLoader.IGNORE →
  imported !! key = Some value_holder →
  (combined !! key = None →
     (∀ combined',
        ImportsLoader.merge_parsed_into_combined combined imported version None
          = Ok combined' →
        combined' !! key = Some value_holder) ∧
     ImportsLoader.merge_parsed_into_combined combined {[ key := value_holder ]}
       version None
     = Ok (<[key := value_holder]> combined)) ∧
  (is_Some (combined !! key) →
     (∃ e, ImportsLoader.merge_parsed_into_combined combined imported version None
           = Raise e) ∧
     ImportsLoader.merge_parsed_into_combined combined {[ key := value_holder ]}
       version None
     = Raise (DSLParsingLogicException 3
                ("Import failed: non-mergeable field: '" +:+ key +:+ "'"))).
Proof.
  intros Hno Hig Hin.
  assert (∀ c0 c1 : Document,
            ImportsLoader.merge_item ImportsLoader.MERGE_NO_OVERRIDE c0
              (key, value_holder) = Ok c1 →
            c0 !! key = None ∧ c1 !! key = Some value_holder) as Hitem.
  { intros c0 c1. rewrite merge_item_unfold.
    rewrite bool_decide_eq_false_2 by done.
    destruct (c0 !! key) as [cur|].
    - by rewrite bool_decide_eq_false_2 by done.
    - intros [= <-]. by rewrite lookup_insert_eq. }
  assert (∀ combined',
            ImportsLoader.merge_parsed_into_combined combined imported version None
              = Ok combined' →
            combined !! key = None ∧ combined' !! key = Some value_holder) as Hdoc.
  { intros combined' Hm.
    unfold ImportsLoader.merge_parsed_into_combined in Hm.
    destruct (merge_items_at _ _ _ _ key value_holder
                (NoDup_fst_map_to_list imported)
                ltac:(by apply elem_of_map_to_list) Hm)
      as (c0 & c1 & E0 & E1 & Hc).
    destruct (Hitem _ _ Hc) as [H0 H1]. split; congruence. }
  split.
  - intros Hnone. split.
    + intros combined' Hm. by destruct (Hdoc _ Hm).
    + rewrite merge_singleton, merge_item_unfold.
      by rewrite bool_decide_eq_false_2, Hnone by done.
  - intros [cur Hsome]. split.
    + apply not_ok_raise. intros c' Hc'. destruct (Hdoc _ Hc'). congruence.
    + rewrite merge_singleton, merge_item_unfold.
      by rewrite bool_decide_eq_false_2, Hsome, bool_decide_eq_false_2 by done.
Qed.

Lemma override_key_adopted_witness :
  ImportsLoader.merge_parsed_into_combined ∅ {[ "timeout" := HStr "20" ]}
    {| raw := "v2" |} None
  = Ok (<["timeout" := HStr "20"]> ∅).
Proof.
  assert ("timeout" ∉ ImportsLoader.MERGE_NO_OVERRIDE) as H1.
  { vm_compute. discriminate. }
  assert ("timeout" ∉ ImportsLoader.IGNORE) as H2.
  { vm_compute. discriminate. }
  assert (({[ "timeout" := HStr "20" ]} : Document) !! "timeout"
          = Some (HStr "20")) as H3.
  { vm_compute. reflexivity. }
  assert ((∅ : Document) !! "timeout" = None) as H4.
  { vm_compute. reflexivity. }
  exact (proj2 (proj1
    (override_key_adopted_or_rejected "timeout" ∅ _ _ {| raw := "v2" |}
       H1 H2 H3) H4)).
Defined.

(** C1, counterexample.  Root declares [timeout: 10], its import declares
    [timeout: 20]: the pass does not end with [timeout] mapped to [10], it
    raises the non-mergeable field error. *)
Lemma override_conflict_is_fatal :
  ImportsLoader._combine_imports 10 (table_env timeout_files) timeout_root
    None (Some "base") {| raw := "v2" |} (table_resolver timeout_files) false
  = Raise (DSLParsingLogicException 3
             "Import failed: non-mergeable field: 'timeout'")
  ∧ ¬ (∃ merged,
         ImportsLoader._combine_imports 10 (table_env timeout_files)
           timeout_root None (Some "base") {| raw := "v2" |}
           (table_resolver timeout_files) false = Ok merged
         ∧ merged !! Some "timeout" = Some (Some (HStr "10"))).
Proof.
  assert (ImportsLoader._combine_imports 10 (table_env timeout_files)
            timeout_root None (Some "base") {| raw := "v2" |}
            (table_resolver timeout_files) false
          = Raise (DSLParsingLogicException 3
                     "Import failed: non-mergeable field: 'timeout'")) as H.
  { vm_compute. reflexivity. }
  split; [exact H|]. intros (merged & Hm & _). rewrite H in Hm.
  discriminate Hm.
Qed.

(** ** The version check *)

Lemma validate_version_declared (dsl_version import_url declared : string)
    (imported : Document) :
  imported !! VERSION = Some (HStr declared) →
  ImportsLoader._validate_version dsl_version import_url imported
  = if bool_decide (declared ≠ dsl_version ∧ declared +:+ "_0" ≠ dsl_version)
    then Raise (DSLParsingLogicException 28
           ("An import uses a different tosca_definitions_version than the "
            +:+ "one defined in the main blueprint's file: main blueprint's "
            +:+ "file version is '" +:+ dsl_version
            +:+ "', import with different version is '" +:+ import_url
            +:+ "', version of problematic import is '" +:+ declared +:+ "'"))
    else Ok tt.
Proof.
  intros Hv. unfold ImportsLoader._validate_version, get_item. rewrite Hv.
  cbn [ImportsLoader.value_differs ImportsLoader.format_value].
  destruct (decide (declared = dsl_version)) as [->|Hne].
  - rewrite (bool_decide_eq_true_2 (dsl_version = dsl_version)) by done.
    cbn [negb andb]. rewrite bool_decide_eq_false_2; [done|]. by intros [? _].
  - rewrite (bool_decide_eq_false_2 (declared = dsl_version)) by done.
    cbn [negb andb].
    destruct (decide (declared +:+ "_0" = dsl_version)) as [Heq|Hne'].
    + rewrite (bool_decide_eq_true_2 _ Heq). cbn [negb].
      rewrite bool_decide_eq_false_2; [done|]. by intros [_ ?].
    + rewrite (bool_decide_eq_false_2 _ Hne'). cbn [negb].
      by rewrite bool_decide_eq_true_2.
Qed.

(** C4, as the code has it.  With version validation enabled, an import that
    declares a version fails the check with error 28 exactly when the
    declared version differs from the root's version and from the root's
    version with a trailing [_0] removed.  So an import declaring [v1] under
    a root declaring [v2] fails, and an import declaring [v2] under a root
    declaring [v2_0] is accepted.  With validation disabled nothing is
    checked. *)
Theorem version_check_fails_iff_incompatible
    (dsl_version import_url declared : string) (imported combined : Document) :
  imported !! VERSION = Some (HStr declared) →
  (incompatible_version declared dsl_version →
     ∃ message,
       ImportsLoader._validate_version dsl_version import_url imported
       = Raise (DSLParsingLogicException 28 message) ∧
       ImportsLoader.combine_step true {| raw := dsl_version |} combined
         {| ImportsGraph.import := import_url; ImportsGraph.parsed := imported |}
       = Raise (DSLParsingLogicException 28 message)) ∧
  (¬ incompatible_version declared dsl_version →
     ImportsLoader._validate_version dsl_version import_url imported = Ok tt ∧
     ImportsLoader.combine_step true {| raw := dsl_version |} combined
       {| ImportsGraph.import := import_url; ImportsGraph.parsed := imported |}
     = ImportsLoader.merge_parsed_into_combined combined imported
         {| raw := dsl_version |} None) ∧
  ImportsLoader.combine_step false {| raw := dsl_version |} combined
    {| ImportsGraph.import := import_url; ImportsGraph.parsed := imported |}
  = ImportsLoader.merge_parsed_into_combined combined imported
      {| raw := dsl_version |} None ∧
  (∃ message,
     ImportsLoader._validate_version "v2" import_url {[ VERSION := HStr "v1" ]}
     = Raise (DSLParsingLogicException 28 message)) ∧
  ImportsLoader._validate_version "v2_0" import_url {[ VERSION := HStr "v2" ]}
  = Ok tt.
Proof.
  intros Hv.
  pose proof (validate_version_declared dsl_version import_url declared
                imported Hv) as Hval.
  split; [|split; [|split; [|split]]].
  - intros Hinc%incompatible_version_iff.
    rewrite bool_decide_eq_true_2 in Hval by done.
    eexists. split; [exact Hval|].
    unfold ImportsLoader.combine_step. cbn [ImportsGraph.import ImportsGraph.parsed raw].
    by rewrite Hval.
  - intros Hinc. rewrite incompatible_version_iff in Hinc.
    rewrite bool_decide_eq_false_2 in Hval by done.
    split; [exact Hval|].
    unfold ImportsLoader.combine_step. cbn [ImportsGraph.import ImportsGraph.parsed raw].
    by rewrite Hval.
  - done.
  - rewrite (validate_version_declared "v2" import_url "v1")
      by apply lookup_singleton_eq.
    rewrite bool_decide_eq_true_2; [by eexists|]. split; discriminate.
  - rewrite (validate_version_declared "v2_0" import_url "v2")
      by apply lookup_singleton_eq.
    rewrite bool_decide_eq_false_2; [done|]. intros [_ H]. by apply H.
Qed.

Lemma version_check_witness :
  ∃ message,
    ImportsLoader._validate_version "v2" "base/a.yaml" {[ VERSION := HStr "v1" ]}
    = Raise (DSLParsingLogicException 28 message).
Proof.
  assert (({[ VERSION := HStr "v1" ]} : Document) !! VERSION = Some (HStr "v1"))
    as H1.
  { vm_compute. reflexivity. }
  assert (incompatible_version "v1" "v2") as H2.
  { split; vm_compute; discriminate. }
  destruct (proj1 (version_check_fails_iff_incompatible "v2" "base/a.yaml" "v1"
                     {[ VERSION := HStr "v1" ]} ∅ H1) H2) as (message & H & _).
  exists message. exact H.
Defined.

(** C4, counterexample.  An import declaring [v2_0] under a root declaring
    [v2] is not accepted: the check raises error 28. *)
Lemma version_v2_0_under_v2_is_rejected :
  ImportsLoader._validate_version "v2" "base/a.yaml"
    {[ VERSION := HStr "v2_0" ]}
  ≠ Ok tt
  ∧ ∃ message,
      ImportsLoader._validate_version "v2" "base/a.yaml"
        {[ VERSION := HStr "v2_0" ]}
      = Raise (DSLParsingLogicException 28 message).
Proof.
  split.
  - vm_compute. discriminate.
  - eexists. vm_compute. reflexivity.
Qed.

(** C10.  With version validation enabled, an import that declares no
    version passes the check whatever the root's version is, and the merge
    goes on; an import the check rejects declares a version. *)
Theorem import_without_version_is_accepted
    (dsl_version import_url : string) (imported combined : Document) :
  (imported !! VERSION = None →
     ImportsLoader._validate_version dsl_version import_url imported = Ok tt ∧
     ImportsLoader.combine_step true {| raw := dsl_version |} combined
       {| ImportsGraph.import := import_url; ImportsGraph.parsed := imported |}
     = ImportsLoader.merge_parsed_into_combined combined imported
         {| raw := dsl_version |} None) ∧
  (∀ e, ImportsLoader._validate_version dsl_version import_url imported
        = Raise e →
        is_Some (imported !! VERSION)).
Proof.
  split.
  - intros Hnone.
    assert (ImportsLoader._validate_version dsl_version import_url imported
            = Ok tt) as Hval.
    { unfold ImportsLoader._validate_version, get_item. by rewrite Hnone. }
    split; [done|]. unfold ImportsLoader.combine_step.
    cbn [ImportsGraph.import ImportsGraph.parsed raw]. by rewrite Hval.
  - intros e. unfold ImportsLoader._validate_version, get_item.
    destruct (imported !! VERSION); [by eauto|discriminate].
Qed.

Lemma import_without_version_witness :
  ImportsLoader._validate_version "v2" "base/a.yaml"
    {[ "timeout" := HStr "20" ]} = Ok tt.
Proof.
  assert (({[ "timeout" := HStr "20" ]} : Document) !! VERSION = None) as H1.
  { vm_compute. reflexivity. }
  exact (proj1 (proj1 (import_without_version_is_accepted "v2" "base/a.yaml"
                         {[ "timeout" := HStr "20" ]} ∅) H1)).
Defined.

(** ** The whole pass: ignore sections and the version item *)

Lemma combine_loop_ignored validate_version version
    (ordered_imports : list ImportsGraph.entry) (combined combined' : Document) j :
  for_each (ImportsLoader.combine_step validate_version version)
    ordered_imports combined = Ok combined' →
  j ∈ ImportsLoader.IGNORE → combined' !! j = combined !! j.
Proof.
  revert combined.
  induction ordered_imports as [|imported rest IH]; intros combined H Hj.
  - cbn in H. by simplify_eq.
  - cbn [for_each] in H. apply result_bind_ok in H as (c1 & H1 & H).
    rewrite (IH _ H Hj).
    unfold ImportsLoader.combine_step in H1.
    apply result_bind_ok in H1 as (_u & _ & H1).
    by eapply merge_items_ignored.
Qed.

(** C7.  Whenever a merge pass succeeds, the merged result has no imports
    declaration and no inline dsl definitions, and its version item is the
    root document's version item: the ignore sections of the imported
    documents never reach the result, and the root's version key and value
    are attached at the end as they were read before the merge. *)
Theorem combined_drops_ignored_and_keeps_root_version
    (depth : nat) (env : Environment) (parsed_dsl_holder : Document)
    (dsl_location resources_base_url : option string) (version : VersionNumber)
    (resolver : Resolver) (validate_version : bool)
    (merged : gmap (option string) (option Holder)) :
  ImportsLoader._combine_imports depth env parsed_dsl_holder dsl_location
    resources_base_url version resolver validate_version = Ok merged →
  merged !! Some constants.IMPORTS = None ∧
  merged !! Some constants.DSL_DEFINITIONS = None ∧
  merged !! Some VERSION = Some <$> (parsed_dsl_holder !! VERSION) ∧
  merged !! (get_item VERSION parsed_dsl_holder).1
    = Some (get_item VERSION parsed_dsl_holder).2.
Proof.
  unfold ImportsLoader._combine_imports. intros H.
  apply result_bind_ok in H as (ordered & _ & H).
  destruct (get_item VERSION parsed_dsl_holder) as [vk vv] eqn:Hitem.
  apply result_bind_ok in H as (holder_result & Hloop & [= <-]).
  assert (∀ j, j ∈ ImportsLoader.IGNORE →
            (kmap Some (Some <$> holder_result)
               : gmap (option string) (option Holder)) !! Some j = None) as Hig.
  { intros j Hj. rewrite (lookup_kmap Some), lookup_fmap.
    by rewrite (combine_loop_ignored _ _ _ _ _ j Hloop Hj), lookup_empty. }
  assert (vk = None ∧ parsed_dsl_holder !! VERSION = None ∨
          vk = Some VERSION ∧ ∃ v, vv = Some v ∧
            parsed_dsl_holder !! VERSION = Some v) as Hvk.
  { unfold get_item in Hitem.
    destruct (parsed_dsl_holder !! VERSION) as [v|]; simplify_eq; eauto. }
  cbn [fst snd].
  split; [|split; [|split]].
  - rewrite lookup_insert_ne.
    + apply Hig. vm_compute. reflexivity.
    + destruct Hvk as [[-> _]|[-> _]]; discriminate.
  - rewrite lookup_insert_ne.
    + apply Hig. vm_compute. reflexivity.
    + destruct Hvk as [[-> _]|[-> _]]; discriminate.
  - destruct Hvk as [[-> ->]|[-> (v & -> & ->)]].
    + rewrite lookup_insert_ne by discriminate.
      apply Hig. vm_compute. reflexivity.
    + by rewrite lookup_insert_eq.
  - by rewrite lookup_insert_eq.
Qed.

Lemma combined_keeps_root_version_witness :
  match ImportsLoader._combine_imports 10 (table_env cyclic_files) cyclic_root
          None (Some "base") {| raw := "v2_0" |}
          (table_resolver cyclic_files) true
  with
  | Ok merged =>
      merged !! Some constants.IMPORTS = None ∧
      merged !! Some constants.DSL_DEFINITIONS = None ∧
      merged !! Some VERSION = Some <$> (cyclic_root !! VERSION)
  | Raise _ => False
  end.
Proof.
  assert (is_ok (ImportsLoader._combine_imports 10 (table_env cyclic_files)
                   cyclic_root None (Some "base") {| raw := "v2_0" |}
                   (table_resolver cyclic_files) true) = true) as Hok.
  { vm_compute. reflexivity. }
  destruct (ImportsLoader._combine_imports 10 (table_env cyclic_files)
              cyclic_root None (Some "base") {| raw := "v2_0" |}
              (table_resolver cyclic_files) true) as [merged|e] eqn:H.
  - pose proof (combined_drops_ignored_and_keeps_root_version _ _ _ _ _ _ _ _ _ H)
      as (H1 & H2 & H3 & _).
    split; [exact H1|]. split; [exact H2|]. exact H3.
  - discriminate Hok.
Defined.

(** ** The depth-first search of [networkx.topological_sort] *)

Section search.
Context (G : networkx.DiGraph).

Lemma new_nodes_ok succs seen explored ns :
  networkx.new_nodes succs seen explored = Ok ns →
  ns = filter (fun n => n ∉ explored) succs ∧ ∀ n, n ∈ ns → n ∉ seen.
Proof.
  revert ns. induction succs as [|n succs IH]; intros ns H; cbn in H.
  - simplify_eq. split; [done|]. intros n Hn. by apply elem_of_nil in Hn.
  - rewrite filter_cons. case_bool_decide as He.
    + rewrite decide_False by (intros Hn; by apply Hn). by apply IH.
    + rewrite decide_True by done. case_bool_decide as Hs; [done|].
      apply result_bind_ok in H as (ns' & H' & [= <-]).
      destruct (IH _ H') as [-> Hseen]. split; [done|].
      intros m [->|Hm]%elem_of_cons; [done|by apply Hseen].
Qed.

Lemma new_nodes_raise succs seen explored e :
  networkx.new_nodes succs seen explored = Raise e →
  e = NetworkXUnfeasible "Graph contains a cycle." ∧
  ∃ n, n ∈ succs ∧ (n ∉ explored) ∧ n ∈ seen.
Proof.
  induction succs as [|n succs IH]; intros H; cbn in H; [done|].
  case_bool_decide as He.
  - destruct (IH H) as (-> & m & ? & ? & ?). split; [done|].
    exists m. split; [by right|done].
  - case_bool_decide as Hs.
    + simplify_eq. split; [done|]. exists n. split; [left|done].
    + destruct (networkx.new_nodes succs seen explored) as [ns|e'] eqn:E;
        [done|]. cbn in H. simplify_eq.
      destruct (IH eq_refl) as (-> & m & ? & ? & ?). split; [done|].
      exists m. split; [by right|done].
Qed.

Lemma successors_ok w succs :
  networkx.successors G w = Ok succs →
  ∃ node, networkx.find_node G w = Some node ∧ networkx.adj node = succs.
Proof.
  unfold networkx.successors.
  destruct (networkx.find_node G w) as [node|]; [|done].
  intros [= <-]. eauto.
Qed.

Lemma successors_raise w e :
  networkx.successors G w = Raise e → e = KeyError w.
Proof.
  unfold networkx.successors.
  destruct (networkx.find_node G w); [done|]. by intros [= <-].
Qed.

(** One iteration of the loop, case by case. *)
Lemma explore_step budget w below st :
  networkx.explore (S budget) G (w :: below) st
  = if bool_decide (w ∈ networkx.explored st)
    then networkx.explore budget G below st
    else
      result_bind (networkx.successors G w) (fun succs =>
      result_bind (networkx.new_nodes succs ({[ w ]} ∪ networkx.seen st)
                     (networkx.explored st)) (fun new =>
        match new with
        | [] =>
            networkx.explore budget G below
              {| networkx.seen := {[ w ]} ∪ networkx.seen st;
                 networkx.order := networkx.order st ++ [w];
                 networkx.explored := {[ w ]} ∪ networkx.explored st |}
        | _ :: _ =>
            networkx.explore budget G (rev new ++ w :: below)
              {| networkx.seen := {[ w ]} ∪ networkx.seen st;
                 networkx.order := networkx.order st;
                 networkx.explored := networkx.explored st |}
        end)).
Proof. reflexivity. Qed.

Lemma explore_nil budget st : networkx.explore budget G [] st = Ok st.
Proof. by destruct budget. Qed.

Lemma dfs_inv_explore w st node :
  dfs_inv G st →
  w ∉ networkx.explored st →
  networkx.find_node G w = Some node →
  (∀ n, n ∈ networkx.adj node → n ∈ networkx.explored st) →
  dfs_inv G {| networkx.seen := {[ w ]} ∪ networkx.seen st;
               networkx.order := networkx.order st ++ [w];
               networkx.explored := {[ w ]} ∪ networkx.explored st |}.
Proof.
  intros [Hes Hnd Hoe Hpo] Hw Hnode Hsucc. split; cbn.
  - set_solver.
  - apply NoDup_app. split; [done|]. split; [|apply NoDup_singleton].
    intros x Hx ->%list_elem_of_singleton. by apply Hw, Hoe.
  - intros x. rewrite elem_of_app, list_elem_of_singleton, Hoe. set_solver.
  - intros l1 x l2 Heq.
    destruct l2 as [|y l2 _] using rev_ind.
    + apply (app_inj_tail (networkx.order st) l1 w x) in Heq as [<- <-].
      exists node. split; [done|]. intros n Hn. by apply Hoe, Hsucc.
    + rewrite app_comm_cons, app_assoc in Heq.
      apply app_inj_tail in Heq as [Heq _]. by apply (Hpo l1 x l2).
Qed.

Lemma dfs_inv_see w st :
  dfs_inv G st →
  dfs_inv G {| networkx.seen := {[ w ]} ∪ networkx.seen st;
               networkx.order := networkx.order st;
               networkx.explored := networkx.explored st |}.
Proof. intros [Hes Hnd Hoe Hpo]. split; cbn; [set_solver|done..]. Qed.

Lemma explore_inv budget fringe st st' :
  dfs_inv G st →
  networkx.explore budget G fringe st = Ok st' →
  dfs_inv G st' ∧
  networkx.explored st ⊆ networkx.explored st' ∧
  ∀ x, x ∈ fringe → x ∈ networkx.explored st'.
Proof.
  revert fringe st.
  induction budget as [|budget IH]; intros fringe st Hinv H.
  - destruct fringe; [|done]. cbn in H. simplify_eq.
    split; [done|]. split; [done|]. intros x Hx. by apply elem_of_nil in Hx.
  - destruct fringe as [|w below].
    { cbn in H. simplify_eq.
      split; [done|]. split; [done|]. intros x Hx. by apply elem_of_nil in Hx. }
    rewrite explore_step in H. case_bool_decide as Hw.
    + destruct (IH _ _ Hinv H) as (Hinv' & Hsub & Hall).
      split; [done|]. split; [done|].
      intros x [->|Hx]%elem_of_cons; [by apply Hsub|by apply Hall].
    + apply result_bind_ok in H as (succs & Hs & H).
      apply result_bind_ok in H as (new & Hn & H).
      apply successors_ok in Hs as (node & Hnode & <-).
      apply new_nodes_ok in Hn as [Hnew Hunseen].
      destruct new as [|n new].
      * assert (∀ n, n ∈ networkx.adj node → n ∈ networkx.explored st) as Hsucc.
        { intros n Hn. destruct (decide (n ∈ networkx.explored st)); [done|].
          assert (n ∈ filter (fun n => n ∉ networkx.explored st)
                         (networkx.adj node)) as Hin
            by by apply list_elem_of_filter.
          rewrite <-Hnew in Hin. by apply elem_of_nil in Hin. }
        destruct (IH _ _ (dfs_inv_explore _ _ _ Hinv Hw Hnode Hsucc) H)
          as (Hinv' & Hsub & Hall). cbn in Hsub.
        split; [done|]. split; [set_solver|].
        intros x [->|Hx]%elem_of_cons; [set_solver|by apply Hall].
      * destruct (IH _ _ (dfs_inv_see w _ Hinv) H) as (Hinv' & Hsub & Hall).
        cbn in Hsub. split; [done|]. split; [done|].
        intros x Hx. apply Hall. rewrite elem_of_app. by right.
Qed.

Lemma visit_inv budget nbunch st st' :
  dfs_inv G st →
  networkx.visit budget G nbunch st = Ok st' →
  dfs_inv G st' ∧
  networkx.explored st ⊆ networkx.explored st' ∧
  ∀ x, x ∈ nbunch → x ∈ networkx.explored st'.
Proof.
  revert st.
  induction nbunch as [|v rest IH]; intros st Hinv H; cbn in H.
  - simplify_eq. split; [done|]. split; [done|].
    intros x Hx. by apply elem_of_nil in Hx.
  - case_bool_decide as Hv.
    + destruct (IH _ Hinv H) as (Hinv' & Hsub & Hall).
      split; [done|]. split; [done|].
      intros x [->|Hx]%elem_of_cons; [by apply Hsub|by apply Hall].
    + apply result_bind_ok in H as (st1 & H1 & H).
      destruct (explore_inv _ _ _ _ Hinv H1) as (Hinv1 & Hsub1 & Hall1).
      destruct (IH _ Hinv1 H) as (Hinv' & Hsub & Hall).
      split; [done|]. split; [set_solver|].
      intros x [->|Hx]%elem_of_cons; [|by apply Hall].
      apply Hsub, Hall1. left.
Qed.

Lemma dfs_inv_init : dfs_inv G networkx.dfs_init.
Proof.
  split; cbn; [done|apply NoDup_nil_2|set_solver|].
  intros l1 x l2 H. by destruct l1.
Qed.

End search.

Section search_budget.
Context (G : networkx.DiGraph).

Lemma find_node_Some w node :
  networkx.find_node G w = Some node → node ∈ G ∧ networkx.name node = w.
Proof.
  induction G as [|x G' IH]; cbn; [done|].
  case_bool_decide as Hx.
  - intros [= <-]. split; [left|done].
  - intros [? ?]%IH. split; [by right|done].
Qed.

Lemma find_node_is_Some w :
  w ∈ networkx.nodes_iter G → is_Some (networkx.find_node G w).
Proof.
  unfold networkx.nodes_iter.
  induction G as [|x G' IH]; cbn; [by intros ?%elem_of_nil|].
  intros [->|Hw]%elem_of_cons.
  - rewrite bool_decide_eq_true_2 by done. eauto.
  - case_bool_decide; eauto.
Qed.

Lemma find_node_in_universe w node :
  networkx.find_node G w = Some node → w ∈ networkx.universe G.
Proof.
  intros [Hin <-]%find_node_Some. unfold networkx.universe, networkx.nodes_iter.
  rewrite elem_of_list_to_set, elem_of_app. left.
  apply list_elem_of_fmap. eauto.
Qed.

Lemma adj_length_edge_count node :
  node ∈ G → length (networkx.adj node) ≤ networkx.edge_count G.
Proof.
  unfold networkx.edge_count.
  induction G as [|x G' IH]; [by intros ?%elem_of_nil|].
  cbn. rewrite length_app. intros [->|Hin]%elem_of_cons; [lia|].
  specialize (IH Hin). lia.
Qed.

Lemma unseen_le w (seen : gset string) :
  size (networkx.universe G ∖ ({[ w ]} ∪ seen))
  ≤ size (networkx.universe G ∖ seen).
Proof. apply subseteq_size. set_solver. Qed.

Lemma unseen_lt w (seen : gset string) :
  w ∈ networkx.universe G → w ∉ seen →
  size (networkx.universe G ∖ ({[ w ]} ∪ seen))
  < size (networkx.universe G ∖ seen).
Proof.
  intros Hu Hs. apply subset_size. split; [set_solver|].
  intros H. specialize (H w). set_solver.
Qed.

Lemma unseen_eq w (seen : gset string) :
  w ∈ seen →
  networkx.universe G ∖ ({[ w ]} ∪ seen) = networkx.universe G ∖ seen.
Proof. intros Hs. apply set_eq. set_solver. Qed.

Lemma explore_budget budget fringe st e :
  networkx.explored st ⊆ networkx.seen st →
  dfs_measure G fringe st < budget →
  networkx.explore budget G fringe st = Raise e → e ≠ Diverged.
Proof.
  revert fringe st.
  induction budget as [|budget IH]; intros fringe st Hes Hm H; [lia|].
  destruct fringe as [|w below]; [done|].
  rewrite explore_step in H. unfold dfs_measure in Hm.
  cbn [length] in Hm.
  set (E1 := S (networkx.edge_count G)) in *.
  set (u := size (networkx.universe G ∖ networkx.seen st)) in *.
  assert (∀ (l : list string) st1,
            match l with
            | w :: _ => if bool_decide (w ∈ networkx.seen st1) then 1 else 0
            | [] => 1
            end ≤ 1) as Htop.
  { intros [|a ?] st1; cbn; [lia|].
    destruct (bool_decide (a ∈ networkx.seen st1)); lia. }
  case_bool_decide as Hw.
  - (* the top is explored already *)
    apply (IH below st Hes); [|done].
    unfold dfs_measure. fold E1 u.
    rewrite bool_decide_eq_true_2 in Hm by set_solver.
    specialize (Htop below st). nia.
  - destruct (networkx.successors G w) as [succs|e1] eqn:Hs; cbn in H.
    2:{ simplify_eq. apply successors_raise in Hs as ->. done. }
    apply successors_ok in Hs as (node & Hnode & <-).
    destruct (networkx.new_nodes _ _ _) as [new|e1] eqn:Hn; cbn in H.
    2:{ simplify_eq. apply new_nodes_raise in Hn as [-> _]. done. }
    apply new_nodes_ok in Hn as [Hnew Hunseen].
    pose proof (find_node_in_universe _ _ Hnode) as Hu.
    pose proof (find_node_Some _ _ Hnode) as [Hin _].
    pose proof (adj_length_edge_count _ Hin) as Hlen.
    assert (length new ≤ networkx.edge_count G) as Hnewlen.
    { rewrite Hnew. etrans; [apply length_filter|done]. }
    set (u1 := size (networkx.universe G ∖ ({[ w ]} ∪ networkx.seen st))).
    assert (u1 ≤ u ∧ (w ∉ networkx.seen st → u1 < u)) as [Hle Hlt].
    { split; [apply unseen_le|by apply unseen_lt]. }
    assert ((if bool_decide (w ∈ networkx.seen st) then 1 else 0) = 0
            → u1 < u) as Hlt'.
    { case_bool_decide; [done|auto]. }
    destruct new as [|n new].
    + eapply (IH below _ _ _ H). Unshelve.
      * cbn. set_solver.
      * unfold dfs_measure. cbn [networkx.seen]. fold E1 u1.
        match goal with |- context [match below with _ => _ end] =>
          specialize (Htop below
            {| networkx.seen := {[ w ]} ∪ networkx.seen st;
               networkx.order := networkx.order st ++ [w];
               networkx.explored := {[ w ]} ∪ networkx.explored st |})
        end. cbn [networkx.seen] in Htop.
        destruct (bool_decide (w ∈ networkx.seen st)); nia.
    + eapply (IH _ _ _ _ H). Unshelve.
      * cbn. set_solver.
      * unfold dfs_measure. cbn [networkx.seen]. fold E1 u1.
        rewrite length_app, length_rev. cbn [length] in *.
        destruct (rev (n :: new)) as [|top rest] eqn:Hrev.
        { apply (f_equal length) in Hrev. rewrite length_rev in Hrev. done. }
        assert (top ∈ n :: new) as Htopin.
        { apply list_elem_of_In, in_rev, list_elem_of_In. rewrite Hrev. left. }
        cbn [app]. rewrite bool_decide_eq_false_2 by by apply Hunseen.
        subst E1. destruct (bool_decide (w ∈ networkx.seen st)); nia.
Qed.

Lemma first_measure v st :
  dfs_measure G [v] st < networkx.search_budget G.
Proof.
  unfold dfs_measure, networkx.search_budget. cbn [length].
  assert (size (networkx.universe G ∖ networkx.seen st)
          ≤ size (networkx.universe G)) by (apply subseteq_size; set_solver).
  destruct (bool_decide (v ∈ networkx.seen st)); nia.
Qed.

Lemma visit_budget nbunch st e :
  dfs_inv G st →
  networkx.visit (networkx.search_budget G) G nbunch st = Raise e →
  e ≠ Diverged.
Proof.
  revert st. induction nbunch as [|v rest IH]; intros st Hinv H; cbn in H;
    [done|].
  case_bool_decide as Hv; [by eapply IH|].
  destruct (networkx.explore _ G [v] st) as [st1|e1] eqn:H1; cbn in H.
  - eapply IH; [|done]. by eapply explore_inv.
  - simplify_eq. eapply explore_budget; [|apply first_measure|done].
    by destruct Hinv.
Qed.

(** The search never runs out of iterations. *)
Lemma topological_sort_budget nbunch :
  networkx.topological_sort G nbunch ≠ Raise Diverged.
Proof.
  unfold networkx.topological_sort. intros H.
  destruct (networkx.visit _ _ _ _) as [st|e] eqn:Hv; cbn in H; [done|].
  simplify_eq. by eapply visit_budget; [apply dfs_inv_init|..].
Qed.

Lemma explore_raise_kind budget fringe st e :
  networkx.explore budget G fringe st = Raise e →
  e = Diverged ∨ (∃ k, e = KeyError k) ∨ (∃ m, e = NetworkXUnfeasible m).
Proof.
  revert fringe st.
  induction budget as [|budget IH]; intros fringe st H.
  - destruct fringe; cbn in H; simplify_eq. by left.
  - destruct fringe as [|w below]; [done|].
    rewrite explore_step in H. case_bool_decide as Hw; [by eapply IH|].
    destruct (networkx.successors G w) as [succs|e1] eqn:Hs; cbn in H.
    2:{ simplify_eq. apply successors_raise in Hs as ->. eauto. }
    destruct (networkx.new_nodes _ _ _) as [new|e1] eqn:Hn; cbn in H.
    2:{ simplify_eq. apply new_nodes_raise in Hn as [-> _]. eauto. }
    destruct new; by eapply IH.
Qed.

End search_budget.

Lemma gray_inv_init (rank : string → nat) :
  gray_inv rank [] networkx.dfs_init.
Proof. intros x Hx. cbn in Hx. set_solver. Qed.

Lemma gray_inv_start (rank : string → nat) v st :
  gray_inv rank [] st → gray_inv rank [v] st.
Proof.
  intros Hg x Hx Hnx. destruct (Hg x Hx Hnx) as (pre & post & Heq & _).
  by destruct pre.
Qed.

Section search_acyclic.
Context (G : networkx.DiGraph) (rank : string → nat).
Context (Hranked : ranked G rank).

Lemma gray_inv_pop w below st :
  gray_inv rank (w :: below) st →
  w ∈ networkx.explored st →
  gray_inv rank below st.
Proof.
  intros Hg Hw x Hx Hnx.
  destruct (Hg x Hx Hnx) as (pre & post & Heq & Hpre & Hrank).
  destruct pre as [|w' pre]; cbn in Heq; simplify_eq; [done|].
  exists pre, post. split; [done|]. split.
  - intros Hin. apply Hpre. by right.
  - intros y Hy. apply Hrank. by right.
Qed.

Lemma gray_inv_explore w below st order' :
  gray_inv rank (w :: below) st →
  gray_inv rank below
    {| networkx.seen := {[ w ]} ∪ networkx.seen st;
       networkx.order := order';
       networkx.explored := {[ w ]} ∪ networkx.explored st |}.
Proof.
  intros Hg x Hx Hnx. cbn in Hx, Hnx.
  assert (x ≠ w) as Hne by set_solver.
  destruct (Hg x) as (pre & post & Heq & Hpre & Hrank); [set_solver..|].
  destruct pre as [|w' pre]; cbn in Heq; simplify_eq.
  exists pre, post. split; [done|]. split.
  - intros Hin. apply Hpre. by right.
  - intros y Hy. apply Hrank. by right.
Qed.

Lemma gray_inv_push w below st node new order' :
  gray_inv rank (w :: below) st →
  networkx.find_node G w = Some node →
  (∀ n, n ∈ new → n ∈ networkx.adj node) →
  (∀ n, n ∈ new → n ∉ {[ w ]} ∪ networkx.seen st) →
  gray_inv rank (rev new ++ w :: below)
    {| networkx.seen := {[ w ]} ∪ networkx.seen st;
       networkx.order := order';
       networkx.explored := networkx.explored st |}.
Proof.
  intros Hg Hnode Hadj Hunseen x Hx Hnx. cbn in Hx, Hnx.
  assert (∀ y, y ∈ rev new → rank y < rank w) as Hnewrank.
  { intros y Hy%list_elem_of_In%in_rev%list_elem_of_In.
    apply Hranked. exists node. split; [done|]. by apply Hadj. }
  assert (∀ y, y ∈ rev new → y ∈ new) as Hrev.
  { by intros y Hy%list_elem_of_In%in_rev%list_elem_of_In. }
  destruct (decide (x = w)) as [->|Hne].
  - exists (rev new), below. split; [done|]. split; [|done].
    intros Hin. specialize (Hnewrank _ Hin). lia.
  - destruct (Hg x) as (pre & post & Heq & Hpre & Hrank); [set_solver|done|].
    destruct pre as [|w' pre]; cbn in Heq; simplify_eq.
    exists (rev new ++ w' :: pre), post. split.
    { by rewrite <-app_assoc. }
    split.
    + rewrite elem_of_app. intros [Hin|Hin]; [|done].
      apply Hrev, Hunseen in Hin. set_solver.
    + intros y [Hy|Hy]%elem_of_app; [|by apply Hrank].
      specialize (Hnewrank _ Hy).
      assert (rank w' < rank x) by (apply Hrank; left). lia.
Qed.

Lemma gray_inv_no_back_edge w below st node n :
  gray_inv rank (w :: below) st →
  networkx.find_node G w = Some node →
  n ∈ networkx.adj node →
  n ∉ networkx.explored st →
  n ∈ {[ w ]} ∪ networkx.seen st →
  False.
Proof.
  intros Hg Hnode Hadj Hne Hseen.
  assert (rank n < rank w) as Hlt.
  { apply Hranked. by exists node. }
  destruct (decide (n = w)) as [->|Hnw]; [lia|].
  destruct (Hg n) as (pre & post & Heq & Hpre & Hrank); [set_solver|done|].
  destruct pre as [|w' pre]; cbn in Heq; simplify_eq.
  assert (rank w' < rank n) by (apply Hrank; left). lia.
Qed.

Lemma explore_acyclic budget fringe st :
  gray_inv rank fringe st →
  (∀ e, networkx.explore budget G fringe st = Raise e →
        ∀ m, e ≠ NetworkXUnfeasible m) ∧
  (∀ st', networkx.explore budget G fringe st = Ok st' →
          gray_inv rank [] st').
Proof.
  revert fringe st.
  induction budget as [|budget IH]; intros fringe st Hg.
  - destruct fringe; cbn; split; intros; simplify_eq; done.
  - destruct fringe as [|w below].
    { cbn; split; intros; simplify_eq; done. }
    rewrite explore_step. case_bool_decide as Hw.
    { apply IH. by eapply gray_inv_pop. }
    destruct (networkx.successors G w) as [succs|e1] eqn:Hs; cbn.
    2:{ apply successors_raise in Hs as ->. split; intros; simplify_eq; done. }
    apply successors_ok in Hs as (node & Hnode & <-).
    destruct (networkx.new_nodes _ _ _) as [new|e1] eqn:Hn; cbn.
    2:{ apply new_nodes_raise in Hn as (_ & n & Hadj & Hne & Hseen).
        destruct (gray_inv_no_back_edge _ _ _ _ _ Hg Hnode Hadj Hne Hseen). }
    apply new_nodes_ok in Hn as [Hnew Hunseen].
    destruct new as [|n new].
    + apply IH. by apply gray_inv_explore.
    + apply IH. eapply gray_inv_push; [done..| |done].
      intros y Hy. rewrite Hnew in Hy.
      by apply list_elem_of_filter in Hy as [_ ?].
Qed.

Lemma visit_acyclic budget nbunch st :
  gray_inv rank [] st →
  ∀ e, networkx.visit budget G nbunch st = Raise e →
       ∀ m, e ≠ NetworkXUnfeasible m.
Proof.
  revert st. induction nbunch as [|v rest IH]; intros st Hg e H; cbn in H;
    [done|].
  case_bool_decide as Hv; [by eapply IH|].
  destruct (explore_acyclic budget [v] st (gray_inv_start rank v _ Hg))
    as [Hraise Hok].
  destruct (networkx.explore budget G [v] st) as [st1|e1] eqn:H1; cbn in H.
  - eapply IH; [|done]. by apply Hok.
  - simplify_eq. by apply Hraise.
Qed.

End search_acyclic.

Section search_closed.
Context (G : networkx.DiGraph).
Context (Hclosed : closed G).

Lemma explore_closed budget fringe st e :
  (∀ x, x ∈ fringe → x ∈ networkx.nodes_iter G) →
  networkx.explore budget G fringe st = Raise e →
  ∀ k, e ≠ KeyError k.
Proof.
  revert fringe st.
  induction budget as [|budget IH]; intros fringe st Hnodes H.
  - destruct fringe; cbn in H; simplify_eq. done.
  - destruct fringe as [|w below]; [done|].
    rewrite explore_step in H.
    assert (∀ x, x ∈ below → x ∈ networkx.nodes_iter G) as Hbelow.
    { intros x Hx. apply Hnodes. by right. }
    case_bool_decide as Hw; [by eapply IH|].
    destruct (find_node_is_Some G w) as [node Hnode]; [apply Hnodes; left|].
    unfold networkx.successors in H. rewrite Hnode in H. cbn in H.
    destruct (networkx.new_nodes _ _ _) as [new|e1] eqn:Hn; cbn in H.
    2:{ simplify_eq. apply new_nodes_raise in Hn as [-> _]. done. }
    apply new_nodes_ok in Hn as [Hnew _].
    destruct new as [|n new]; [by eapply IH|].
    eapply IH; [|done].
    intros x [Hx|Hx]%elem_of_app; [|by apply Hnodes].
    apply list_elem_of_In, in_rev, list_elem_of_In in Hx.
    rewrite Hnew in Hx. apply list_elem_of_filter in Hx as [_ Hx].
    apply (Hclosed w). by exists node.
Qed.

Lemma visit_closed budget nbunch st e :
  dfs_inv G st →
  (∀ x, x ∈ nbunch → x ∈ networkx.nodes_iter G) →
  networkx.visit budget G nbunch st = Raise e →
  e = Diverged ∨ ∃ m, e = NetworkXUnfeasible m.
Proof.
  revert st. induction nbunch as [|v rest IH]; intros st Hinv Hnodes H;
    cbn in H; [done|].
  assert (∀ x, x ∈ rest → x ∈ networkx.nodes_iter G) as Hrest.
  { intros x Hx. apply Hnodes. by right. }
  case_bool_decide as Hv; [by eapply IH|].
  destruct (networkx.explore budget G [v] st) as [st1|e1] eqn:H1; cbn in H.
  - eapply IH; [|done..]. by eapply explore_inv.
  - simplify_eq.
    destruct (explore_raise_kind _ _ _ _ _ H1) as [?|[[k ->]|?]]; [by left| |by right].
    exfalso. eapply explore_closed; [|done..].
    intros x ->%list_elem_of_singleton. apply Hnodes. left.
Qed.

End search_closed.

(** On a closed graph without cycles the search succeeds from any
    enumeration of the nodes; the nodes come out once each, every node after
    all its successors in the search order. *)
Lemma visit_sorts (G : networkx.DiGraph) (rank : string → nat) nbunch :
  closed G → ranked G rank →
  (∀ x, x ∈ nbunch ↔ x ∈ networkx.nodes_iter G) →
  ∃ st, networkx.visit (networkx.search_budget G) G nbunch
          networkx.dfs_init = Ok st ∧
        dfs_inv G st ∧
        ∀ x, x ∈ networkx.order st ↔ x ∈ networkx.nodes_iter G.
Proof.
  intros Hclosed Hranked Hnb.
  destruct (networkx.visit _ _ _ _) as [st|e] eqn:Hv.
  - destruct (visit_inv _ _ _ _ _ (dfs_inv_init G) Hv) as (Hinv & _ & Hall).
    exists st. split; [done|]. split; [done|]. intros x. split.
    + intros Hx. apply list_elem_of_split in Hx as (l1 & l2 & Heq).
      destruct (inv_post_order _ _ Hinv _ _ _ Heq) as (node & Hnode & _).
      apply find_node_Some in Hnode as [Hin <-].
      apply list_elem_of_fmap. eauto.
    + intros Hx. by apply (inv_order_explored _ _ Hinv), Hall, Hnb.
  - exfalso.
    destruct (visit_closed G Hclosed _ _ _ _ (dfs_inv_init G)
                ltac:(intros ? ?; by apply Hnb) Hv)
      as [->|[m ->]].
    + by eapply (visit_budget G); [apply dfs_inv_init|..].
    + by eapply (visit_acyclic G rank Hranked); [apply gray_inv_init|..].
Qed.

(** ** Building the graphs *)

Lemma has_node_true G n :
  networkx.has_node G n = true ↔ n ∈ networkx.nodes_iter G.
Proof. unfold networkx.has_node. apply bool_decide_eq_true. Qed.

Lemma has_node_false G n :
  networkx.has_node G n = false ↔ n ∉ networkx.nodes_iter G.
Proof. unfold networkx.has_node. apply bool_decide_eq_false. Qed.

Lemma nodes_iter_app G1 G2 :
  networkx.nodes_iter (G1 ++ G2)
  = networkx.nodes_iter G1 ++ networkx.nodes_iter G2.
Proof. unfold networkx.nodes_iter. apply map_app. Qed.

Lemma add_node_new G n d :
  n ∉ networkx.nodes_iter G →
  networkx.add_node G n d
  = G ++ [ {| networkx.name := n; networkx.parsed_attr := Some d;
              networkx.adj := [] |} ].
Proof.
  induction G as [|x G IH]; cbn; [done|].
  intros [Hne Hn]%not_elem_of_cons.
  rewrite bool_decide_eq_false_2 by done. by rewrite IH.
Qed.

Lemma nodes_iter_add_node G n d :
  networkx.nodes_iter (networkx.add_node G n d)
  = if networkx.has_node G n then networkx.nodes_iter G
    else networkx.nodes_iter G ++ [n].
Proof.
  induction G as [|x G IH]; [done|].
  cbn [networkx.add_node].
  destruct (decide (networkx.name x = n)) as [Hx|Hx].
  - rewrite bool_decide_eq_true_2 by done.
    assert (networkx.has_node (x :: G) n = true) as ->; [|done].
    apply has_node_true. rewrite <-Hx. left.
  - rewrite bool_decide_eq_false_2 by done.
    change (networkx.nodes_iter (x :: networkx.add_node G n d))
      with (networkx.name x :: networkx.nodes_iter (networkx.add_node G n d)).
    rewrite IH. destruct (networkx.has_node G n) eqn:Hn.
    + assert (networkx.has_node (x :: G) n = true) as ->; [|done].
      apply has_node_true. right. by apply has_node_true.
    + assert (networkx.has_node (x :: G) n = false) as ->; [|done].
      apply has_node_false. apply has_node_false in Hn.
      intros [->|?]%elem_of_cons; done.
Qed.

Lemma nodes_iter_ensure_node G n :
  networkx.nodes_iter (networkx.ensure_node G n)
  = if networkx.has_node G n then networkx.nodes_iter G
    else networkx.nodes_iter G ++ [n].
Proof.
  unfold networkx.ensure_node. destruct (networkx.has_node G n); [done|].
  by rewrite nodes_iter_app.
Qed.

Lemma nodes_iter_add_succ G u v :
  networkx.nodes_iter (networkx.add_succ G u v) = networkx.nodes_iter G.
Proof.
  induction G as [|x G IH]; cbn; [done|].
  destruct (bool_decide (networkx.name x = u)); cbn; [done|].
  f_equal. apply IH.
Qed.

Lemma elem_of_nodes_iter_add_edge G u v x :
  x ∈ networkx.nodes_iter G → x ∈ networkx.nodes_iter (networkx.add_edge G u v).
Proof.
  intros Hx. unfold networkx.add_edge.
  rewrite nodes_iter_add_succ, !nodes_iter_ensure_node.
  repeat match goal with
         | |- context [if ?b then _ else _] => destruct b
         end; rewrite ?elem_of_app; auto.
Qed.

Lemma elem_of_nodes_iter_add_node G n d x :
  x ∈ networkx.nodes_iter (networkx.add_node G n d)
  ↔ x ∈ networkx.nodes_iter G ∨ x = n.
Proof.
  rewrite nodes_iter_add_node.
  destruct (networkx.has_node G n) eqn:Hn.
  - apply has_node_true in Hn. split; [auto|]. by intros [?| ->].
  - by rewrite elem_of_app, list_elem_of_singleton.
Qed.

Lemma find_node_app G x n :
  networkx.find_node (G ++ [x]) n
  = match networkx.find_node G n with
    | Some y => Some y
    | None => if bool_decide (networkx.name x = n) then Some x else None
    end.
Proof.
  induction G as [|y G IH]; cbn; [done|].
  by destruct (bool_decide (networkx.name y = n)).
Qed.

Lemma find_node_None G n :
  networkx.find_node G n = None ↔ n ∉ networkx.nodes_iter G.
Proof.
  induction G as [|y G IH]; cbn.
  - split; [intros _ ?%elem_of_nil; done|done].
  - destruct (decide (networkx.name y = n)) as [Hy|Hy].
    + rewrite bool_decide_eq_true_2 by done.
      split; [done|]. intros H. destruct H. rewrite <-Hy. left.
    + rewrite bool_decide_eq_false_2 by done.
      rewrite IH, not_elem_of_cons. naive_solver.
Qed.

Lemma add_succ_last G x v :
  networkx.name x ∉ networkx.nodes_iter G →
  networkx.add_succ (G ++ [x]) (networkx.name x) v
  = G ++ [ {| networkx.name := networkx.name x;
              networkx.parsed_attr := networkx.parsed_attr x;
              networkx.adj := if bool_decide (v ∈ networkx.adj x)
                              then networkx.adj x
                              else networkx.adj x ++ [v] |} ].
Proof.
  induction G as [|y G IH]; cbn.
  - intros _. by rewrite bool_decide_eq_true_2.
  - intros [Hne Hn]%not_elem_of_cons.
    rewrite bool_decide_eq_false_2 by done. by rewrite IH.
Qed.

(** A known key keeps the document it was first registered with. *)
Lemma find_node_add_succ G u v n :
  networkx.parsed_attr <$> networkx.find_node (networkx.add_succ G u v) n
  = networkx.parsed_attr <$> networkx.find_node G n.
Proof.
  induction G as [|y G IH]; cbn; [done|].
  destruct (bool_decide (networkx.name y = u)); cbn;
    by destruct (bool_decide (networkx.name y = n)).
Qed.

Lemma find_node_ensure_node G m n :
  n ∈ networkx.nodes_iter G →
  networkx.find_node (networkx.ensure_node G m) n = networkx.find_node G n.
Proof.
  intros Hn. unfold networkx.ensure_node.
  destruct (networkx.has_node G m); [done|].
  rewrite find_node_app.
  destruct (networkx.find_node G n) eqn:Hf; [done|].
  by apply find_node_None in Hf.
Qed.

Lemma node_parsed_add_edge G u v n :
  n ∈ networkx.nodes_iter G →
  networkx.node_parsed (networkx.add_edge G u v) n = networkx.node_parsed G n.
Proof.
  intros Hn. unfold networkx.node_parsed, networkx.add_edge.
  pose proof (find_node_add_succ
                (networkx.ensure_node (networkx.ensure_node G u) v) u v n) as H.
  rewrite find_node_ensure_node, find_node_ensure_node in H; [|done|].
  - destruct (networkx.find_node (networkx.add_succ _ _ _) n) as [x|],
      (networkx.find_node G n) as [y|]; cbn in H; simplify_eq; [|done].
    by rewrite H.
  - rewrite nodes_iter_ensure_node.
    destruct (networkx.has_node G u); [done|]. rewrite elem_of_app. by left.
Qed.

(** *** The tree of first discoveries *)

Lemma discovery_tree_nodes G docs :
  discovery_tree G docs → networkx.nodes_iter G = docs.*1.
Proof.
  induction 1 as [k d|G docs k d via _ IH Hk Hvia]; [done|].
  by rewrite nodes_iter_app, fmap_app, IH.
Qed.

Lemma discovery_tree_NoDup G docs : discovery_tree G docs → NoDup docs.*1.
Proof.
  induction 1 as [k d|G docs k d via _ IH Hk Hvia].
  - apply NoDup_singleton.
  - rewrite fmap_app. apply NoDup_app. split; [done|]. split.
    + by intros x Hx ->%list_elem_of_singleton.
    + apply NoDup_singleton.
Qed.

Lemma discovery_tree_find G docs k node :
  discovery_tree G docs →
  networkx.find_node G k = Some node →
  (∃ d, networkx.parsed_attr node = Some d ∧ (k, d) ∈ docs) ∧
  (∀ v, v ∈ networkx.adj node → v ∈ docs.*1).
Proof.
  induction 1 as [k0 d0|G docs k0 d0 via HG IH Hk Hvia].
  - cbn. case_bool_decide; [|done]. intros [= <-]. cbn. subst. split.
    + exists d0. split; [done|]. left.
    + by intros v ?%elem_of_nil.
  - rewrite find_node_app.
    destruct (networkx.find_node G k) as [y|] eqn:Hf.
    + intros [= <-]. destruct (IH eq_refl) as [(d & Hd & Hin) Hadj]. split.
      * exists d. split; [done|]. rewrite elem_of_app. by left.
      * intros v Hv. rewrite fmap_app, elem_of_app. left. by apply Hadj.
    + cbn. case_bool_decide; [|done]. intros [= <-]. cbn. subst. split.
      * exists d0. split; [done|]. rewrite elem_of_app. right. left.
      * intros v ->%list_elem_of_singleton.
        rewrite fmap_app, elem_of_app. by left.
Qed.

Lemma discovery_tree_closed G docs : discovery_tree G docs → closed G.
Proof.
  intros HG x n (node & Hnode & Hn).
  rewrite (discovery_tree_nodes _ _ HG).
  by apply (discovery_tree_find _ _ _ _ HG Hnode).
Qed.

Lemma discovery_tree_ranked G docs :
  discovery_tree G docs → ∃ rank, ranked G rank.
Proof.
  induction 1 as [k d|G docs k d via HG [rank Hrank] Hk Hvia].
  - exists (fun _ => 0). intros x n (node & Hnode & Hn). cbn in Hnode.
    case_bool_decide; [|done]. simplify_eq. by apply elem_of_nil in Hn.
  - exists (fun y => if bool_decide (y = k) then S (rank via) else rank y).
    intros x n (node & Hnode & Hn). rewrite find_node_app in Hnode.
    destruct (networkx.find_node G x) as [y|] eqn:Hf.
    + simplify_eq.
      assert (x ∈ docs.*1) as Hx.
      { rewrite <-(discovery_tree_nodes _ _ HG).
        destruct (decide (x ∈ networkx.nodes_iter G)) as [?|Hnot]; [done|].
        apply find_node_None in Hnot. congruence. }
      assert (n ∈ docs.*1) as Hn'
        by by apply (discovery_tree_find _ _ _ _ HG Hf).
      rewrite !bool_decide_eq_false_2 by (intros ->; done).
      apply Hrank. by exists node.
    + cbn in Hnode. case_bool_decide; [|done]. simplify_eq. cbn in Hn.
      apply list_elem_of_singleton in Hn as ->.
      rewrite bool_decide_eq_false_2 by (intros ->; done).
      rewrite bool_decide_eq_true_2 by done. lia.
Qed.

(** Every document but the root has an edge to the document it was first
    imported from. *)
Lemma discovery_tree_parent G docs k :
  discovery_tree G docs → k ∈ docs.*1 →
  head docs.*1 = Some k ∨ ∃ via, networkx.has_edge G k via.
Proof.
  induction 1 as [k0 d0|G docs k0 d0 via HG IH Hk Hvia].
  - intros ->%list_elem_of_singleton. by left.
  - rewrite fmap_app, elem_of_app. intros [Hin|Hin].
    + destruct (IH Hin) as [Hhead|(v & node & Hnode & Hv)].
      * left. destruct docs; [done|]. done.
      * right. exists v, node. split; [|done].
        by rewrite find_node_app, Hnode.
    + apply list_elem_of_singleton in Hin. cbn in Hin. subst k. right.
      exists via. eexists. split.
      * rewrite find_node_app.
        assert (networkx.find_node G k0 = None) as ->.
        { apply find_node_None. by rewrite (discovery_tree_nodes _ _ HG). }
        cbn. by rewrite bool_decide_eq_true_2.
      * cbn. left.
Qed.

Lemma truthy_Some s : truthy (Some s) = true ↔ s ≠ "".
Proof.
  cbn. destruct (decide (s = "")) as [->|Hne].
  - by rewrite bool_decide_eq_true_2.
  - by rewrite bool_decide_eq_false_2.
Qed.

Lemma add_known g k d :
  ImportsGraph.contains g k = true → ImportsGraph.add g k d None = g.
Proof.
  unfold ImportsGraph.contains, ImportsGraph.add. by intros ->.
Qed.

Lemma add_new_tree g k d via :
  ImportsGraph.contains g k = false →
  ImportsGraph.contains g via = true →
  via ≠ "" →
  ImportsGraph._imports_tree (ImportsGraph.add g k d (Some via))
  = ImportsGraph._imports_tree g
    ++ [ {| networkx.name := k; networkx.parsed_attr := Some d;
            networkx.adj := [via] |} ].
Proof.
  unfold ImportsGraph.contains. intros Hk Hvia Hne.
  unfold ImportsGraph.add. rewrite Hk. cbn [negb].
  rewrite (proj2 (truthy_Some via) Hne). cbn [ImportsGraph._imports_tree].
  apply has_node_false in Hk. apply has_node_true in Hvia.
  rewrite (add_node_new _ _ _ Hk).
  set (new0 := {| networkx.name := k; networkx.parsed_attr := Some d;
                  networkx.adj := [] |}).
  set (X := ImportsGraph._imports_tree g ++ [new0]).
  assert (networkx.has_node X k = true) as HXk.
  { apply has_node_true. unfold X. rewrite nodes_iter_app, elem_of_app.
    right. left. }
  assert (networkx.has_node X via = true) as HXvia.
  { apply has_node_true. unfold X. rewrite nodes_iter_app, elem_of_app.
    by left. }
  unfold networkx.add_edge, networkx.ensure_node. rewrite HXk, HXvia.
  unfold X.
  rewrite (add_succ_last _ new0 via Hk
             : networkx.add_succ (ImportsGraph._imports_tree g ++ [new0]) k via
               = _).
  cbn [new0 networkx.name networkx.parsed_attr networkx.adj].
  rewrite bool_decide_eq_false_2 by apply not_elem_of_nil. done.
Qed.

Lemma add_graph_dependency_tree g k via :
  ImportsGraph._imports_tree (ImportsGraph.add_graph_dependency g k via)
  = ImportsGraph._imports_tree g.
Proof.
  unfold ImportsGraph.add_graph_dependency.
  destruct via as [v|]; [|done]. by destruct (truthy (Some v)).
Qed.

Lemma registered_tree g docs :
  registered g docs → discovery_tree (ImportsGraph._imports_tree g) docs.
Proof.
  induction 1 as [k d|g docs k d via Hreg IH Hk Hvia Hne
                  |g docs k d Hreg IH Hk|g docs k via Hreg IH].
  - cbn. constructor.
  - rewrite add_new_tree by done.
    unfold ImportsGraph.contains in Hk, Hvia.
    apply has_node_false in Hk. apply has_node_true in Hvia.
    rewrite (discovery_tree_nodes _ _ IH) in Hk, Hvia.
    by constructor.
  - by rewrite add_known.
  - by rewrite add_graph_dependency_tree.
Qed.

(** ** Orders *)

Lemma precedes_split {A} (l1 l2 : list A) (a b : A) :
  a ∈ l1 → precedes (l1 ++ b :: l2) a b.
Proof.
  intros [i Hi]%list_elem_of_lookup.
  exists i, (length l1). split; [|split].
  - rewrite lookup_app_l; [done|]. by eapply lookup_lt_Some.
  - by rewrite list_lookup_middle.
  - by eapply lookup_lt_Some.
Qed.

Lemma precedes_trans {A} (l : list A) (a b c : A) :
  NoDup l → precedes l a b → precedes l b c → precedes l a c.
Proof.
  intros Hnd (i & j & Hi & Hj & Hij) (j' & k & Hj' & Hk & Hjk).
  assert (j = j') as <- by by eapply NoDup_lookup.
  exists i, k. split; [done|]. split; [done|]. lia.
Qed.

Lemma precedes_irrefl {A} (l : list A) (a : A) :
  NoDup l → ¬ precedes l a a.
Proof.
  intros Hnd (i & j & Hi & Hj & Hij).
  assert (i = j) by by eapply NoDup_lookup. lia.
Qed.

Lemma rev_lookup {A} (l : list A) i :
  i < length l → rev l !! i = l !! (length l - S i).
Proof.
  intros Hi. rewrite <-(reverse_lookup l i Hi). f_equal.
  unfold reverse. by rewrite rev_append_rev, app_nil_r.
Qed.

Lemma precedes_rev {A} (l : list A) (a b : A) :
  precedes l a b → precedes (rev l) b a.
Proof.
  intros (i & j & Hi & Hj & Hij).
  pose proof (lookup_lt_Some _ _ _ Hi) as Hli.
  pose proof (lookup_lt_Some _ _ _ Hj) as Hlj.
  exists (length l - S j), (length l - S i). split; [|split; [|lia]].
  - rewrite rev_lookup by lia. rewrite <-Hj. f_equal. lia.
  - rewrite rev_lookup by lia. rewrite <-Hi. f_equal. lia.
Qed.

Lemma precedes_first {A} (l : list A) (a : A) :
  NoDup l → l ≠ [] →
  (∀ x, x ∈ l → x = a ∨ ∃ y, precedes l y x) → head l = Some a.
Proof.
  destruct l as [|x l]; [done|]. intros Hnd _ H. cbn.
  destruct (H x) as [->|(y & i & j & Hi & Hj & Hij)]; [left|done|].
  assert (j = 0) by by eapply NoDup_lookup. lia.
Qed.

Lemma NoDup_fst_unique {A B} (l : list (A * B)) k d1 d2 :
  NoDup l.*1 → (k, d1) ∈ l → (k, d2) ∈ l → d1 = d2.
Proof.
  intros Hnd [i Hi]%list_elem_of_lookup [j Hj]%list_elem_of_lookup.
  assert (i = j).
  { eapply (NoDup_lookup _ _ _ k Hnd); rewrite list_lookup_fmap.
    - by rewrite Hi.
    - by rewrite Hj. }
  congruence.
Qed.

(** ** The ordering operation of the imports graph *)

Lemma entries_ok (G : networkx.DiGraph) (l : list string)
    (acc : list ImportsGraph.entry) :
  (∀ n, n ∈ l → ∃ d, networkx.node_parsed G n = Ok d) →
  ∃ entries,
    for_each (fun acc node =>
                result_bind (networkx.node_parsed G node) (fun p =>
                  Ok (acc ++ [ {| ImportsGraph.import := node;
                                  ImportsGraph.parsed := p |} ])))
             l acc
    = Ok (acc ++ entries) ∧
    map ImportsGraph.import entries = l ∧
    ∀ e, e ∈ entries →
         networkx.node_parsed G (ImportsGraph.import e)
         = Ok (ImportsGraph.parsed e).
Proof.
  revert acc. induction l as [|n l IH]; intros acc H.
  - exists []. cbn. rewrite app_nil_r. split; [done|]. split; [done|].
    by intros e ?%elem_of_nil.
  - destruct (H n) as [d Hd]; [left|].
    destruct (IH (acc ++ [ {| ImportsGraph.import := n;
                              ImportsGraph.parsed := d |} ]))
      as (entries & Heq & Hmap & Hall).
    { intros m Hm. apply H. by right. }
    exists ({| ImportsGraph.import := n; ImportsGraph.parsed := d |} :: entries).
    cbn [for_each]. rewrite Hd. cbn [result_bind]. rewrite Heq.
    split; [by rewrite <-app_assoc|]. split; [cbn; by rewrite Hmap|].
    intros e [->|He]%elem_of_cons; [done|by apply Hall].
Qed.

Lemma discovery_tree_node_parsed G docs n :
  discovery_tree G docs → n ∈ docs.*1 →
  ∃ d, networkx.node_parsed G n = Ok d ∧ (n, d) ∈ docs.
Proof.
  intros HG Hn. rewrite <-(discovery_tree_nodes _ _ HG) in Hn.
  destruct (find_node_is_Some _ _ Hn) as [node Hnode].
  destruct (discovery_tree_find _ _ _ _ HG Hnode) as [(d & Hd & Hin) _].
  exists d. split; [|done]. unfold networkx.node_parsed. by rewrite Hnode, Hd.
Qed.

Lemma node_parsed_in_docs G docs n d :
  discovery_tree G docs → networkx.node_parsed G n = Ok d → (n, d) ∈ docs.
Proof.
  intros HG. unfold networkx.node_parsed.
  destruct (networkx.find_node G n) as [node|] eqn:Hnode; [|done].
  destruct (discovery_tree_find _ _ _ _ HG Hnode) as [(d' & Hd & Hin) _].
  rewrite Hd. by intros [= <-].
Qed.

(** The search order on a tree of first discoveries, from any enumeration of
    its nodes: every registered location once, the root first, every
    location after the one it was first imported from. *)
Lemma discovery_tree_search G docs nbunch :
  discovery_tree G docs →
  (∀ x, x ∈ nbunch ↔ x ∈ networkx.nodes_iter G) →
  ∃ st,
    networkx.visit (networkx.search_budget G) G nbunch networkx.dfs_init
      = Ok st ∧
    NoDup (networkx.order st) ∧
    (∀ x, x ∈ networkx.order st ↔ x ∈ docs.*1) ∧
    head (networkx.order st) = head docs.*1 ∧
    (∀ k via, networkx.has_edge G k via →
              precedes (networkx.order st) via k) ∧
    (∀ k via, tc (networkx.has_edge G) k via →
              precedes (networkx.order st) via k).
Proof.
  intros HG Hnb.
  destruct (discovery_tree_ranked _ _ HG) as [rank Hrank].
  destruct (visit_sorts G rank nbunch (discovery_tree_closed _ _ HG) Hrank Hnb)
    as (st & Hv & Hinv & Hnodes).
  rewrite (discovery_tree_nodes _ _ HG) in Hnodes.
  pose proof (inv_order_nodup _ _ Hinv) as Hnd.
  assert (∀ k via, networkx.has_edge G k via →
                   precedes (networkx.order st) via k) as Hedge.
  { intros k via (node & Hnode & Hvia).
    assert (k ∈ networkx.order st) as Hk.
    { apply Hnodes. rewrite <-(discovery_tree_nodes _ _ HG).
      apply find_node_Some in Hnode as [Hin <-].
      apply list_elem_of_fmap. eauto. }
    apply list_elem_of_split in Hk as (l1 & l2 & Heq).
    destruct (inv_post_order _ _ Hinv _ _ _ Heq) as (node' & Hnode' & Hadj).
    rewrite Heq. apply precedes_split. apply Hadj. congruence. }
  exists st. split; [done|]. split; [done|]. split; [done|].
  split; [|split; [done|]].
  - assert (∃ root, head docs.*1 = Some root) as [root Hroot].
    { clear -HG. induction HG as [k d|G docs k d via _ [root IH] _ _].
      - by exists k.
      - exists root. rewrite fmap_app. by destruct (docs.*1). }
    rewrite Hroot. apply precedes_first; [done| |].
    + intros Hnil. assert (root ∈ networkx.order st) as Hin.
      { apply Hnodes. by apply head_Some_elem_of. }
      rewrite Hnil in Hin. by apply elem_of_nil in Hin.
    + intros x Hx%Hnodes.
      destruct (discovery_tree_parent _ _ x HG Hx) as [Hhead|[via Hvia]].
      * left. congruence.
      * right. exists via. by apply Hedge.
  - intros k via Htc. induction Htc as [k via H|k y via H _ IH].
    + by apply Hedge.
    + eapply precedes_trans; [done|exact IH|by apply Hedge].
Qed.

Lemma topological_sort_of_visit G nbunch st :
  networkx.visit (networkx.search_budget G) G nbunch networkx.dfs_init = Ok st →
  networkx.topological_sort G (Some nbunch) = Ok (rev (networkx.order st)).
Proof. unfold networkx.topological_sort. cbn. by intros ->. Qed.

(** The ordering of a registered imports graph: every registered document
    once, importers before what they import along the tree of first
    discoveries. *)
Lemma registered_ordering
    (g : ImportsGraph.t) (docs : list (string * Document)) :
  registered g docs →
  ∃ entries,
    ImportsGraph.topological_sort g = Ok entries ∧
    map (fun e => (ImportsGraph.import e, ImportsGraph.parsed e)) entries
      ≡ₚ docs ∧
    head (map ImportsGraph.import entries) = head docs.*1 ∧
    (∀ k via,
       tc (networkx.has_edge (ImportsGraph._imports_tree g)) k via →
       precedes (map ImportsGraph.import entries) via k).
Proof.
  intros Hreg. pose proof (registered_tree _ _ Hreg) as HG.
  set (G := ImportsGraph._imports_tree g) in *.
  pose proof (discovery_tree_NoDup _ _ HG) as Hdocs.
  destruct (discovery_tree_search G docs (networkx.nodes_iter G) HG
              ltac:(done)) as (st & Hv & Hnd & Hnodes & Hhead & _ & Htc).
  destruct (entries_ok G (networkx.order st) []) as (entries & He & Hmap & Hall).
  { intros n Hn%Hnodes.
    destruct (discovery_tree_node_parsed _ _ _ HG Hn) as (d & Hd & _). eauto. }
  exists entries. split; [|split; [|split]].
  - unfold ImportsGraph.topological_sort. fold G.
    unfold networkx.topological_sort. cbn [default]. rewrite Hv.
    cbn [result_bind]. by rewrite rev_involutive.
  - apply NoDup_Permutation.
    + apply (NoDup_fmap_1 fst). rewrite <-list_fmap_compose.
      change (NoDup (map ImportsGraph.import entries)). by rewrite Hmap.
    + by apply (NoDup_fmap_1 fst).
    + intros [k d]. split.
      * intros (e & [= -> ->] & Hin)%list_elem_of_fmap.
        eapply node_parsed_in_docs; [done|]. by apply Hall.
      * intros Hin.
        assert (k ∈ map ImportsGraph.import entries) as Hk.
        { rewrite Hmap. apply Hnodes. apply list_elem_of_fmap.
          by exists (k, d). }
        apply list_elem_of_fmap in Hk as (e & -> & He').
        apply list_elem_of_fmap. exists e. split; [|done]. f_equal.
        eapply NoDup_fst_unique; [done..|].
        eapply node_parsed_in_docs; [done|]. by apply Hall.
  - by rewrite Hmap.
  - rewrite Hmap. exact Htc.
Qed.

(** ** The discovery of the imports *)

Lemma contains_add g k d via u :
  ImportsGraph.contains g u = true →
  ImportsGraph.contains (ImportsGraph.add g k d via) u = true.
Proof.
  unfold ImportsGraph.contains. rewrite !has_node_true. intros Hu.
  unfold ImportsGraph.add.
  set (self1 := if negb _ then _ else g).
  assert (u ∈ networkx.nodes_iter (ImportsGraph._imports_tree self1)) as H1.
  { unfold self1. destruct (negb _); [|done]. cbn.
    apply elem_of_nodes_iter_add_node. by left. }
  destruct via as [v|]; [|done]. destruct (truthy (Some v)); [|done].
  cbn. by apply elem_of_nodes_iter_add_edge.
Qed.

Lemma contains_add_self g k d via :
  ImportsGraph.contains (ImportsGraph.add g k d via) k = true.
Proof.
  unfold ImportsGraph.contains. rewrite has_node_true.
  unfold ImportsGraph.add.
  set (self1 := if negb _ then _ else g).
  assert (k ∈ networkx.nodes_iter (ImportsGraph._imports_tree self1)) as H1.
  { unfold self1.
    destruct (networkx.has_node (ImportsGraph._imports_tree g) k) eqn:Hk; cbn.
    - by apply has_node_true.
    - apply elem_of_nodes_iter_add_node. by right. }
  destruct via as [v|]; [|done]. destruct (truthy (Some v)); [|done].
  cbn. by apply elem_of_nodes_iter_add_edge.
Qed.

Lemma contains_add_graph_dependency g k via u :
  ImportsGraph.contains (ImportsGraph.add_graph_dependency g k via) u
  = ImportsGraph.contains g u.
Proof.
  unfold ImportsGraph.contains. by rewrite add_graph_dependency_tree.
Qed.

Lemma location_nonempty value : ImportsLoader.location value ≠ "".
Proof.
  unfold ImportsLoader.location. destruct value as [s|]; [|done].
  destruct (truthy (Some s)) eqn:Hs; [|done]. by apply truthy_Some.
Qed.

Lemma location_Some s : s ≠ "" → ImportsLoader.location (Some s) = s.
Proof.
  intros Hs. unfold ImportsLoader.location.
  by rewrite (proj2 (truthy_Some s) Hs).
Qed.

Lemma loader_inv_err env root K e s :
  is_discovery_exception e = true →
  loader_inv env root K s → loader_err env root e s.
Proof.
  intros He (Hnd & Hl & _ & Hreg). split; [done|]. split; [done|].
  split; [by rewrite Hl|]. intros Hne. by destruct (Hreg Hne).
Qed.

Lemma loader_inv_weaken env root K K' s :
  (∀ c, c ∈ K → c ∈ K') → loader_inv env root K' s → loader_inv env root K s.
Proof.
  intros Hsub (Hnd & Hl & Hf & Hreg). split; [done|]. split; [done|].
  split; [done|]. intros Hne. destruct (Hreg Hne) as [Hr HK].
  split; [done|]. intros c Hc. by apply HK, Hsub.
Qed.

Lemma triple_for {A} (P : loader_state → Prop) E (items : list A)
    (body : A → M unit) :
  (∀ x, x ∈ items → triple P (body x) (fun _ => P) E) →
  triple P (for_ items body) (fun _ => P) E.
Proof.
  induction items as [|x items IH]; intros Hbody s Hs; cbn; [done|].
  unfold bind. specialize (Hbody x ltac:(left) s Hs) as Hx.
  destruct (body x s) as [[[]|e] s1]; [|done].
  apply IH; [|done]. intros y Hy. apply Hbody. by right.
Qed.

Section discovery.
Context (env : Environment) (resources_base_url : option string)
        (resolver : Resolver) (root : string * Document).

Lemma build_recursive_triple depth K current current_import :
  (resolves_nonempty env → ImportsLoader.location current_import ∈ K) →
  triple (loader_inv env root K)
    (ImportsLoader._build_ordered_imports_recursive depth env
       resources_base_url resolver current current_import)
    (fun _ => loader_inv env root K) (loader_err env root).
Proof.
  revert K current current_import.
  induction depth as [|depth IH]; intros K current current_import Hcur.
  { intros s Hs. cbn. eapply loader_inv_err; [done|exact Hs]. }
  cbn [ImportsLoader._build_ordered_imports_recursive].
  destruct (get_item constants.IMPORTS current).2 as [h|]; [|by intros s Hs].
  apply triple_for. intros item _ s Hs.
  destruct item as [another_import| |];
    [|cbn; eapply loader_inv_err; [done|exact Hs]..].
  destruct (ImportsLoader._get_resource_location env another_import
              resources_base_url) as [import_url|] eqn:Hloc.
  2:{ cbn. eapply loader_inv_err; [done|exact Hs]. }
  unfold bind at 1, get_graph.
  destruct (ImportsGraph.contains (imports_graph s) import_url) eqn:Hknown.
  { (* a location met again: only a dependency of the full graph *)
    unfold modify_graph. cbv beta iota.
    destruct Hs as (Hnd & Hl & Hf & Hreg).
    split; [done|]. split; [done|]. cbn [imports_graph fetched loaded]. split.
    - intros u Hu. rewrite contains_add_graph_dependency. by apply Hf.
    - intros Hne. destruct (Hreg Hne) as [(docs & Hdocs & Hhead) HK]. split.
      + exists docs. split; [by constructor|done].
      + intros c Hc. rewrite contains_add_graph_dependency. by apply HK. }
  (* a location met for the first time *)
  destruct Hs as (Hnd & Hl & Hf & Hreg).
  assert (import_url ∉ fetched s) as Hfresh.
  { intros Hin. apply Hf in Hin. congruence. }
  assert (NoDup (fetched s ++ [import_url])) as Hnd'.
  { apply NoDup_app. split; [done|]. split; [|apply NoDup_singleton].
    by intros x Hx ->%list_elem_of_singleton. }
  unfold bind at 1, ImportsLoader.fetch.
  destruct (resolver import_url) as [raw|].
  2:{ split; [done|]. split; [done|]. cbn. split.
      - rewrite Hl. by apply prefix_app_r.
      - intros Hne. by destruct (Hreg Hne). }
  unfold bind at 1, ImportsLoader.load. cbn [imports_graph fetched loaded].
  destruct (yaml_load env raw another_import) as [holder|].
  2:{ split; [done|]. split; [done|]. cbn. split.
      - by rewrite Hl.
      - intros Hne. by destruct (Hreg Hne). }
  unfold bind at 1, modify_graph. cbn [imports_graph fetched loaded].
  match goal with
  | |- context [ImportsLoader._build_ordered_imports_recursive _ _ _ _ _ _ ?s1] =>
      assert (loader_inv env root (import_url :: K) s1) as Hs1
  end.
  { split; [done|]. cbn [imports_graph fetched loaded].
    split; [by rewrite Hl|]. split.
    - intros u [Hu|Hu]%elem_of_app.
      + by apply contains_add, Hf.
      + apply list_elem_of_singleton in Hu as ->. apply contains_add_self.
    - intros Hne. destruct (Hreg Hne) as [(docs & Hdocs & Hhead) HK]. split.
      + exists (docs ++ [(import_url, holder)]). split.
        * constructor; [done..| |apply location_nonempty].
          apply HK. by apply Hcur.
        * by destruct docs.
      + intros c [->|Hc]%elem_of_cons; [apply contains_add_self|].
        by apply contains_add, HK. }
  pose proof (IH (import_url :: K) holder (Some import_url)
                ltac:(intros Hne; rewrite location_Some;
                      [left|by eapply Hne]) _ Hs1) as Hrec.
  destruct (ImportsLoader._build_ordered_imports_recursive _ _ _ _ _ _ _)
    as [[[]|e] s']; [|done].
  eapply (loader_inv_weaken _ _ K (import_url :: K)); [by right|done].
Qed.

End discovery.

(** The outcome of one pass. *)
Lemma build_ordered_imports_outcome depth env parsed_dsl_holder dsl_location
    resources_base_url resolver :
  let pass := ImportsLoader._build_ordered_imports depth env parsed_dsl_holder
                dsl_location resources_base_url resolver in
  NoDup (fetched pass.2) ∧
  loaded pass.2 `prefix_of` fetched pass.2 ∧
  (resolves_nonempty env →
     (∀ e, pass.1 = Raise e → is_discovery_exception e = true) ∧
     ∃ docs,
       registered (imports_graph pass.2) docs ∧
       head docs = Some (ImportsLoader.location dsl_location, parsed_dsl_holder) ∧
       ∀ entries, pass.1 = Ok entries →
         ImportsGraph.topological_sort (imports_graph pass.2) = Ok entries).
Proof.
  intros pass.
  set (root := (ImportsLoader.location dsl_location, parsed_dsl_holder)).
  set (s1 := {| imports_graph :=
                  ImportsGraph.add ImportsGraph.init
                    (ImportsLoader.location dsl_location) parsed_dsl_holder None;
                fetched := []; loaded := [] |}).
  assert (pass =
          let (r, s') :=
            ImportsLoader._build_ordered_imports_recursive depth env
              resources_base_url resolver parsed_dsl_holder dsl_location s1 in
          match r with
          | Ok _ => (ImportsGraph.topological_sort (imports_graph s'), s')
          | Raise e => (Raise e, s')
          end) as Hpass by reflexivity.
  clearbody pass.
  assert (loader_inv env root [ImportsLoader.location dsl_location] s1)
    as Hs1.
  { split; [apply NoDup_nil_2|]. split; [done|]. split.
    - by intros u ?%elem_of_nil.
    - intros _. split.
      + exists [root]. split; [constructor|done].
      + intros c ->%list_elem_of_singleton. apply contains_add_self. }
  pose proof (build_recursive_triple env resources_base_url resolver root depth
                [ImportsLoader.location dsl_location] parsed_dsl_holder
                dsl_location ltac:(intros _; left) _ Hs1) as Hrec.
  destruct (ImportsLoader._build_ordered_imports_recursive _ _ _ _ _ _ _)
    as [[[]|e] s']; subst pass; cbn [fst snd].
  - destruct Hrec as (Hnd & Hl & Hf & Hreg).
    split; [done|]. split; [by rewrite Hl|]. intros Hne.
    destruct (Hreg Hne) as [(docs & Hdocs & Hhead) _].
    destruct (registered_ordering _ _ Hdocs) as (entries & He & _).
    split.
    + intros e. rewrite He. discriminate.
    + exists docs. split; [done|]. split; [done|]. by intros entries' ->.
  - destruct Hrec as (He & Hnd & Hl & Hreg).
    split; [done|]. split; [done|]. intros Hne.
    destruct (Hreg Hne) as (docs & Hdocs & Hhead). split.
    + by intros e' [= <-].
    + exists docs. split; [done|]. split; [done|]. discriminate.
Qed.

Lemma table_env_resolves_nonempty files : resolves_nonempty (table_env files).
Proof.
  intros resource_name resources_base_url import_url.
  unfold ImportsLoader._get_resource_location. cbn [table_env os_path_exists
    os_path_abspath os_path_join].
  case_bool_decide as Hscheme.
  - intros [= <-] ->. vm_compute in Hscheme.
    repeat (apply elem_of_cons in Hscheme as [?|Hscheme]; [done|]).
    by apply elem_of_nil in Hscheme.
  - destruct resources_base_url as [base|]; [|done].
    destruct (truthy (Some base)) eqn:Hbase; [|done].
    apply truthy_Some in Hbase. intros [= <-].
    destruct base as [|a base]; [done|]. discriminate.
Qed.

(** The entry that comes last has nothing after it. *)
Lemma precedes_not_last {A} (l : list A) (a b : A) :
  NoDup l → precedes l a b → last l ≠ Some a.
Proof.
  intros Hnd (i & j & Hi & Hj & Hij) Hlast.
  rewrite last_lookup in Hlast.
  assert (i = pred (length l)) as -> by by eapply NoDup_lookup.
  apply lookup_lt_Some in Hj. lia.
Qed.

(** What a pass returns is the ordering of the graph it built. *)
Lemma pass_is_ordering depth env parsed_dsl_holder dsl_location
    resources_base_url resolver entries :
  let pass := ImportsLoader._build_ordered_imports depth env parsed_dsl_holder
                dsl_location resources_base_url resolver in
  pass.1 = Ok entries →
  ImportsGraph.topological_sort (imports_graph pass.2) = Ok entries.
Proof.
  intros pass. subst pass.
  unfold ImportsLoader._build_ordered_imports,
    ImportsLoader._build_ordered_imports_M, bind, modify_graph, get_graph, lift.
  cbn [fst snd].
  destruct (ImportsLoader._build_ordered_imports_recursive _ _ _ _ _ _ _)
    as [[[]|e] s']; cbn [fst snd]; [done|discriminate].
Qed.

(** C2, as the code has it.  For every imports graph the loader registers,
    the ordering operation returns every registered document once, with the
    document it was registered with, in an order where every document comes
    before all the documents it transitively imports along the tree of first
    discoveries: the root comes first, and the entry that comes last is a
    document from which nothing was discovered.  The depth of an import does
    not order it otherwise.  This holds for whatever enumeration of the
    nodes networkx starts from.  The merge of a pass folds its loop body
    over these entries in exactly that order, from the first to the last,
    starting from the empty result: the first entry is adopted whole, its
    ignored sections apart, and every later entry is merged into what the
    entries before it gave. *)
Theorem ordered_imports_importers_first
    (g : ImportsGraph.t) (docs : list (string * Document)) :
  registered g docs →
  ∃ entries,
    ImportsGraph.topological_sort g = Ok entries ∧
    map (fun e => (ImportsGraph.import e, ImportsGraph.parsed e)) entries
      ≡ₚ docs ∧
    head (map ImportsGraph.import entries) = head docs.*1 ∧
    (∀ k via,
       tc (networkx.has_edge (ImportsGraph._imports_tree g)) k via →
       precedes (map ImportsGraph.import entries) via k) ∧
    (∀ k via,
       networkx.has_edge (ImportsGraph._imports_tree g) k via →
       last (map ImportsGraph.import entries) ≠ Some via) ∧
    (∀ nbunch,
       (∀ x, x ∈ nbunch
             ↔ x ∈ networkx.nodes_iter (ImportsGraph._imports_tree g)) →
       ∃ sorted,
         networkx.topological_sort (ImportsGraph._imports_tree g) (Some nbunch)
           = Ok sorted ∧
         rev sorted ≡ₚ docs.*1 ∧
         head (rev sorted) = head docs.*1 ∧
         ∀ k via,
           tc (networkx.has_edge (ImportsGraph._imports_tree g)) k via →
           precedes (rev sorted) via k) ∧
    (∀ validate_version version l1 e l2 combined,
       entries = l1 ++ e :: l2 →
       for_each (ImportsLoader.combine_step validate_version version)
         entries combined
       = result_bind
           (for_each (ImportsLoader.combine_step validate_version version)
              l1 combined)
           (fun combined1 =>
              result_bind
                (ImportsLoader.combine_step validate_version version
                   combined1 e)
                (for_each (ImportsLoader.combine_step validate_version version)
                   l2))) ∧
    (∀ depth env parsed_dsl_holder dsl_location resources_base_url version
       resolver validate_version ordered_imports,
       let pass := ImportsLoader._build_ordered_imports depth env
                     parsed_dsl_holder dsl_location resources_base_url
                     resolver in
       imports_graph pass.2 = g →
       pass.1 = Ok ordered_imports →
       ordered_imports = entries ∧
       ImportsLoader._combine_imports depth env parsed_dsl_holder dsl_location
         resources_base_url version resolver validate_version
       = result_bind
           (for_each (ImportsLoader.combine_step validate_version version)
              entries ∅)
           (fun holder_result =>
              Ok (<[(get_item VERSION parsed_dsl_holder).1 :=
                      (get_item VERSION parsed_dsl_holder).2]>
                    (kmap Some (Some <$> holder_result))))) ∧
    (∀ validate_version version e rest,
       entries = e :: rest →
       for_each (ImportsLoader.combine_step validate_version version)
         entries ∅
       = result_bind
           (if validate_version
            then ImportsLoader._validate_version (raw version)
                   (ImportsGraph.import e) (ImportsGraph.parsed e)
            else Ok tt)
           (fun _ =>
              for_each (ImportsLoader.combine_step validate_version version)
                rest (without_ignored (ImportsGraph.parsed e)))).
Proof.
  intros Hreg.
  destruct (registered_ordering g docs Hreg)
    as (entries & He & Hperm & Hhead & Htc).
  exists entries. do 4 (split; [done|]). split; [|split; [|split; [|split]]].
  - intros k via Hedge. apply (precedes_not_last _ via k).
    + assert (map ImportsGraph.import entries ≡ₚ docs.*1) as ->.
      { by rewrite <-Hperm, <-list_fmap_compose. }
      exact (discovery_tree_NoDup _ _ (registered_tree _ _ Hreg)).
    + apply Htc. by apply tc_once.
  - intros nbunch Hnb. pose proof (registered_tree _ _ Hreg) as HG.
    destruct (discovery_tree_search _ docs nbunch HG Hnb)
      as (st & Hv & Hnd & Hnodes & Hhead' & _ & Htc').
    exists (rev (networkx.order st)).
    split; [by apply topological_sort_of_visit|].
    rewrite rev_involutive. split; [|done].
    apply NoDup_Permutation; [done| |done].
    exact (discovery_tree_NoDup _ _ HG).
  - intros validate_version version l1 e l2 combined ->.
    by rewrite for_each_app.
  - intros depth env parsed_dsl_holder dsl_location resources_base_url version
      resolver validate_version ordered_imports pass Hg Hpass.
    pose proof (pass_is_ordering _ _ _ _ _ _ _ Hpass) as Hsort.
    fold pass in Hsort. rewrite Hg, He in Hsort. injection Hsort as <-.
    split; [done|].
    unfold ImportsLoader._combine_imports. fold pass. rewrite Hpass.
    cbn [result_bind]. by destruct (get_item VERSION parsed_dsl_holder).
  - intros validate_version version e rest ->. cbn [for_each].
    unfold ImportsLoader.combine_step at 1.
    destruct validate_version.
    + destruct (ImportsLoader._validate_version _ _ _) as [[]|e'];
        cbn [result_bind]; [|done].
      by rewrite merge_alone.
    + cbn [result_bind]. by rewrite merge_alone.
Qed.

Lemma ordered_imports_witness :
  (∃ entries,
     ImportsGraph.topological_sort chain_graph = Ok entries ∧
     head (map ImportsGraph.import entries) = Some "root") ∧
  match (ImportsLoader._build_ordered_imports 10 (table_env cyclic_files)
           cyclic_root None (Some "base") (table_resolver cyclic_files)).1
  with
  | Ok entries =>
      head (map ImportsGraph.import entries) = Some "root" ∧
      ImportsLoader._combine_imports 10 (table_env cyclic_files) cyclic_root
        None (Some "base") {| raw := "v2_0" |} (table_resolver cyclic_files)
        true
      = result_bind
          (for_each (ImportsLoader.combine_step true {| raw := "v2_0" |})
             entries ∅)
          (fun holder_result =>
             Ok (<[(get_item VERSION cyclic_root).1 :=
                     (get_item VERSION cyclic_root).2]>
                   (kmap Some (Some <$> holder_result))))
  | Raise _ => False
  end.
Proof.
  split.
  { assert (registered chain_graph chain_docs) as Hreg.
    { unfold chain_graph, chain_docs.
      apply (reg_add _ [_; _] _ _ _); [|reflexivity|reflexivity|discriminate].
      apply (reg_add _ [_] _ _ _); [|reflexivity|reflexivity|discriminate].
      apply reg_root. }
    destruct (ordered_imports_importers_first chain_graph chain_docs Hreg)
      as (entries & H1 & _ & H3 & _).
    exists entries. split; [exact H1|exact H3]. }
  assert (is_ok (ImportsLoader._build_ordered_imports 10
                   (table_env cyclic_files) cyclic_root None (Some "base")
                   (table_resolver cyclic_files)).1 = true) as Hok.
  { vm_compute. reflexivity. }
  destruct (build_ordered_imports_outcome 10 (table_env cyclic_files)
              cyclic_root None (Some "base") (table_resolver cyclic_files))
    as (_ & _ & Hreg).
  destruct (Hreg (table_env_resolves_nonempty cyclic_files))
    as (_ & docs & Hdocs & Hhead & _).
  destruct (ordered_imports_importers_first _ docs Hdocs)
    as (entries' & _ & _ & H3 & _ & _ & _ & _ & Hpass & _).
  destruct (ImportsLoader._build_ordered_imports 10 (table_env cyclic_files)
              cyclic_root None (Some "base") (table_resolver cyclic_files)).1
    as [entries|e] eqn:H; [|discriminate Hok].
  destruct (Hpass 10 (table_env cyclic_files) cyclic_root None (Some "base")
              {| raw := "v2_0" |} (table_resolver cyclic_files) true entries
              eq_refl H) as [-> Hc].
  split; [|exact Hc].
  rewrite H3. destruct docs as [|[k d] docs]; [discriminate Hhead|].
  injection Hhead as -> _. reflexivity.
Defined.

(** C2, counterexample.  With root importing [a.yaml] importing [b.yaml],
    the ordering puts the root first and [b.yaml] last, whatever enumeration
    of the nodes the sort starts from. *)
Lemma ordered_imports_root_is_first :
  imports_of (ImportsGraph.topological_sort chain_graph)
    = Ok ["root"; "a.yaml"; "b.yaml"] ∧
  networkx.topological_sort (ImportsGraph._imports_tree chain_graph)
    (Some ["b.yaml"; "root"; "a.yaml"]) = Ok ["b.yaml"; "a.yaml"; "root"] ∧
  networkx.topological_sort (ImportsGraph._imports_tree chain_graph)
    (Some ["a.yaml"; "b.yaml"; "root"]) = Ok ["b.yaml"; "a.yaml"; "root"] ∧
  ¬ (∃ entries,
       ImportsGraph.topological_sort chain_graph = Ok entries ∧
       last (map ImportsGraph.import entries) = Some "root").
Proof.
  assert (imports_of (ImportsGraph.topological_sort chain_graph)
          = Ok ["root"; "a.yaml"; "b.yaml"]) as H.
  { vm_compute. reflexivity. }
  split; [exact H|]. split; [vm_compute; reflexivity|].
  split; [vm_compute; reflexivity|].
  intros (entries & He & Hlast). rewrite He in H. cbn in H.
  injection H as H. rewrite H in Hlast. discriminate Hlast.
Qed.

(** At a fork the depth of an import does not order it: with the nodes
    enumerated as they were added, [c.yaml], imported by [a.yaml], comes
    before [b.yaml], imported by the root. *)
Lemma fork_ordering_example :
  imports_of (ImportsGraph.topological_sort fork_graph)
  = Ok ["root"; "a.yaml"; "c.yaml"; "b.yaml"].
Proof. vm_compute. reflexivity. Qed.

(** C3, as the code has it.  Building the ordered imports never fails with a
    cycle error, whatever the import configuration: a location met again is
    only recorded as a dependency and the tree of first discoveries has no
    cycle.  The pass fails only with an exception of the discovery itself;
    when it returns, every registered location is listed once, the root
    first. *)
Theorem discovery_tolerates_cycles
    (depth : nat) (env : Environment) (parsed_dsl_holder : Document)
    (dsl_location resources_base_url : option string) (resolver : Resolver) :
  resolves_nonempty env →
  let pass := ImportsLoader._build_ordered_imports depth env parsed_dsl_holder
                dsl_location resources_base_url resolver in
  (∀ message, pass.1 ≠ Raise (NetworkXUnfeasible message)) ∧
  (∀ e, pass.1 = Raise e → is_discovery_exception e = true) ∧
  (∀ entries, pass.1 = Ok entries →
     NoDup (map ImportsGraph.import entries) ∧
     head entries
       = Some {| ImportsGraph.import := ImportsLoader.location dsl_location;
                 ImportsGraph.parsed := parsed_dsl_holder |}) ∧
  NoDup (fetched pass.2).
Proof.
  intros Hne pass.
  destruct (build_ordered_imports_outcome depth env parsed_dsl_holder
              dsl_location resources_base_url resolver)
    as (Hnd & _ & Hreg). fold pass in Hnd, Hreg.
  destruct (Hreg Hne) as (Hexc & docs & Hdocs & Hhead & Hsort).
  split; [|split; [done|split; [|done]]].
  - intros message H. by apply Hexc in H.
  - intros entries He. apply Hsort in He.
    destruct (registered_ordering _ _ Hdocs)
      as (entries' & He' & Hperm & Hfirst & _).
    assert (entries' = entries) as -> by congruence.
    pose proof (discovery_tree_NoDup _ _ (registered_tree _ _ Hdocs)) as Hk.
    assert (map ImportsGraph.import entries
            ≡ₚ docs.*1) as Hkeys.
    { rewrite <-Hperm, <-list_fmap_compose. done. }
    split; [by rewrite Hkeys|].
    destruct entries as [|[ei ep] entries].
    { apply Permutation_nil_l in Hperm. by subst docs. }
    destruct docs as [|[k d] docs']; [done|].
    cbn in Hhead, Hfirst, Hperm. simplify_eq. cbn [head]. do 2 f_equal.
    eapply (NoDup_fst_unique _ _ _ _ Hk); [|left].
    rewrite <-Hperm. left.
Qed.

Lemma discovery_tolerates_cycles_witness :
  NoDup (fetched
           (ImportsLoader._build_ordered_imports 10 (table_env cyclic_files)
              cyclic_root None (Some "base") (table_resolver cyclic_files)).2).
Proof.
  exact (proj2 (proj2 (proj2
    (discovery_tolerates_cycles 10 (table_env cyclic_files) cyclic_root None
       (Some "base") (table_resolver cyclic_files)
       (table_env_resolves_nonempty cyclic_files))))).
Defined.

(** C3, counterexample.  Root imports [a.yaml], [a.yaml] imports [b.yaml]
    and [b.yaml] imports [a.yaml]: building the ordered imports does not
    fail; it fetches each of the two locations once and returns the root,
    [a.yaml], [b.yaml]. *)
Lemma cyclic_imports_are_ordered :
  imports_of
    (ImportsLoader._build_ordered_imports 10 (table_env cyclic_files)
       cyclic_root None (Some "base") (table_resolver cyclic_files)).1
  = Ok ["root"; "base/a.yaml"; "base/b.yaml"] ∧
  fetched
    (ImportsLoader._build_ordered_imports 10 (table_env cyclic_files)
       cyclic_root None (Some "base") (table_resolver cyclic_files)).2
  = ["base/a.yaml"; "base/b.yaml"] ∧
  ¬ (∃ e,
       (ImportsLoader._build_ordered_imports 10 (table_env cyclic_files)
          cyclic_root None (Some "base") (table_resolver cyclic_files)).1
       = Raise e).
Proof.
  assert (imports_of
    (ImportsLoader._build_ordered_imports 10 (table_env cyclic_files)
       cyclic_root None (Some "base") (table_resolver cyclic_files)).1
    = Ok ["root"; "base/a.yaml"; "base/b.yaml"]) as H.
  { vm_compute. reflexivity. }
  split; [exact H|]. split; [vm_compute; reflexivity|].
  intros [e He]. rewrite He in H. discriminate H.
Qed.

(** C6.  Registering is idempotent: a key already in the graph keeps the
    document of its first registration (registering it again without a via
    changes nothing at all); one pass hands no location to the resolver
    twice and parses no location twice; and for every graph the loader
    registers, also after later registrations of known keys, the ordering
    yields exactly one entry per key, carrying the first-registered
    document. *)
Theorem registration_is_idempotent :
  (∀ g k d via,
     ImportsGraph.contains g k = true →
     networkx.node_parsed
       (ImportsGraph._imports_tree (ImportsGraph.add g k d via)) k
     = networkx.node_parsed (ImportsGraph._imports_tree g) k ∧
     ImportsGraph.add g k d None = g) ∧
  (∀ depth env parsed_dsl_holder dsl_location resources_base_url resolver,
     NoDup (fetched
              (ImportsLoader._build_ordered_imports depth env parsed_dsl_holder
                 dsl_location resources_base_url resolver).2) ∧
     NoDup (loaded
              (ImportsLoader._build_ordered_imports depth env parsed_dsl_holder
                 dsl_location resources_base_url resolver).2)) ∧
  (∀ g docs,
     registered g docs →
     NoDup docs.*1 ∧
     (∀ k d, ImportsGraph.contains g k = true →
             registered (ImportsGraph.add g k d None) docs) ∧
     ∃ entries,
       ImportsGraph.topological_sort g = Ok entries ∧
       NoDup (map ImportsGraph.import entries) ∧
       map (fun e => (ImportsGraph.import e, ImportsGraph.parsed e)) entries
         ≡ₚ docs).
Proof.
  split; [|split].
  - intros g k d via Hk. split; [|by apply add_known].
    unfold ImportsGraph.contains in Hk. unfold ImportsGraph.add.
    rewrite Hk. cbn [negb]. destruct via as [v|]; [|done].
    destruct (truthy (Some v)); [|done]. cbn [ImportsGraph._imports_tree].
    apply node_parsed_add_edge. by apply has_node_true.
  - intros depth env parsed_dsl_holder dsl_location resources_base_url resolver.
    destruct (build_ordered_imports_outcome depth env parsed_dsl_holder
                dsl_location resources_base_url resolver)
      as (Hnd & [rest Hprefix] & _).
    split; [done|]. rewrite Hprefix in Hnd. by apply NoDup_app in Hnd as [? _].
  - intros g docs Hreg.
    pose proof (discovery_tree_NoDup _ _ (registered_tree _ _ Hreg)) as Hk.
    split; [done|]. split; [intros k d Hin; by constructor|].
    destruct (registered_ordering _ _ Hreg)
      as (entries & He & Hperm & _).
    exists entries. split; [done|]. split; [|done].
    assert (map ImportsGraph.import entries ≡ₚ docs.*1) as ->; [|done].
    by rewrite <-Hperm, <-list_fmap_compose.
Qed.

Lemma registration_is_idempotent_witness :
  ImportsGraph.add chain_graph "a.yaml" {[ "inputs" := HStr "other" ]} None
  = chain_graph.
Proof.
  assert (ImportsGraph.contains chain_graph "a.yaml" = true) as H.
  { vm_compute. reflexivity. }
  exact (proj2 (proj1 registration_is_idempotent chain_graph "a.yaml"
                  {[ "inputs" := HStr "other" ]} None H)).
Defined.

(** ** Schema properties and their defaults *)

Lemma schema_property_default_entry (self : SchemaProperty.t) flag :
  SchemaProperty.parse self flag !! "default"
  = if defined (SchemaProperty.default_ self)
    then Some (value (SchemaProperty.default_ self))
    else None.
Proof.
  unfold SchemaProperty.parse, SchemaProperty.children. cbn [foldl].
  assert (∀ m : gmap string (option pyvalue),
            (if flag
             then <["initial_default" :=
                      initial_value (SchemaProperty.default_ self)]> m
             else m) !! "default" = m !! "default") as ->.
  { intros m. destruct flag; [|done]. by rewrite lookup_insert_ne. }
  destruct (defined (SchemaProperty.required self)),
    (defined (SchemaProperty.default_ self)),
    (defined (SchemaProperty.description self)),
    (defined (SchemaProperty.type self));
    repeat (rewrite lookup_insert_ne by done);
    rewrite ?lookup_insert_eq, ?lookup_empty; done.
Qed.

(** C9.  A schema property that declares no default: when it has no type or
    a primitive type, its default node parses to [None] and the parsed
    property has no [default] entry at all; when its type is a user-defined
    type, the default is what [parse_value] derives from the empty dict for
    that type against the component types in scope, and that value is the
    [default] entry of the parsed property. *)
Theorem undeclared_default_is_absent_or_derived
    (fw : Framework) (self : SchemaProperty.t) (current_type : string)
    (component_types : option ComponentTypes) (initial_default : bool) :
  initial_value (SchemaProperty.default_ self) = None →
  start_line (SchemaProperty.default_ self) = None →
  let type_name := type_name_of (initial_value (SchemaProperty.type self)) in
  ((type_name = None ∨
    ∃ t, type_name = Some t ∧ t ∈ USER_PRIMITIVE_TYPES fw) →
     SchemaPropertyDefault.parse fw (SchemaProperty.default_ self) type_name
       (SchemaProperty.name self) current_type component_types = Ok None ∧
     ∃ parsed,
       SchemaProperty.evaluate fw self current_type component_types
         = Ok parsed ∧
       SchemaProperty.parse parsed initial_default !! "default" = None) ∧
  (∀ t, type_name = Some t → t ∉ USER_PRIMITIVE_TYPES fw →
     SchemaPropertyDefault.parse fw (SchemaProperty.default_ self) type_name
       (SchemaProperty.name self) current_type component_types
     = parse_value fw (PyDict ∅) (Some t) (default ∅ component_types)
         "Undefined property {1} in default value of type {0}"
         "illegal state" current_type [SchemaProperty.name self] false ∧
     ∀ v,
       parse_value fw (PyDict ∅) (Some t) (default ∅ component_types)
         "Undefined property {1} in default value of type {0}"
         "illegal state" current_type [SchemaProperty.name self] false
       = Ok (Some v) →
       ∃ parsed,
         SchemaProperty.evaluate fw self current_type component_types
           = Ok parsed ∧
         SchemaProperty.parse parsed initial_default !! "default"
           = Some (Some v)).
Proof.
  intros Hinit Hline type_name. split.
  - intros Htype.
    assert (SchemaPropertyDefault.parse fw (SchemaProperty.default_ self)
              type_name (SchemaProperty.name self) current_type
              component_types = Ok None) as Hparse.
    { unfold SchemaPropertyDefault.parse. rewrite Hinit.
      destruct Htype as [->|(t & -> & Ht)]; [done|].
      by rewrite bool_decide_eq_false_2 by (intros H; by apply H). }
    split; [done|]. eexists. split.
    + unfold SchemaProperty.evaluate. cbn [value]. fold type_name.
      rewrite Hparse. cbn [result_bind]. reflexivity.
    + rewrite schema_property_default_entry. cbn [SchemaProperty.default_].
      unfold defined. cbn [value start_line]. rewrite Hline.
      rewrite !bool_decide_eq_false_2; [done|by intros [? ?]..].
  - intros t Ht Hprim.
    assert (SchemaPropertyDefault.parse fw (SchemaProperty.default_ self)
              type_name (SchemaProperty.name self) current_type
              component_types
            = parse_value fw (PyDict ∅) (Some t) (default ∅ component_types)
                "Undefined property {1} in default value of type {0}"
                "illegal state" current_type [SchemaProperty.name self] false)
      as Hparse.
    { unfold SchemaPropertyDefault.parse. rewrite Hinit, Ht.
      by rewrite bool_decide_eq_true_2. }
    split; [done|]. intros v Hv. eexists. split.
    + unfold SchemaProperty.evaluate. cbn [value]. fold type_name.
      rewrite Hparse, Hv. cbn [result_bind]. reflexivity.
    + rewrite schema_property_default_entry. cbn [SchemaProperty.default_].
      unfold defined. cbn [value start_line].
      rewrite bool_decide_eq_true_2 by eauto. done.
Qed.

Lemma undeclared_default_witness :
  ∃ parsed,
    SchemaProperty.evaluate plain_framework point_property "pair" None
      = Ok parsed ∧
    SchemaProperty.parse parsed true !! "default" = Some (Some (PyDict ∅)).
Proof.
  assert (initial_value (SchemaProperty.default_ point_property) = None) as H1
    by reflexivity.
  assert (start_line (SchemaProperty.default_ point_property) = None) as H2
    by reflexivity.
  assert (type_name_of (initial_value (SchemaProperty.type point_property))
          = Some "point") as H3 by reflexivity.
  assert ("point" ∉ USER_PRIMITIVE_TYPES plain_framework) as H4.
  { vm_compute. intros H. repeat (inversion H as [|? ? ? H']; clear H;
      rename H' into H); inversion H. }
  exact (proj2 (proj2 (undeclared_default_is_absent_or_derived plain_framework
                         point_property "pair" None true H1 H2)
                  "point" H3 H4) (PyDict ∅) eq_refl).
Defined.

(** ** Component types of data types *)

Lemma direct_component_types_spec (self : DataType.t) (n : option string) :
  n ∈ DataType.direct_component_types self
  ↔ (truthy (DataType.derived_from self) = true ∧
     n = DataType.derived_from self)
    ∨ n ∈ DataType.property_types self.
Proof.
  unfold DataType.direct_component_types.
  assert (∀ (l : list (option string)) (acc : gset (option string)),
            n ∈ foldl (fun acc desc => {[ desc ]} ∪ acc) acc l
            ↔ n ∈ acc ∨ n ∈ l) as Hfold.
  { induction l as [|x l IH]; intros acc; cbn [foldl].
    - rewrite elem_of_nil. tauto.
    - rewrite IH, elem_of_cons. set_solver. }
  rewrite Hfold. destruct (truthy (DataType.derived_from self)).
  - set_solver.
  - rewrite elem_of_empty. split; [intros [[]|?]; by right|].
    intros [[? _]|?]; [done|by right].
Qed.

Lemma dom_merged (cts : list ComponentTypes) (acc : ComponentTypes) n :
  n ∈ dom (foldl (fun merged component => DataType.update merged component)
             acc cts)
  ↔ n ∈ dom acc ∨ ∃ c, c ∈ cts ∧ n ∈ dom c.
Proof.
  revert acc. induction cts as [|c cts IH]; intros acc; cbn [foldl].
  - split; [by left|]. intros [?|(c & Hc & _)]; [done|].
    by apply elem_of_nil in Hc.
  - rewrite IH. unfold DataType.update. rewrite dom_union. split.
    + intros [[?|?]%elem_of_union|(c' & Hc' & ?)].
      * right. exists c. split; [left|done].
      * by left.
      * right. exists c'. split; [by right|done].
    + intros [?|(c' & [->|Hc']%elem_of_cons & ?)].
      * left. apply elem_of_union. by right.
      * left. apply elem_of_union. by left.
      * right. by exists c'.
Qed.

Lemma parse_component_types fw self super_type cts p :
  DataType.parse fw self super_type cts = Ok p →
  (∀ n, n ∈ dom (DataType.merged_component_types p)
        ↔ ∃ c, c ∈ cts ∧ n ∈ dom c) ∧
  (∀ n, n ∈ dom (DataType.component_types p)
        ↔ n = DataType.name self
          ∨ n ∈ dom (DataType.merged_component_types p)).
Proof.
  unfold DataType.parse. intros H.
  apply result_bind_ok in H as (result & _ & [= <-]).
  cbn [DataType.merged_component_types DataType.component_types]. split.
  - intros n. rewrite dom_merged, dom_empty. set_solver.
  - intros n. rewrite dom_insert. unfold DataType.update.
    rewrite dom_union, dom_empty. set_solver.
Qed.

Lemma resolve_component_types_spec document evaluated source cts :
  DataTypes.resolve_component_types document evaluated source = Ok cts →
  ∀ c, c ∈ cts
       ↔ ∃ target p,
           target ∈ document ∧
           Some (DataType.name target)
             ∈ DataType.direct_component_types source ∧
           evaluated !! DataType.name target = Some p ∧
           c = DataType.component_types p.
Proof.
  unfold DataTypes.resolve_component_types.
  assert (∀ acc cts,
    for_each
      (fun acc target =>
         if bool_decide (Some (DataType.name target)
                           ∈ DataType.direct_component_types source)
         then match evaluated !! DataType.name target with
              | Some p => Ok (acc ++ [DataType.component_types p])
              | None => Raise (CyclicDependency (DataType.name source))
              end
         else Ok acc)
      document acc = Ok cts →
    ∀ c, c ∈ cts
         ↔ c ∈ acc ∨
           ∃ target p,
             target ∈ document ∧
             Some (DataType.name target)
               ∈ DataType.direct_component_types source ∧
             evaluated !! DataType.name target = Some p ∧
             c = DataType.component_types p) as Hgen.
  { induction document as [|T document IH]; intros acc cts' H c; cbn in H.
    - simplify_eq. split; [by left|].
      intros [?|(T & p & HT & _)]; [done|]. by apply elem_of_nil in HT.
    - apply result_bind_ok in H as (acc1 & H1 & H).
      rewrite (IH _ _ H c).
      destruct (decide (Some (DataType.name T)
                          ∈ DataType.direct_component_types source))
        as [Hin|Hin].
      + rewrite bool_decide_eq_true_2 in H1 by done.
        destruct (evaluated !! DataType.name T) as [p|] eqn:Hp; [|done].
        simplify_eq. rewrite elem_of_app, list_elem_of_singleton. split.
        * intros [[?| ->]|(T' & p' & HT' & ?)].
          -- by left.
          -- right. exists T, p. split; [left|done].
          -- right. exists T', p'. split; [by right|done].
        * intros [?|(T' & p' & [->|HT']%elem_of_cons & Hd & Hp' & ->)].
          -- left. by left.
          -- left. right. congruence.
          -- right. by exists T', p'.
      + rewrite bool_decide_eq_false_2 in H1 by done. simplify_eq. split.
        * intros [?|(T' & p' & HT' & ?)]; [by left|].
          right. exists T', p'. split; [by right|done].
        * intros [?|(T' & p' & [->|HT']%elem_of_cons & Hd & ?)];
            [by left|done|].
          right. by exists T', p'. }
  intros H c. rewrite (Hgen [] cts H c). split; [|by right].
  intros [Hc|?]; [by apply elem_of_nil in Hc|done].
Qed.

Lemma resolve_component_types_evaluated document evaluated source cts T :
  DataTypes.resolve_component_types document evaluated source = Ok cts →
  T ∈ document →
  Some (DataType.name T) ∈ DataType.direct_component_types source →
  is_Some (evaluated !! DataType.name T).
Proof.
  unfold DataTypes.resolve_component_types. intros H HT Hd.
  assert (∀ acc,
    for_each
      (fun acc target =>
         if bool_decide (Some (DataType.name target)
                           ∈ DataType.direct_component_types source)
         then match evaluated !! DataType.name target with
              | Some p => Ok (acc ++ [DataType.component_types p])
              | None => Raise (CyclicDependency (DataType.name source))
              end
         else Ok acc)
      document acc = Ok cts →
    is_Some (evaluated !! DataType.name T)) as Hgen; [|by eapply Hgen].
  clear H. induction document as [|D document IH]; intros acc H;
    [by apply elem_of_nil in HT|].
  cbn [for_each] in H. apply result_bind_ok in H as (l1 & H1 & H).
  apply elem_of_cons in HT as [->|HT]; [|by eapply IH].
  rewrite bool_decide_eq_true_2 in H1 by done.
  destruct (evaluated !! DataType.name D); [by eexists|done].
Qed.

Lemma refers_unfold document source n :
  NoDup (map DataType.name document) →
  source ∈ document →
  refers document (DataType.name source) n
  ↔ ∃ target, target ∈ document ∧ DataType.name target = n ∧
              Some n ∈ DataType.direct_component_types source.
Proof.
  intros Hnd Hsrc. split.
  - intros (S & T & HS & HT & HnS & HnT & Hd).
    assert (S = source) as ->.
    { apply list_elem_of_lookup in HS as [i Hi].
      apply list_elem_of_lookup in Hsrc as [j Hj].
      assert (i = j).
      { eapply (NoDup_lookup _ _ _ (DataType.name source) Hnd).
        - change (map DataType.name document) with (DataType.name <$> document).
          by rewrite list_lookup_fmap, Hi, <-HnS.
        - change (map DataType.name document) with (DataType.name <$> document).
          by rewrite list_lookup_fmap, Hj. }
      congruence. }
    by exists T.
  - intros (T & HT & HnT & Hd). by exists source, T.
Qed.

Lemma tc_first_step {A} (R : relation A) x z :
  tc R x z ↔ ∃ y, R x y ∧ rtc R y z.
Proof.
  split.
  - intros H. induction H as [x z H|x y z H Htc _].
    + exists z. split; [done|reflexivity].
    + exists y. split; [done|]. by apply tc_rtc.
  - intros (y & H & Hrtc). by eapply tc_rtc_r; [apply tc_once|].
Qed.

Lemma rtc_or_tc {A} (R : relation A) x z :
  rtc R x z ↔ x = z ∨ tc R x z.
Proof.
  split.
  - intros H. destruct H as [|x y z H Hrtc]; [by left|].
    right. apply tc_first_step. eauto.
  - intros [->|H]; [reflexivity|by apply tc_rtc].
Qed.

(** What every evaluated data type holds, in terms of the references among
    the data types of the document. *)
Lemma evaluate_component_types fw document order evaluated :
  NoDup (map DataType.name document) →
  (∀ T, T ∈ order → T ∈ document) →
  DataTypes.evaluate fw document order = Ok evaluated →
  ∀ name p, evaluated !! name = Some p →
    (∃ T, T ∈ order ∧ DataType.name T = name) ∧
    (∀ n, n ∈ dom (DataType.merged_component_types p)
          ↔ tc (refers document) name n) ∧
    (∀ n, n ∈ dom (DataType.component_types p)
          ↔ rtc (refers document) name n).
Proof.
  intros Hnd. unfold DataTypes.evaluate.
  assert (∀ order (acc evaluated : gmap string DataType.parsed),
    (∀ T, T ∈ order → T ∈ document) →
    (∀ name p, acc !! name = Some p →
       (∀ n, n ∈ dom (DataType.merged_component_types p)
             ↔ tc (refers document) name n) ∧
       (∀ n, n ∈ dom (DataType.component_types p)
             ↔ rtc (refers document) name n)) →
    for_each
      (fun evaluated source =>
         result_bind
           (DataTypes.resolve_component_types document evaluated source)
           (fun component_types =>
              result_bind
                (DataType.parse fw source
                   (DataTypes.resolve_super_type evaluated source)
                   component_types)
                (fun p => Ok (<[DataType.name source := p]> evaluated))))
      order acc = Ok evaluated →
    ∀ name p, evaluated !! name = Some p →
      (acc !! name = Some p ∨ ∃ T, T ∈ order ∧ DataType.name T = name) ∧
      (∀ n, n ∈ dom (DataType.merged_component_types p)
            ↔ tc (refers document) name n) ∧
      (∀ n, n ∈ dom (DataType.component_types p)
            ↔ rtc (refers document) name n)) as Hgen.
  { clear order evaluated.
    induction order as [|S order IH]; intros acc evaluated Hsub Hacc H name p Hp.
    - cbn in H. simplify_eq. split; [by left|]. by apply Hacc.
    - cbn [for_each] in H. apply result_bind_ok in H as (acc1 & H1 & H).
      apply result_bind_ok in H1 as (cts & Hcts & H1).
      apply result_bind_ok in H1 as (pS & HpS & [= <-]).
      assert (S ∈ document) as HS by (apply Hsub; left).
      pose proof (resolve_component_types_spec _ _ _ _ Hcts) as Hres.
      destruct (parse_component_types _ _ _ _ _ HpS) as [Hm Hc].
      assert (∀ n, n ∈ dom (DataType.merged_component_types pS)
                   ↔ tc (refers document) (DataType.name S) n) as HmS.
      { intros n. rewrite Hm, tc_first_step. split.
        - intros (c & (T & pT & HT & Hd & HpT & ->)%Hres & Hn).
          exists (DataType.name T). split.
          + apply refers_unfold; [done..|]. by exists T.
          + by apply (Hacc _ _ HpT).
        - intros (y & (T & HT & <- & Hd)%refers_unfold & Hrtc); [|done..].
          destruct (resolve_component_types_evaluated _ _ _ _ _ Hcts HT Hd)
            as [pT HpT].
          exists (DataType.component_types pT). split.
          + apply Hres. by exists T, pT.
          + by apply (Hacc _ _ HpT). }
      assert (∀ name p, <[DataType.name S := pS]> acc !! name = Some p →
         (∀ n, n ∈ dom (DataType.merged_component_types p)
               ↔ tc (refers document) name n) ∧
         (∀ n, n ∈ dom (DataType.component_types p)
               ↔ rtc (refers document) name n)) as Hacc1.
      { intros name' p'. rewrite lookup_insert.
        case_decide as Heq; [|by apply Hacc].
        intros [= <-]. subst name'. split; [done|].
        intros n. rewrite Hc, HmS, rtc_or_tc. naive_solver. }
      destruct (IH _ _ ltac:(intros T HT; apply Hsub; by right) Hacc1 H
                  name p Hp) as [Hwhere Hdom].
      split; [|done].
      destruct Hwhere as [Hin|(T & HT & HnT)].
      + rewrite lookup_insert in Hin. case_decide as Heq.
        * right. exists S. split; [left|done].
        * by left.
      + right. exists T. split; [by right|done]. }
  intros Hsub H name p Hp.
  destruct (Hgen order ∅ evaluated Hsub ltac:(by intros ? ? ?) H name p Hp)
    as [[Hin|?] ?]; [by rewrite lookup_empty in Hin|done].
Qed.

(** C8, as the code has it.  After the evaluation of the data types of a
    document, the component types a data type [T] publishes are keyed by
    [T]'s own name and by every data type reached from [T] along references
    (the type of a direct property, or the parent); the component types it
    merged from its requirements, which are handed to the schema merge, are
    keyed by the reached data types only.  A reference is the name of a data
    type of the document found as the parent of [T] or as the type of a
    property of [T]. *)
Theorem component_types_are_reachable_types
    (fw : Framework) (document order : list DataType.t)
    (evaluated : gmap string DataType.parsed) (T : DataType.t)
    (p : DataType.parsed) :
  NoDup (map DataType.name document) →
  (∀ S, S ∈ order → S ∈ document) →
  DataTypes.evaluate fw document order = Ok evaluated →
  T ∈ document →
  evaluated !! DataType.name T = Some p →
  (∀ n, n ∈ dom (DataType.component_types p)
        ↔ n = DataType.name T ∨ tc (refers document) (DataType.name T) n) ∧
  (∀ n, n ∈ dom (DataType.merged_component_types p)
        ↔ tc (refers document) (DataType.name T) n) ∧
  (∀ n, tc (refers document) (DataType.name T) n
        ↔ ∃ m, refers document (DataType.name T) m ∧
               (m = n ∨ tc (refers document) m n)) ∧
  (∀ n, refers document (DataType.name T) n
        ↔ (∃ D, D ∈ document ∧ DataType.name D = n) ∧
          ((truthy (DataType.derived_from T) = true ∧
            DataType.derived_from T = Some n)
           ∨ Some n ∈ DataType.property_types T)).
Proof.
  intros Hnd Hsub Hev HT Hp.
  destruct (evaluate_component_types fw document order evaluated Hnd Hsub Hev
              _ _ Hp) as (_ & Hm & Hc).
  split; [|split; [exact Hm|split]].
  - intros n. rewrite Hc, rtc_or_tc. split; (intros [?|?]; [by left|by right]).
  - intros n. rewrite tc_first_step. by setoid_rewrite rtc_or_tc.
  - intros n. rewrite (refers_unfold _ _ _ Hnd HT).
    setoid_rewrite direct_component_types_spec. split.
    + intros (D & HD & Hn & Hd). split; [by exists D|].
      destruct Hd as [[? ?]|?]; [left|right]; done.
    + intros [(D & HD & Hn) Hd]. exists D. split; [done|]. split; [done|].
      destruct Hd as [[? ?]|?]; [left|right]; done.
Qed.

Lemma component_types_witness :
  match DataTypes.evaluate plain_framework
          [base_type; point_type; pair_type]
          [point_type; base_type; pair_type]
  with
  | Ok evaluated =>
      ∀ p, evaluated !! "pair" = Some p →
           ∀ n, n ∈ dom (DataType.component_types p)
                ↔ n = "pair"
                  ∨ tc (refers [base_type; point_type; pair_type]) "pair" n
  | Raise _ => False
  end.
Proof.
  assert (is_ok (DataTypes.evaluate plain_framework
                   [base_type; point_type; pair_type]
                   [point_type; base_type; pair_type]) = true) as Hok.
  { vm_compute. reflexivity. }
  assert (NoDup (map DataType.name [base_type; point_type; pair_type])) as H1.
  { apply (bool_decide_unpack _). vm_compute. exact I. }
  assert (∀ S, S ∈ [point_type; base_type; pair_type] →
               S ∈ [base_type; point_type; pair_type]) as H2.
  { intros S HS. rewrite !elem_of_cons, elem_of_nil in HS.
    rewrite !elem_of_cons. tauto. }
  assert (pair_type ∈ [base_type; point_type; pair_type]) as H3.
  { rewrite !elem_of_cons. right; right; left. reflexivity. }
  destruct (DataTypes.evaluate plain_framework
              [base_type; point_type; pair_type]
              [point_type; base_type; pair_type]) as [evaluated|e] eqn:H.
  - intros p Hp.
    exact (proj1 (component_types_are_reachable_types plain_framework
                    _ _ evaluated pair_type p H1 H2 H H3 Hp)).
  - discriminate Hok.
Defined.

(** C8, counterexample.  A data type without parent and without properties
    names no other data type, and yet the component types it publishes are
    not empty: they hold the data type itself. *)
Lemma component_types_hold_the_type_itself :
  match DataTypes.evaluate plain_framework [point_type] [point_type] with
  | Ok evaluated =>
      (fun p => elements (dom (DataType.component_types p)))
        <$> evaluated !! "point"
  | Raise _ => None
  end = Some ["point"]
  ∧ DataType.direct_component_types point_type = ∅
  ∧ ∀ n, ¬ refers [point_type] "point" n.
Proof.
  split; [vm_compute; reflexivity|]. split; [reflexivity|].
  intros n (S & T & HS & _ & _ & _ & Hd).
  apply list_elem_of_singleton in HS as ->.
  by apply elem_of_empty in Hd.
Qed.

(** ** Validation of the imports declaration *)

Lemma validate_loop (imports : list string) (imports_set : gset string) :
  for_each (fun (imports_set : gset string) _import =>
              if bool_decide (_import ∈ imports_set)
              then Raise (DSLParsingFormatException 2 "Duplicate imports")
              else Ok ({[ _import ]} ∪ imports_set))
           imports imports_set
  = if bool_decide (NoDup imports ∧ Forall (fun x => x ∉ imports_set) imports)
    then Ok (list_to_set imports ∪ imports_set)
    else Raise (DSLParsingFormatException 2 "Duplicate imports").
Proof.
  revert imports_set.
  induction imports as [|x imports IH]; intros imports_set; cbn [for_each].
  - rewrite bool_decide_eq_true_2.
    + f_equal. set_solver.
    + split; constructor.
  - destruct (decide (x ∈ imports_set)) as [Hx|Hx].
    + rewrite (bool_decide_eq_true_2 _ Hx). cbn [result_bind].
      rewrite bool_decide_eq_false_2; [done|].
      intros [_ H]. by apply Forall_cons in H as [? _].
    + rewrite (bool_decide_eq_false_2 _ Hx). cbn [result_bind]. rewrite IH.
      destruct (decide (NoDup imports ∧
                        Forall (fun y => y ∉ {[ x ]} ∪ imports_set) imports))
        as [[Hnd Hfresh]|Hno].
      * rewrite bool_decide_eq_true_2 by done.
        rewrite bool_decide_eq_true_2.
        -- f_equal. set_solver.
        -- split.
           ++ constructor; [|done]. intros Hin.
              rewrite Forall_forall in Hfresh. apply (Hfresh x Hin).
              set_solver.
           ++ constructor; [done|]. eapply Forall_impl; [exact Hfresh|].
              cbn. set_solver.
      * rewrite (bool_decide_eq_false_2 _ Hno).
        rewrite bool_decide_eq_false_2; [done|].
        intros [Hnd Hfresh]. apply Hno. apply NoDup_cons in Hnd as [Hx' Hnd].
        split; [done|]. apply Forall_cons in Hfresh as [_ Hfresh].
        rewrite Forall_forall in Hfresh. apply Forall_forall. intros y Hy.
        assert (y ≠ x) by (by intros ->).
        specialize (Hfresh y Hy). set_solver.
Qed.

(** X1.  [validate] accepts an imports declaration exactly when no import is
    listed twice; a declaration with a repeated import is rejected with the
    format error 2, whatever else it holds. *)
Theorem validate_rejects_exactly_duplicates (imports : list string) :
  (ImportsLoader.validate imports = Ok tt ↔ NoDup imports) ∧
  (¬ NoDup imports →
     ImportsLoader.validate imports
     = Raise (DSLParsingFormatException 2 "Duplicate imports")) ∧
  (∀ l1 x l2 l3,
     ImportsLoader.validate (l1 ++ x :: l2 ++ x :: l3)
     = Raise (DSLParsingFormatException 2 "Duplicate imports")).
Proof.
  assert (∀ l, ImportsLoader.validate l
               = if bool_decide (NoDup l) then Ok tt
                 else Raise (DSLParsingFormatException 2 "Duplicate imports"))
    as Hval.
  { intros l. unfold ImportsLoader.validate. rewrite validate_loop.
    destruct (decide (NoDup l)) as [Hnd|Hnd].
    - rewrite bool_decide_eq_true_2;
        [|split; [done|apply Forall_forall; set_solver]].
      by rewrite bool_decide_eq_true_2.
    - rewrite bool_decide_eq_false_2 by (by intros [? _]).
      by rewrite bool_decide_eq_false_2. }
  split; [|split].
  - rewrite Hval. destruct (decide (NoDup imports)) as [Hnd|Hnd].
    + by rewrite bool_decide_eq_true_2.
    + rewrite bool_decide_eq_false_2 by done. split; [discriminate|done].
  - intros Hnd. rewrite Hval. by rewrite bool_decide_eq_false_2.
  - intros l1 x l2 l3. rewrite Hval. rewrite bool_decide_eq_false_2; [done|].
    intros Hnd. apply NoDup_app in Hnd as (_ & _ & Hnd).
    apply NoDup_cons in Hnd as [Hx _]. apply Hx. set_solver.
Qed.

(** ** Resource locations and the resource base *)

Lemma split_head_scheme (scheme rest : string) :
  scheme ∈ ["http"; "https"; "file"; "ftp"] →
  ImportsLoader.split_head scheme = scheme ∧
  ImportsLoader.split_head (scheme +:+ ":" +:+ rest) = scheme.
Proof.
  intros H.
  repeat (apply elem_of_cons in H as [->|H]; [by split|]).
  by apply elem_of_nil in H.
Qed.

(** X2.  A resource name is resolved in three steps, the first that applies
    winning.  A name whose text before the first colon is [http], [https],
    [file] or [ftp] is returned as it is, whatever the file system and the
    base say, and so is a name that is just one of these words; with a
    non-empty base every name resolves; and no location is found exactly
    when the name has no such scheme, is no existing path and the base is
    missing or empty. *)
Theorem resource_location_resolution
    (env : Environment) (resource_name : string)
    (resources_base_url : option string) :
  (∀ scheme rest,
     scheme ∈ ["http"; "https"; "file"; "ftp"] →
     ImportsLoader._get_resource_location env (scheme +:+ ":" +:+ rest)
       resources_base_url = Some (scheme +:+ ":" +:+ rest) ∧
     ImportsLoader._get_resource_location env scheme resources_base_url
       = Some scheme) ∧
  (truthy resources_base_url = true →
     is_Some (ImportsLoader._get_resource_location env resource_name
                resources_base_url)) ∧
  (ImportsLoader._get_resource_location env resource_name resources_base_url
     = None
   ↔ (ImportsLoader.split_head resource_name
        ∉ ["http"; "https"; "file"; "ftp"])
     ∧ os_path_exists env resource_name = false
     ∧ truthy resources_base_url = false) ∧
  (∀ url,
     ImportsLoader._get_resource_location env resource_name resources_base_url
       = Some url →
     ImportsLoader.split_head resource_name ∉ ["http"; "https"; "file"; "ftp"] →
     url = (if os_path_exists env resource_name
            then os_path_abspath env resource_name
            else os_path_join env (default "" resources_base_url)
                   resource_name)).
Proof.
  split; [|split; [|split]].
  - intros scheme rest Hs.
    destruct (split_head_scheme scheme rest Hs) as [H1 H2].
    unfold ImportsLoader._get_resource_location. rewrite H1, H2.
    by rewrite bool_decide_eq_true_2.
  - intros Hbase. unfold ImportsLoader._get_resource_location.
    destruct (bool_decide _); [by eexists|].
    destruct (os_path_exists env resource_name); [by eexists|].
    destruct resources_base_url as [base|]; [|done].
    rewrite Hbase. by eexists.
  - unfold ImportsLoader._get_resource_location.
    destruct (decide (ImportsLoader.split_head resource_name
                        ∈ ["http"; "https"; "file"; "ftp"])) as [Hs|Hs].
    { rewrite (bool_decide_eq_true_2 _ Hs). split; [done|]. by intros [? _]. }
    rewrite (bool_decide_eq_false_2 _ Hs).
    destruct (os_path_exists env resource_name).
    { split; [done|]. by intros (_ & ? & _). }
    destruct resources_base_url as [base|]; [|done].
    destruct (truthy (Some base)); [|done].
    split; [done|]. by intros (_ & _ & ?).
  - intros url Hurl Hs. unfold ImportsLoader._get_resource_location in Hurl.
    rewrite (bool_decide_eq_false_2 _ Hs) in Hurl.
    destruct (os_path_exists env resource_name); [by simplify_eq|].
    destruct resources_base_url as [base|]; [|done].
    destruct (truthy (Some base)); by simplify_eq.
Qed.

Lemma rfind_ge (s : string) (c : ascii) : (-1 ≤ ImportsLoader.rfind s c)%Z.
Proof.
  induction s as [|a rest IH]; cbn [ImportsLoader.rfind]; [done|].
  destruct (Z.leb_spec 0 (ImportsLoader.rfind rest c)); [lia|].
  destruct (bool_decide (a = c)); lia.
Qed.

Lemma rfind_found (s : string) (c : ascii) :
  (0 ≤ ImportsLoader.rfind s c)%Z →
  ∃ pre post,
    s = pre +:+ String c post ∧
    ImportsLoader.rfind s c = Z.of_nat (String.length pre) ∧
    ImportsLoader.rfind post c = (-1)%Z.
Proof.
  induction s as [|a rest IH]; cbn [ImportsLoader.rfind]; [lia|].
  pose proof (rfind_ge rest c) as Hge.
  destruct (Z.leb_spec 0 (ImportsLoader.rfind rest c)) as [Hr|Hr].
  - intros _. destruct (IH Hr) as (pre & post & -> & Hlen & Hpost).
    exists (String a pre), post. split; [done|]. split; [|done].
    rewrite Hlen. cbn [String.length]. lia.
  - destruct (decide (a = c)) as [->|Hne].
    + rewrite bool_decide_eq_true_2 by done. intros _.
      exists "", rest. split; [done|]. split; [done|]. lia.
    + rewrite bool_decide_eq_false_2 by done. lia.
Qed.

Lemma rfind_absent (s : string) (c : ascii) :
  ImportsLoader.rfind s c = (-1)%Z →
  ∀ pre post, s ≠ pre +:+ String c post.
Proof.
  induction s as [|a rest IH]; cbn [ImportsLoader.rfind].
  - intros _ [|? ?] post; discriminate.
  - destruct (Z.leb_spec 0 (ImportsLoader.rfind rest c)) as [Hr|Hr]; [lia|].
    pose proof (rfind_ge rest c) as Hge.
    destruct (decide (a = c)) as [->|Hne].
    + rewrite bool_decide_eq_true_2 by done. lia.
    + rewrite bool_decide_eq_false_2 by done. intros _ [|a' pre] post.
      * intros [= ? ?]. done.
      * intros [= ? Hrest]. eapply IH; [lia|exact Hrest].
Qed.

Lemma length_append (s1 s2 : string) :
  String.length (s1 +:+ s2) = String.length s1 + String.length s2.
Proof.
  induction s1 as [|a s1 IH]; [done|].
  change (String a s1 +:+ s2) with (String a (s1 +:+ s2)).
  cbn [String.length]. by rewrite IH.
Qed.

Lemma substring_prefix (s1 s2 : string) :
  substring 0 (String.length s1) (s1 +:+ s2) = s1.
Proof.
  induction s1 as [|a s1 IH].
  - by destruct s2.
  - change (String a s1 +:+ s2) with (String a (s1 +:+ s2)).
    cbn [String.length substring]. by rewrite IH.
Qed.

Lemma slice_to_prefix (pre post : string) :
  ImportsLoader.slice_to (pre +:+ post) (Z.of_nat (String.length pre)) = pre.
Proof.
  unfold ImportsLoader.slice_to. rewrite length_append.
  destruct (Z.ltb_spec (Z.of_nat (String.length pre)) 0) as [?|_]; [lia|].
  rewrite Z.min_l by lia. rewrite Nat2Z.id. apply substring_prefix.
Qed.

Lemma slice_to_last (pre : string) (a : ascii) :
  ImportsLoader.slice_to (pre +:+ String a "") (-1) = pre.
Proof.
  unfold ImportsLoader.slice_to. rewrite length_append. cbn [String.length].
  cbn [Z.ltb Z.compare]. rewrite Z.max_r by lia.
  replace (Z.to_nat (-1 + Z.of_nat (String.length pre + 1)))
    with (String.length pre) by lia.
  apply substring_prefix.
Qed.

Lemma string_last (s : string) :
  s = "" ∨ ∃ pre a, s = pre +:+ String a "".
Proof.
  induction s as [|a rest IH]; [by left|]. right.
  destruct IH as [->|(pre & b & ->)].
  - by exists "", a.
  - by exists (String a pre), b.
Qed.

Lemma resource_base_of_url (url : string) :
  (∃ last,
     url = ImportsLoader.slice_to url (ImportsLoader.rfind url "/")
           +:+ "/" +:+ last ∧
     ∀ pre post, last ≠ pre +:+ String "/" post) ∨
  ((∀ pre post, url ≠ pre +:+ String "/" post) ∧
   (url = "" ∧ ImportsLoader.slice_to url (ImportsLoader.rfind url "/") = ""
    ∨ ∃ a, url = ImportsLoader.slice_to url (ImportsLoader.rfind url "/")
                 +:+ String a "")).
Proof.
  pose proof (rfind_ge url "/") as Hge.
  destruct (decide (0 ≤ ImportsLoader.rfind url "/")%Z) as [Hr|Hr].
  - left. destruct (rfind_found _ _ Hr) as (pre & post & Hurl & Hlen & Hpost).
    exists post. split; [|by apply rfind_absent].
    rewrite Hlen. rewrite Hurl at 2. by rewrite slice_to_prefix.
  - right. assert (ImportsLoader.rfind url "/" = (-1)%Z) as Hm by lia.
    split; [by apply rfind_absent|]. rewrite Hm.
    destruct (string_last url) as [->|(pre & a & ->)]; [by left|].
    right. exists a. by rewrite slice_to_last.
Qed.

(** X3.  [parse] with a missing or empty blueprint location leaves the
    resource base unset and merges from the location as given; with a
    location that resolves nowhere it fails with error 30 before anything is
    merged, and the message never names the location; with a location that
    resolves to [url] it merges from [url] and sets the resource base to
    what is left of the last slash of [url], so that [url] is the resource
    base, a slash and a last segment without slash; a [url] without any
    slash loses its last character. *)
Theorem parse_sets_resource_base
    (depth : nat) (env : Environment) (main_blueprint_holder : Document)
    (resources_base_url blueprint_location : option string)
    (version : VersionNumber) (resolver : Resolver) (validate_version : bool) :
  let out := ImportsLoader.parse depth env main_blueprint_holder
               resources_base_url blueprint_location version resolver
               validate_version in
  (truthy blueprint_location = false →
     out = (ImportsLoader._combine_imports depth env main_blueprint_holder
              blueprint_location resources_base_url version resolver
              validate_version, None)) ∧
  (∀ name,
     blueprint_location = Some name → name ≠ "" →
     ImportsLoader._get_resource_location env name resources_base_url = None →
     out = (Raise (DSLParsingLogicException 30
                     ("Failed converting dsl location to url: no suitable "
                      +:+ "location found for dsl 'None'")), None)) ∧
  (∀ name url,
     blueprint_location = Some name → name ≠ "" →
     ImportsLoader._get_resource_location env name resources_base_url
       = Some url →
     out.1 = ImportsLoader._combine_imports depth env main_blueprint_holder
               (Some url) resources_base_url version resolver
               validate_version ∧
     ∃ resource_base,
       out.2 = Some resource_base ∧
       ((∃ last, url = resource_base +:+ "/" +:+ last ∧
                 ∀ pre post, last ≠ pre +:+ String "/" post) ∨
        ((∀ pre post, url ≠ pre +:+ String "/" post) ∧
         (url = "" ∧ resource_base = ""
          ∨ ∃ a, url = resource_base +:+ String a "")))).
Proof.
  intros out. subst out. unfold ImportsLoader.parse.
  split; [|split].
  - by intros ->.
  - intros name -> Hname Hloc.
    rewrite (proj2 (truthy_Some name) Hname).
    unfold ImportsLoader._dsl_location_to_url. by rewrite Hloc.
  - intros name url -> Hname Hloc.
    rewrite (proj2 (truthy_Some name) Hname).
    unfold ImportsLoader._dsl_location_to_url. rewrite Hloc. cbn [fst snd].
    split; [done|]. eexists. split; [done|]. apply resource_base_of_url.
Qed.

Lemma parse_resource_base_example :
  (ImportsLoader.parse 10 (table_env cyclic_files) cyclic_root
     (Some "base") (Some "blueprints/app/main.yaml") {| raw := "v2_0" |}
     (table_resolver cyclic_files) true).2
  = Some "base/blueprints/app".
Proof. vm_compute. reflexivity. Qed.

(** ** The merge, key by key *)

Section merge_spec.
Context (merge_no_override : gset string).

Lemma merge_item_local (combined : Document) key value_holder :
  ImportsLoader.merge_item merge_no_override combined (key, value_holder)
  = match merge_value merge_no_override (combined !! key) key value_holder with
    | Ok (Some h) => Ok (<[key := h]> combined)
    | Ok None => Ok combined
    | Raise e => Raise e
    end.
Proof.
  rewrite merge_item_unfold. unfold merge_value.
  destruct (bool_decide (key ∈ ImportsLoader.IGNORE)); [done|].
  destruct (combined !! key) as [to_dict|]; [|done].
  destruct (bool_decide (key ∈ merge_no_override)); [|done].
  by destruct (ImportsLoader._merge_into_dict_or_throw_on_duplicate _ _ _).
Qed.

Lemma merge_items_spec (items : list (string * Holder)) (c c' : Document) :
  NoDup items.*1 →
  for_each (ImportsLoader.merge_item merge_no_override) items c = Ok c'
  ↔ (∀ j, c' !! j = merged_lookup merge_no_override (list_to_map items) c j) ∧
    (∀ k v, (k, v) ∈ items →
            is_ok (merge_value merge_no_override (c !! k) k v) = true).
Proof.
  revert c. induction items as [|[k v] items IH]; intros c Hnd.
  - cbn [for_each]. unfold merged_lookup. rewrite list_to_map_nil. split.
    + intros [= <-]. split; [|by intros ? ? ?%elem_of_nil].
      intros j. by rewrite lookup_empty.
    + intros [H _]. f_equal. apply map_eq. intros j.
      specialize (H j). by rewrite lookup_empty in H.
  - rewrite fmap_cons in Hnd. apply NoDup_cons in Hnd as [Hk Hnd].
    cbn [for_each fst]. rewrite merge_item_local.
    assert ((list_to_map items : Document) !! k = None) as Hnone.
    { by apply not_elem_of_list_to_map_1. }
    destruct (merge_value merge_no_override (c !! k) k v) as [r|e] eqn:Hv.
    2:{ split; [done|]. intros [_ H]. specialize (H k v ltac:(left)).
        by rewrite Hv in H. }
    set (c1 := match r with Some h => <[k := h]> c | None => c end).
    assert (match r with
            | Some h => Ok (<[k:=h]> c)
            | None => Ok c
            end = Ok c1) as -> by (by destruct r).
    cbn [result_bind]. rewrite (IH c1 Hnd).
    assert (∀ j, j ≠ k → c1 !! j = c !! j) as Hframe.
    { intros j Hj. subst c1. destruct r; [|done].
      by rewrite lookup_insert_ne. }
    assert (c1 !! k = match r with Some h => Some h | None => c !! k end)
      as Hat.
    { subst c1. destruct r; [|done]. by rewrite lookup_insert_eq. }
    split.
    + intros [Hj Hok]. split.
      * intros j. rewrite (Hj j). unfold merged_lookup. rewrite list_to_map_cons.
        destruct (decide (j = k)) as [->|Hne].
        -- rewrite Hnone, lookup_insert_eq, Hv, Hat. by destruct r.
        -- by rewrite lookup_insert_ne, Hframe by done.
      * intros k' v' [[= -> ->]|Hin]%elem_of_cons; [by rewrite Hv|].
        assert (k' ≠ k).
        { intros ->. apply Hk. apply list_elem_of_fmap. by exists (k, v'). }
        rewrite <-Hframe by done. by apply Hok.
    + intros [Hj Hok]. split.
      * intros j. rewrite (Hj j). unfold merged_lookup. rewrite list_to_map_cons.
        destruct (decide (j = k)) as [->|Hne].
        -- rewrite Hnone, lookup_insert_eq, Hv, Hat. by destruct r.
        -- by rewrite lookup_insert_ne, Hframe by done.
      * intros k' v' Hin.
        assert (k' ≠ k).
        { intros ->. apply Hk. apply list_elem_of_fmap. by exists (k, v'). }
        rewrite Hframe by done. apply Hok. by right.
Qed.

Lemma merge_items_of_map (items : list (string * Holder))
    (m c c' : Document) :
  items ≡ₚ map_to_list m →
  for_each (ImportsLoader.merge_item merge_no_override) items c = Ok c'
  ↔ (∀ j, c' !! j = merged_lookup merge_no_override m c j) ∧
    (∀ k v, m !! k = Some v →
            is_ok (merge_value merge_no_override (c !! k) k v) = true).
Proof.
  intros Hperm.
  assert (NoDup items.*1) as Hnd.
  { rewrite Hperm. apply NoDup_fst_map_to_list. }
  rewrite (merge_items_spec _ _ _ Hnd).
  assert (list_to_map items = m) as ->.
  { rewrite <-(list_to_map_to_list m). apply list_to_map_proper; [done|].
    done. }
  split; intros [H1 H2]; (split; [done|]); intros k v Hkv; apply H2.
  - rewrite Hperm. by apply elem_of_map_to_list.
  - rewrite Hperm in Hkv. by apply elem_of_map_to_list in Hkv.
Qed.

End merge_spec.

Lemma merge_value_ok merge_no_override current key value_holder r :
  merge_value merge_no_override current key value_holder = Ok r →
  (key ∈ ImportsLoader.IGNORE ∧ r = None) ∨
  ((key ∉ ImportsLoader.IGNORE) ∧ current = None ∧ r = Some value_holder) ∨
  ((key ∉ ImportsLoader.IGNORE) ∧ key ∈ merge_no_override ∧
   ∃ to_dict h,
     current = Some to_dict ∧
     ImportsLoader._merge_into_dict_or_throw_on_duplicate
       value_holder to_dict key = Ok h ∧
     r = Some h).
Proof.
  unfold merge_value.
  destruct (decide (key ∈ ImportsLoader.IGNORE)) as [Hi|Hi].
  { rewrite (bool_decide_eq_true_2 _ Hi). intros [= <-]. by left. }
  rewrite (bool_decide_eq_false_2 _ Hi).
  destruct current as [to_dict|]; [|intros [= <-]; right; by left].
  destruct (decide (key ∈ merge_no_override)) as [Hm|Hm].
  2:{ by rewrite (bool_decide_eq_false_2 _ Hm). }
  rewrite (bool_decide_eq_true_2 _ Hm).
  destruct (ImportsLoader._merge_into_dict_or_throw_on_duplicate _ _ _)
    as [h|e] eqn:Hh; [|done].
  intros [= <-]. right; right.
  split; [done|]. split; [done|]. by exists to_dict, h.
Qed.

Lemma without_ignored_lookup (doc : Document) j :
  without_ignored doc !! j
  = if bool_decide (j ∈ ImportsLoader.IGNORE) then None else doc !! j.
Proof.
  unfold without_ignored. destruct (decide (j ∈ ImportsLoader.IGNORE)) as [Hi|Hi].
  - rewrite (bool_decide_eq_true_2 _ Hi). apply map_lookup_filter_None.
    right. intros x _ H. by apply H.
  - rewrite (bool_decide_eq_false_2 _ Hi).
    destruct (doc !! j) as [v|] eqn:Hd.
    + by apply map_lookup_filter_Some.
    + apply map_lookup_filter_None. by left.
Qed.

Lemma merge_parsed_spec (combined imported combined' : Document) version :
  ImportsLoader.merge_parsed_into_combined combined imported version None
    = Ok combined'
  ↔ (∀ j, combined' !! j
          = merged_lookup ImportsLoader.MERGE_NO_OVERRIDE imported combined j) ∧
    (∀ k v, imported !! k = Some v →
            is_ok (merge_value ImportsLoader.MERGE_NO_OVERRIDE
                     (combined !! k) k v) = true).
Proof.
  unfold ImportsLoader.merge_parsed_into_combined.
  by apply merge_items_of_map.
Qed.

(** X4.  A merge that succeeds only adds to the accumulator: the keys of the
    result are the keys of the accumulator and the keys of the imported
    document outside the ignore sections; a value the accumulator holds
    outside the no-override sections is never replaced; a key held on both
    sides outside the ignore sections is a no-override section; a new key
    takes the imported value; and a key the imported document lacks keeps
    what the accumulator held. *)
Theorem merge_only_adds
    (combined imported combined' : Document) (version : VersionNumber) :
  ImportsLoader.merge_parsed_into_combined combined imported version None
    = Ok combined' →
  dom combined' = dom combined ∪ dom (without_ignored imported) ∧
  (∀ key value,
     combined !! key = Some value →
     key ∉ ImportsLoader.MERGE_NO_OVERRIDE →
     combined' !! key = Some value) ∧
  (∀ key,
     is_Some (combined !! key) → is_Some (imported !! key) →
     key ∉ ImportsLoader.IGNORE →
     key ∈ ImportsLoader.MERGE_NO_OVERRIDE) ∧
  (∀ key value,
     imported !! key = Some value → combined !! key = None →
     key ∉ ImportsLoader.IGNORE →
     combined' !! key = Some value) ∧
  (∀ key, imported !! key = None → combined' !! key = combined !! key).
Proof.
  intros [Hj Hok]%merge_parsed_spec.
  assert (∀ j v, imported !! j = Some v →
            ∃ r, merge_value ImportsLoader.MERGE_NO_OVERRIDE
                   (combined !! j) j v = Ok r ∧
                 combined' !! j
                 = match r with Some h => Some h | None => combined !! j end)
    as Hat.
  { intros j v Hjv. specialize (Hok j v Hjv). rewrite (Hj j).
    unfold merged_lookup. rewrite Hjv.
    destruct (merge_value _ _ _ _) as [r|e]; [|done].
    exists r. split; [done|]. by destruct r. }
  split; [|split; [|split; [|split]]].
  - apply set_eq. intros j.
    rewrite elem_of_union, !elem_of_dom, without_ignored_lookup.
    destruct (imported !! j) as [v|] eqn:Hjv.
    + destruct (Hat j v Hjv) as (r & Hr & ->).
      apply merge_value_ok in Hr
        as [[Hi ->]|[(Hi & Hc & ->)|(Hi & _ & t & h & Hc & _ & ->)]].
      * rewrite (bool_decide_eq_true_2 _ Hi). split; [by left|].
        by intros [?|[? ?]].
      * rewrite (bool_decide_eq_false_2 _ Hi). split; [by right|by eauto].
      * rewrite (bool_decide_eq_false_2 _ Hi). split; [by right|by eauto].
    + rewrite (Hj j). unfold merged_lookup. rewrite Hjv.
      destruct (bool_decide _); split; try (by left); by intros [?|[? ?]].
  - intros key value Hc Hm. rewrite (Hj key). unfold merged_lookup.
    destruct (imported !! key) as [v|] eqn:Hjv; [|done].
    destruct (Hat key v Hjv) as (r & Hr & _). rewrite Hr.
    apply merge_value_ok in Hr
      as [[Hi ->]|[(Hi & Hc' & ->)|(Hi & Hm' & _)]]; [done|congruence|done].
  - intros key [t Hc] [v Hjv] Hi.
    destruct (Hat key v Hjv) as (r & Hr & _).
    apply merge_value_ok in Hr
      as [[Hi' ->]|[(_ & Hc' & ->)|(_ & Hm' & _)]]; [done|congruence|done].
  - intros key value Hjv Hc Hi.
    destruct (Hat key value Hjv) as (r & Hr & ->).
    apply merge_value_ok in Hr
      as [[Hi' ->]|[(_ & _ & ->)|(_ & _ & t & h & Hc' & _)]];
      [done|done|congruence].
  - intros key Hjv. rewrite (Hj key). unfold merged_lookup. by rewrite Hjv.
Qed.

Lemma merge_only_adds_witness :
  match ImportsLoader.merge_parsed_into_combined
          {[ "timeout" := HStr "10" ]}
          {[ "node_types" := HDict {[ "a_type" := HStr "a" ]};
             "imports" := HList [HStr "b.yaml"] ]}
          {| raw := "v2" |} None
  with
  | Ok combined' => combined' !! "timeout" = Some (HStr "10")
  | Raise _ => False
  end.
Proof.
  assert (is_ok (ImportsLoader.merge_parsed_into_combined
                   {[ "timeout" := HStr "10" ]}
                   {[ "node_types" := HDict {[ "a_type" := HStr "a" ]};
                      "imports" := HList [HStr "b.yaml"] ]}
                   {| raw := "v2" |} None) = true) as Hok.
  { vm_compute. reflexivity. }
  destruct (ImportsLoader.merge_parsed_into_combined _ _ _ _)
    as [combined'|e] eqn:H; [|discriminate Hok].
  apply (proj1 (proj2 (merge_only_adds _ _ _ _ H))).
  - reflexivity.
  - vm_compute. intros Hin. discriminate Hin.
Defined.

(** X5.  The outcome of a merge does not depend on the order in which the
    items of the imported document are enumerated: for any enumeration, the
    loop succeeds with a given result exactly when the merge does, and it
    fails exactly when the merge fails. *)
Theorem merge_is_order_independent
    (combined imported : Document) (version : VersionNumber)
    (items : list (string * Holder)) :
  items ≡ₚ map_to_list imported →
  (∀ combined',
     for_each (ImportsLoader.merge_item ImportsLoader.MERGE_NO_OVERRIDE)
       items combined = Ok combined'
     ↔ ImportsLoader.merge_parsed_into_combined combined imported version None
       = Ok combined') ∧
  ((∃ e, for_each (ImportsLoader.merge_item ImportsLoader.MERGE_NO_OVERRIDE)
           items combined = Raise e)
   ↔ ∃ e, ImportsLoader.merge_parsed_into_combined combined imported version
            None = Raise e).
Proof.
  intros Hperm.
  assert (∀ combined',
     for_each (ImportsLoader.merge_item ImportsLoader.MERGE_NO_OVERRIDE)
       items combined = Ok combined'
     ↔ ImportsLoader.merge_parsed_into_combined combined imported version None
       = Ok combined') as Hiff.
  { intros combined'. rewrite merge_parsed_spec.
    by apply merge_items_of_map. }
  split; [done|].
  destruct (for_each _ items combined) as [c1|e1] eqn:H1;
    destruct (ImportsLoader.merge_parsed_into_combined _ _ _ _)
      as [c2|e2] eqn:H2.
  - split; intros [e He]; discriminate He.
  - pose proof (proj1 (Hiff c1) eq_refl) as H. discriminate H.
  - pose proof (proj2 (Hiff c2) eq_refl) as H. discriminate H.
  - split; intros _; by eexists.
Qed.

Lemma merge_is_order_independent_witness :
  for_each (ImportsLoader.merge_item ImportsLoader.MERGE_NO_OVERRIDE)
    [("timeout", HStr "20"); ("inputs", HStr "i")] ∅
  = Ok {[ "timeout" := HStr "20"; "inputs" := HStr "i" ]}
  ↔ ImportsLoader.merge_parsed_into_combined ∅
      {[ "inputs" := HStr "i"; "timeout" := HStr "20" ]} {| raw := "v2" |} None
    = Ok {[ "timeout" := HStr "20"; "inputs" := HStr "i" ]}.
Proof.
  assert ([("timeout", HStr "20"); ("inputs", HStr "i")]
          ≡ₚ map_to_list
               ({[ "inputs" := HStr "i"; "timeout" := HStr "20" ]} : Document))
    as Hperm.
  { apply NoDup_Permutation.
    - apply (NoDup_fmap_1 fst). apply (bool_decide_unpack _). vm_compute.
      exact I.
    - apply NoDup_map_to_list.
    - intros [k v]. rewrite elem_of_map_to_list.
      rewrite !elem_of_cons, elem_of_nil.
      rewrite lookup_insert_Some, lookup_singleton_Some. naive_solver. }
  exact (proj1 (merge_is_order_independent ∅ _ {| raw := "v2" |} _ Hperm) _).
Defined.

Lemma merge_commutes_pointwise (A B c : Document) :
  sections_are_mappings A → sections_are_mappings B →
  (∀ j, c !! j = merged_lookup ImportsLoader.MERGE_NO_OVERRIDE B
                   (without_ignored A) j) →
  (∀ k v, B !! k = Some v →
          is_ok (merge_value ImportsLoader.MERGE_NO_OVERRIDE
                   (without_ignored A !! k) k v) = true) →
  (∀ j, c !! j = merged_lookup ImportsLoader.MERGE_NO_OVERRIDE A
                   (without_ignored B) j) ∧
  (∀ k v, A !! k = Some v →
          is_ok (merge_value ImportsLoader.MERGE_NO_OVERRIDE
                   (without_ignored B !! k) k v) = true).
Proof.
  intros HA HB Hj Hok.
  assert (∀ j,
    merged_lookup ImportsLoader.MERGE_NO_OVERRIDE B (without_ignored A) j
    = merged_lookup ImportsLoader.MERGE_NO_OVERRIDE A (without_ignored B) j ∧
    ∀ a, A !! j = Some a →
         is_ok (merge_value ImportsLoader.MERGE_NO_OVERRIDE
                  (without_ignored B !! j) j a) = true) as Hpoint.
  { intros j. specialize (Hok j). unfold merged_lookup in *.
    rewrite !without_ignored_lookup in *. unfold merge_value in *.
    destruct (decide (j ∈ ImportsLoader.IGNORE)) as [Hi|Hi].
    { rewrite (bool_decide_eq_true_2 _ Hi).
      destruct (A !! j), (B !! j); split; done. }
    rewrite (bool_decide_eq_false_2 _ Hi) in *.
    destruct (A !! j) as [a|] eqn:Ha, (B !! j) as [b|] eqn:Hb;
      [|done|split; [done|by intros ? [=]]|done].
    specialize (Hok b eq_refl).
    destruct (decide (j ∈ ImportsLoader.MERGE_NO_OVERRIDE)) as [Hm|Hm].
    2:{ by rewrite (bool_decide_eq_false_2 _ Hm) in Hok. }
    rewrite (bool_decide_eq_true_2 _ Hm) in *.
    destruct (HA j a Hm Ha) as [da ->], (HB j b Hm Hb) as [db ->].
    destruct (decide (db ##ₘ da)) as [Hd|Hd].
    - rewrite (merge_into_dict_disjoint db da j Hd). split.
      + rewrite (merge_into_dict_disjoint da db j) by done.
        cbn [result_bind]. by rewrite (map_union_comm db da).
      + intros ? [= <-].
        by rewrite (merge_into_dict_disjoint da db j) by done.
    - destruct (merge_into_dict_conflict db da j Hd) as (k & _ & _ & Hr).
      rewrite Hr in Hok. discriminate Hok. }
  split.
  - intros j. rewrite (Hj j). apply Hpoint.
  - intros k v. apply Hpoint.
Qed.

(** X6.  When the no-override sections of two documents are mappings,
    merging the first and then the second into an empty accumulator succeeds
    with a given result exactly when merging the second and then the first
    does: on success the order of two documents does not matter. *)
Theorem merge_of_two_documents_commutes
    (A B merged : Document) (version : VersionNumber) :
  sections_are_mappings A → sections_are_mappings B →
  result_bind (ImportsLoader.merge_parsed_into_combined ∅ A version None)
    (fun combined =>
       ImportsLoader.merge_parsed_into_combined combined B version None)
  = Ok merged
  ↔ result_bind (ImportsLoader.merge_parsed_into_combined ∅ B version None)
      (fun combined =>
         ImportsLoader.merge_parsed_into_combined combined A version None)
    = Ok merged.
Proof.
  intros HA HB. rewrite !merge_alone. cbn [result_bind].
  rewrite !merge_parsed_spec. split; intros [Hj Hok].
  - by apply merge_commutes_pointwise.
  - by apply merge_commutes_pointwise.
Qed.

Lemma merge_of_two_documents_commutes_witness :
  result_bind
    (ImportsLoader.merge_parsed_into_combined ∅
       {[ "node_types" := HDict {[ "a_type" := HStr "a" ]} ]}
       {| raw := "v2" |} None)
    (fun combined =>
       ImportsLoader.merge_parsed_into_combined combined
         {[ "node_types" := HDict {[ "b_type" := HStr "b" ]} ]}
         {| raw := "v2" |} None)
  = Ok {[ "node_types" := HDict {[ "a_type" := HStr "a";
                                    "b_type" := HStr "b" ]} ]}
  ↔ result_bind
      (ImportsLoader.merge_parsed_into_combined ∅
         {[ "node_types" := HDict {[ "b_type" := HStr "b" ]} ]}
         {| raw := "v2" |} None)
      (fun combined =>
         ImportsLoader.merge_parsed_into_combined combined
           {[ "node_types" := HDict {[ "a_type" := HStr "a" ]} ]}
           {| raw := "v2" |} None)
    = Ok {[ "node_types" := HDict {[ "a_type" := HStr "a";
                                      "b_type" := HStr "b" ]} ]}.
Proof.
  assert (∀ d : Document,
            sections_are_mappings ({[ "node_types" := HDict d ]})) as Hmap.
  { intros d key h _ [_ <-]%lookup_singleton_Some. by exists d. }
  exact (merge_of_two_documents_commutes _ _ _ {| raw := "v2" |}
           (Hmap _) (Hmap _)).
Defined.

(** ** Graphs built through [ImportsGraph] *)

Lemma find_node_ensure (G : networkx.DiGraph) n x :
  networkx.find_node (networkx.ensure_node G n) x
  = match networkx.find_node G x with
    | Some y => Some y
    | None => if bool_decide (n = x)
              then Some {| networkx.name := n; networkx.parsed_attr := None;
                           networkx.adj := [] |}
              else None
    end.
Proof.
  unfold networkx.ensure_node.
  destruct (networkx.has_node G n) eqn:Hn.
  - destruct (networkx.find_node G x) as [y|] eqn:Hx; [done|].
    apply has_node_true in Hn. apply find_node_None in Hx.
    rewrite bool_decide_eq_false_2; [done|]. by intros ->.
  - by rewrite find_node_app.
Qed.

Lemma find_node_add_node (G : networkx.DiGraph) n d x :
  networkx.find_node (networkx.add_node G n d) x
  = match networkx.find_node G x with
    | Some y =>
        if bool_decide (x = n)
        then Some {| networkx.name := networkx.name y;
                     networkx.parsed_attr := Some d;
                     networkx.adj := networkx.adj y |}
        else Some y
    | None =>
        if bool_decide (x = n)
        then Some {| networkx.name := n; networkx.parsed_attr := Some d;
                     networkx.adj := [] |}
        else None
    end.
Proof.
  induction G as [|y G IH]; cbn [networkx.add_node networkx.find_node].
  - cbn [networkx.name]. destruct (decide (x = n)) as [->|Hne].
    + by rewrite !bool_decide_eq_true_2.
    + rewrite !bool_decide_eq_false_2; [done|done|by intros ->].
  - destruct (decide (networkx.name y = n)) as [Hy|Hy].
    + rewrite (bool_decide_eq_true_2 _ Hy). cbn [networkx.find_node networkx.name].
      destruct (decide (networkx.name y = x)) as [Hx|Hx].
      * rewrite (bool_decide_eq_true_2 _ Hx).
        rewrite bool_decide_eq_true_2; [done|congruence].
      * rewrite (bool_decide_eq_false_2 _ Hx).
        assert (x ≠ n) as Hxn by congruence.
        rewrite (bool_decide_eq_false_2 _ Hxn).
        by destruct (networkx.find_node G x).
    + rewrite (bool_decide_eq_false_2 _ Hy). cbn [networkx.find_node].
      destruct (decide (networkx.name y = x)) as [Hx|Hx].
      * rewrite (bool_decide_eq_true_2 _ Hx).
        rewrite bool_decide_eq_false_2; [done|congruence].
      * rewrite (bool_decide_eq_false_2 _ Hx). apply IH.
Qed.

Lemma find_node_add_succ_adj (G : networkx.DiGraph) u v x :
  networkx.find_node (networkx.add_succ G u v) x
  = match networkx.find_node G x with
    | Some y =>
        if bool_decide (x = u)
        then Some {| networkx.name := networkx.name y;
                     networkx.parsed_attr := networkx.parsed_attr y;
                     networkx.adj := if bool_decide (v ∈ networkx.adj y)
                                     then networkx.adj y
                                     else networkx.adj y ++ [v] |}
        else Some y
    | None => None
    end.
Proof.
  induction G as [|y G IH]; cbn [networkx.add_succ networkx.find_node]; [done|].
  destruct (decide (networkx.name y = u)) as [Hy|Hy].
  - rewrite (bool_decide_eq_true_2 _ Hy). cbn [networkx.find_node networkx.name].
    destruct (decide (networkx.name y = x)) as [Hx|Hx].
    + rewrite (bool_decide_eq_true_2 _ Hx).
      rewrite (bool_decide_eq_true_2 (x = u)) by congruence. done.
    + rewrite (bool_decide_eq_false_2 _ Hx).
      assert (x ≠ u) as Hxu by congruence.
      rewrite (bool_decide_eq_false_2 _ Hxu).
      by destruct (networkx.find_node G x).
  - rewrite (bool_decide_eq_false_2 _ Hy). cbn [networkx.find_node].
    destruct (decide (networkx.name y = x)) as [Hx|Hx].
    + rewrite (bool_decide_eq_true_2 _ Hx).
      rewrite (bool_decide_eq_false_2 (x = u)) by congruence. done.
    + rewrite (bool_decide_eq_false_2 _ Hx). apply IH.
Qed.

Lemma has_edge_add_node (G : networkx.DiGraph) n d x y :
  networkx.has_edge (networkx.add_node G n d) x y ↔ networkx.has_edge G x y.
Proof.
  unfold networkx.has_edge. setoid_rewrite find_node_add_node.
  destruct (networkx.find_node G x) as [z|]; destruct (bool_decide (x = n));
    split; intros (w & Hw & Hin); simplify_eq; cbn in *;
    try (by apply elem_of_nil in Hin); eauto.
Qed.

Lemma has_edge_add_edge (G : networkx.DiGraph) u v x y :
  networkx.has_edge (networkx.add_edge G u v) x y
  ↔ networkx.has_edge G x y ∨ (x = u ∧ y = v).
Proof.
  unfold networkx.has_edge, networkx.add_edge.
  setoid_rewrite find_node_add_succ_adj. setoid_rewrite find_node_ensure.
  setoid_rewrite find_node_ensure.
  destruct (decide (x = u)) as [->|Hxu].
  - rewrite (bool_decide_eq_true_2 (u = u)) by done.
    destruct (networkx.find_node G u) as [z|] eqn:Hz.
    + split.
      * intros (w & [= <-] & Hin). cbn in Hin.
        destruct (decide (v ∈ networkx.adj z)) as [Hv|Hv].
        -- rewrite (bool_decide_eq_true_2 _ Hv) in Hin. left. eauto.
        -- rewrite (bool_decide_eq_false_2 _ Hv) in Hin.
           apply elem_of_app in Hin as [Hin| ->%list_elem_of_singleton];
             [left; eauto|by right].
      * intros [(w & [= <-] & Hin)|[_ ->]]; eexists; (split; [done|]); cbn.
        -- destruct (bool_decide _); [done|]. apply elem_of_app. by left.
        -- destruct (decide (v ∈ networkx.adj z)) as [Hv|Hv].
           ++ by rewrite (bool_decide_eq_true_2 _ Hv).
           ++ rewrite (bool_decide_eq_false_2 _ Hv). apply elem_of_app.
              right. by left.
    + split.
      * intros (w & [= <-] & Hin). cbn in Hin. right. split; [done|].
        by apply list_elem_of_singleton in Hin.
      * intros [(w & [=] & _)|[_ ->]]. eexists. split; [done|]. cbn. by left.
  - rewrite (bool_decide_eq_false_2 (x = u)) by done.
    rewrite (bool_decide_eq_false_2 (u = x)) by done.
    destruct (networkx.find_node G x) as [z|] eqn:Hz.
    + split; [by left|]. by intros [?|[? _]].
    + destruct (bool_decide (v = x)).
      * split.
        -- intros (w & [= <-] & Hin). by apply elem_of_nil in Hin.
        -- intros [(w & [=] & _)|[? _]]. done.
      * split.
        -- by intros (w & [=] & _).
        -- intros [(w & [=] & _)|[? _]]. done.
Qed.

Lemma nodes_iter_add_edge_ends (G : networkx.DiGraph) u v :
  u ∈ networkx.nodes_iter (networkx.add_edge G u v) ∧
  v ∈ networkx.nodes_iter (networkx.add_edge G u v).
Proof.
  unfold networkx.add_edge. rewrite nodes_iter_add_succ.
  assert (∀ H n, n ∈ networkx.nodes_iter (networkx.ensure_node H n)) as Hin.
  { intros H n. rewrite nodes_iter_ensure_node.
    destruct (networkx.has_node H n) eqn:Hn.
    - by apply has_node_true.
    - apply elem_of_app. right. by left. }
  assert (∀ H n m, m ∈ networkx.nodes_iter H →
                   m ∈ networkx.nodes_iter (networkx.ensure_node H n)) as Hmono.
  { intros H n m Hm. rewrite nodes_iter_ensure_node.
    destruct (networkx.has_node H n); [done|]. apply elem_of_app. by left. }
  split; [apply Hmono, Hin|apply Hin].
Qed.

Lemma closed_add_node (G : networkx.DiGraph) n d :
  closed G → closed (networkx.add_node G n d).
Proof.
  intros HG x y Hxy%has_edge_add_node.
  apply elem_of_nodes_iter_add_node. left. by eapply HG.
Qed.

Lemma closed_add_edge (G : networkx.DiGraph) u v :
  closed G → closed (networkx.add_edge G u v).
Proof.
  intros HG x y [Hxy|[-> ->]]%has_edge_add_edge.
  - apply elem_of_nodes_iter_add_edge. by eapply HG.
  - apply nodes_iter_add_edge_ends.
Qed.

Lemma built_closed (g : ImportsGraph.t) :
  built g →
  closed (ImportsGraph._imports_tree g) ∧
  closed (ImportsGraph._imports_graph g).
Proof.
  induction 1 as [|g k d via _ [IHt IHg]|g k via _ [IHt IHg]].
  - split; intros x y (w & Hw & _); done.
  - unfold ImportsGraph.add.
    set (g1 := if negb _ then _ else g).
    assert (closed (ImportsGraph._imports_tree g1) ∧
            closed (ImportsGraph._imports_graph g1)) as [H1 H2].
    { subst g1. destruct (negb _); [|done]. cbn.
      split; by apply closed_add_node. }
    destruct via as [via|]; [|done].
    destruct (truthy (Some via)); [|done]. cbn.
    split; by apply closed_add_edge.
  - unfold ImportsGraph.add_graph_dependency.
    destruct via as [via|]; [|done].
    destruct (truthy (Some via)); [|done]. cbn.
    split; [done|by apply closed_add_edge].
Qed.

Lemma visit_order_topological (G : networkx.DiGraph) budget nbunch st :
  networkx.visit budget G nbunch networkx.dfs_init = Ok st →
  (∀ x, x ∈ networkx.nodes_iter G → x ∈ nbunch) →
  dfs_inv G st ∧
  (∀ x, x ∈ networkx.nodes_iter G → x ∈ networkx.order st) ∧
  (∀ x y, tc (networkx.has_edge G) x y → precedes (networkx.order st) y x).
Proof.
  intros Hv Hnb.
  destruct (visit_inv G _ _ _ _ (dfs_inv_init G) Hv) as (Hinv & _ & Hexp).
  assert (∀ x, x ∈ networkx.nodes_iter G → x ∈ networkx.order st) as Hall.
  { intros x Hx. apply (inv_order_explored _ _ Hinv). by apply Hexp, Hnb. }
  split; [done|]. split; [done|].
  assert (∀ k via, networkx.has_edge G k via →
                   precedes (networkx.order st) via k) as Hedge.
  { intros k via (node & Hnode & Hvia).
    assert (k ∈ networkx.order st) as Hk.
    { apply Hall. apply find_node_Some in Hnode as [Hin <-].
      apply list_elem_of_fmap. eauto. }
    apply list_elem_of_split in Hk as (l1 & l2 & Heq).
    destruct (inv_post_order _ _ Hinv _ _ _ Heq) as (node' & Hnode' & Hadj).
    rewrite Heq. apply precedes_split. apply Hadj. congruence. }
  intros x y Htc. induction Htc as [x y H|x z y H _ IH].
  - by apply Hedge.
  - eapply precedes_trans; [exact (inv_order_nodup _ _ Hinv)|exact IH|].
    by apply Hedge.
Qed.

(** X7.  The ordering never returns for a tree with a cycle: whatever the
    graph, an ordering it returned would have to put a document before
    itself.  For a graph built through [add] and [add_graph_dependency] the
    failure is the cycle error of [networkx]. *)
Theorem imports_tree_cycle_is_reported (g : ImportsGraph.t) (x : string) :
  tc (networkx.has_edge (ImportsGraph._imports_tree g)) x x →
  (∀ entries, ImportsGraph.topological_sort g ≠ Ok entries) ∧
  (built g →
   ∃ message,
     ImportsGraph.topological_sort g = Raise (NetworkXUnfeasible message)).
Proof.
  intros Hcycle. unfold ImportsGraph.topological_sort.
  set (G := ImportsGraph._imports_tree g) in *.
  unfold networkx.topological_sort. cbn [default].
  destruct (networkx.visit (networkx.search_budget G) G
              (networkx.nodes_iter G) networkx.dfs_init) as [st|e] eqn:Hv.
  - destruct (visit_order_topological G _ _ _ Hv ltac:(done))
      as (Hinv & _ & Htc).
    exfalso. eapply precedes_irrefl; [exact (inv_order_nodup _ _ Hinv)|].
    by apply Htc.
  - cbn [result_bind]. split; [done|]. intros Hb.
    destruct (built_closed g Hb) as [Hclosed _].
    destruct (visit_closed G Hclosed _ _ _ _ (dfs_inv_init G) ltac:(done) Hv)
      as [->|[m ->]].
    + by apply visit_budget in Hv; [|apply dfs_inv_init].
    + by exists m.
Qed.

Lemma imports_tree_cycle_witness :
  ∃ message,
    ImportsGraph.topological_sort cyclic_graph
    = Raise (NetworkXUnfeasible message).
Proof.
  assert (tc (networkx.has_edge (ImportsGraph._imports_tree cyclic_graph))
            "a.yaml" "a.yaml") as Hcycle.
  { apply (tc_l _ _ "b.yaml").
    - eexists. split; [vm_compute; reflexivity|]. left.
    - apply tc_once. eexists. split; [vm_compute; reflexivity|]. left. }
  assert (built cyclic_graph) as Hb by (repeat constructor).
  exact (proj2 (imports_tree_cycle_is_reported cyclic_graph "a.yaml" Hcycle)
           Hb).
Defined.

Lemma entries_raise (G : networkx.DiGraph) (e : exception) (l : list string)
    (acc : list ImportsGraph.entry) :
  (∀ n, n ∈ l → (∃ d, networkx.node_parsed G n = Ok d)
                ∨ networkx.node_parsed G n = Raise e) →
  (∃ n, n ∈ l ∧ networkx.node_parsed G n = Raise e) →
  for_each (fun acc node =>
              result_bind (networkx.node_parsed G node) (fun p =>
                Ok (acc ++ [ {| ImportsGraph.import := node;
                                ImportsGraph.parsed := p |} ])))
           l acc
  = Raise e.
Proof.
  revert acc. induction l as [|n l IH]; intros acc Hall (m & Hm & He).
  { by apply elem_of_nil in Hm. }
  cbn [for_each].
  destruct (Hall n ltac:(left)) as [[d Hd]|Hn].
  - rewrite Hd. cbn [result_bind]. apply IH.
    + intros k Hk. apply Hall. by right.
    + apply elem_of_cons in Hm as [->|Hm]; [congruence|eauto].
  - by rewrite Hn.
Qed.

(** X8.  For a graph built through [add] and [add_graph_dependency] whose
    tree has no cycle: when every node of the tree was registered with a
    document, the ordering returns every node once, with its document, each
    after the node it was registered through; when some node was only named
    as a via and never registered, the ordering fails with the key error of
    the missing [parsed] attribute. *)
Theorem ordering_needs_registered_documents
    (g : ImportsGraph.t) (rank : string → nat) :
  built g →
  ranked (ImportsGraph._imports_tree g) rank →
  ((∀ n, n ∈ networkx.nodes_iter (ImportsGraph._imports_tree g) →
         ∃ d, networkx.node_parsed (ImportsGraph._imports_tree g) n = Ok d) →
   ∃ entries,
     ImportsGraph.topological_sort g = Ok entries ∧
     NoDup (map ImportsGraph.import entries) ∧
     (∀ n, n ∈ map ImportsGraph.import entries
           ↔ n ∈ networkx.nodes_iter (ImportsGraph._imports_tree g)) ∧
     (∀ e, e ∈ entries →
           networkx.node_parsed (ImportsGraph._imports_tree g)
             (ImportsGraph.import e) = Ok (ImportsGraph.parsed e)) ∧
     (∀ k via,
        networkx.has_edge (ImportsGraph._imports_tree g) k via →
        precedes (map ImportsGraph.import entries) via k)) ∧
  ((∃ n, n ∈ networkx.nodes_iter (ImportsGraph._imports_tree g) ∧
         networkx.node_parsed (ImportsGraph._imports_tree g) n
         = Raise (KeyError "parsed")) →
   ImportsGraph.topological_sort g = Raise (KeyError "parsed")).
Proof.
  intros Hb Hranked. destruct (built_closed g Hb) as [Hclosed _].
  unfold ImportsGraph.topological_sort.
  set (G := ImportsGraph._imports_tree g) in *.
  destruct (visit_sorts G rank (networkx.nodes_iter G) Hclosed Hranked
              ltac:(done)) as (st & Hv & Hinv & Hnodes).
  unfold networkx.topological_sort. cbn [default]. rewrite Hv.
  cbn [result_bind]. rewrite rev_involutive. split.
  - intros Hdocs.
    destruct (entries_ok G (networkx.order st) [])
      as (entries & He & Hmap & Hall).
    { intros n Hn. by apply Hdocs, Hnodes. }
    exists entries. split; [done|]. rewrite Hmap.
    split; [exact (inv_order_nodup _ _ Hinv)|]. split; [done|].
    split; [done|]. intros k via Hedge.
    destruct (visit_order_topological G _ _ _ Hv ltac:(done)) as (_ & _ & Htc).
    by apply Htc, tc_once.
  - intros (n & Hn & Hraise). apply entries_raise.
    + intros m Hm%Hnodes. unfold networkx.node_parsed.
      destruct (find_node_is_Some G m Hm) as [node ->].
      destruct (networkx.parsed_attr node); [left; by eexists|by right].
    + exists n. split; [by apply Hnodes|done].
Qed.

Lemma ordering_needs_registered_documents_witness :
  ImportsGraph.topological_sort orphan_graph = Raise (KeyError "parsed").
Proof.
  assert (built orphan_graph) as Hb by (repeat constructor).
  assert (ranked (ImportsGraph._imports_tree orphan_graph)
            (fun n => if bool_decide (n = "a.yaml") then 1 else 0)) as Hr.
  { assert (ImportsGraph._imports_tree orphan_graph
            = [ {| networkx.name := "a.yaml"; networkx.parsed_attr := Some ∅;
                   networkx.adj := ["root"] |};
                {| networkx.name := "root"; networkx.parsed_attr := None;
                   networkx.adj := [] |} ]) as -> by (vm_compute; reflexivity).
    intros x n (node & Hnode & Hin). cbn [networkx.find_node networkx.name] in Hnode.
    destruct (decide ("a.yaml" = x)) as [<-|Hx].
    - rewrite bool_decide_eq_true_2 in Hnode by done. injection Hnode as <-.
      apply list_elem_of_singleton in Hin as ->. vm_compute. lia.
    - rewrite (bool_decide_eq_false_2 _ Hx) in Hnode.
      destruct (bool_decide ("root" = x)); [|done].
      injection Hnode as <-. by apply elem_of_nil in Hin. }
  apply (proj2 (ordering_needs_registered_documents orphan_graph _ Hb Hr)).
  exists "root". split; [|vm_compute; reflexivity].
  apply has_node_true. vm_compute. reflexivity.
Defined.

(** ** The resolver log of a pass *)

Lemma fetched_bound env resolver root_location (D : gset string) s :
  (∀ u, is_Some (resolver u) → u ∈ D) →
  fetch_inv env resolver root_location s →
  length (fetched s) ≤ size D.
Proof.
  intros HD (Hnd & _ & Hf & _).
  rewrite <-(size_list_to_set (C:=gset string) (fetched s) Hnd).
  apply subseteq_size. intros u Hu%elem_of_list_to_set.
  apply HD. by apply Hf.
Qed.

Section fetch.
Context (env : Environment) (resources_base_url : option string)
        (resolver : Resolver) (root_location : string) (D : gset string).
Context (bounded : Prop) (HD : bounded → ∀ u, is_Some (resolver u) → u ∈ D).

Lemma build_recursive_fetch depth current current_import s0 :
  (resolves_nonempty env →
   ImportsLoader.location current_import ∈ root_location :: fetched s0) →
  (bounded → size D < depth + length (fetched s0)) →
  triple
    (fun s => fetch_inv env resolver root_location s ∧
              fetched s0 `prefix_of` fetched s)
    (ImportsLoader._build_ordered_imports_recursive depth env
       resources_base_url resolver current current_import)
    (fun _ s' => fetch_inv env resolver root_location s' ∧
                 fetched s0 `prefix_of` fetched s')
    (fun e _ => bounded → e ≠ RecursionError).
Proof.
  revert current current_import s0.
  induction depth as [|depth IH]; intros current current_import s0 Hcur Hd.
  { intros s [Hs Hpre] Hb. pose proof (fetched_bound _ _ _ D s (HD Hb) Hs).
    apply prefix_length in Hpre. specialize (Hd Hb). lia. }
  cbn [ImportsLoader._build_ordered_imports_recursive].
  destruct (get_item constants.IMPORTS current).2 as [h|]; [|by intros s Hs].
  apply triple_for. intros item _ s2 [Hs2 Hpre].
  destruct item as [another_import| |]; [|by cbn..].
  destruct (ImportsLoader._get_resource_location env another_import
              resources_base_url) as [import_url|] eqn:Hloc; [|by cbn].
  unfold bind at 1, get_graph.
  destruct (ImportsGraph.contains (imports_graph s2) import_url) eqn:Hknown.
  { unfold modify_graph. cbv beta iota.
    destruct Hs2 as (Hnd & Hl & Hf & Hnodes).
    split; [|done]. split; [done|]. split; [done|].
    cbn [imports_graph fetched loaded]. split.
    - intros u Hu. rewrite contains_add_graph_dependency. by apply Hf.
    - intros Hne. rewrite add_graph_dependency_tree. by apply Hnodes. }
  destruct Hs2 as (Hnd & Hl & Hf & Hnodes).
  assert (import_url ∉ fetched s2) as Hfresh.
  { intros Hin. apply Hf in Hin as [Hin _]. congruence. }
  unfold bind at 1, ImportsLoader.fetch.
  destruct (resolver import_url) as [raw|] eqn:Hraw; [|done].
  unfold bind at 1, ImportsLoader.load. cbn [imports_graph fetched loaded].
  destruct (yaml_load env raw another_import) as [holder|]; [|done].
  unfold bind at 1, modify_graph. cbn [imports_graph fetched loaded].
  match goal with
  | |- context [ImportsLoader._build_ordered_imports_recursive _ _ _ _ _ _ ?s1] =>
      set (s3 := s1)
  end.
  assert (fetch_inv env resolver root_location s3) as Hs3.
  { subst s3. split; [|split; [|split]]; cbn [imports_graph fetched loaded].
    - apply NoDup_app. split; [done|]. split; [|apply NoDup_singleton].
      by intros x Hx ->%list_elem_of_singleton.
    - by rewrite Hl.
    - intros u [Hu|Hu]%elem_of_app.
      + destruct (Hf u Hu) as [Hc Hr]. split; [by apply contains_add|done].
      + apply list_elem_of_singleton in Hu as ->.
        split; [apply contains_add_self|by rewrite Hraw].
    - intros Hne. rewrite add_new_tree.
      + rewrite nodes_iter_app, (Hnodes Hne). by rewrite app_comm_cons.
      + done.
      + unfold ImportsGraph.contains. apply has_node_true.
        rewrite (Hnodes Hne).
        specialize (Hcur Hne). apply elem_of_cons in Hcur as [->|Hcur];
          [left|right]. by eapply elem_of_prefix.
      + apply location_nonempty. }
  assert (fetched s3 = fetched s2 ++ [import_url]) as Hf3 by done.
  assert (length (fetched s0) ≤ length (fetched s2)) as Hlen
    by (by apply prefix_length).
  assert (resolves_nonempty env →
          ImportsLoader.location (Some import_url)
            ∈ root_location :: fetched s3) as Hcur3.
  { intros Hne. rewrite location_Some by (by eapply Hne).
    rewrite Hf3. right. apply elem_of_app. right. by left. }
  assert (bounded → size D < depth + length (fetched s3)) as Hd3.
  { intros Hb. specialize (Hd Hb). rewrite Hf3, length_app. cbn [length]. lia. }
  pose proof (IH holder (Some import_url) s3 Hcur3 Hd3 s3
                (conj Hs3 (reflexivity _))) as Hrec.
  destruct (ImportsLoader._build_ordered_imports_recursive _ _ _ _ _ _ s3)
    as [[[]|e] s4]; [|done].
  destruct Hrec as [Hs4 Hpre4].
  split; [done|]. etrans; [exact Hpre|]. etrans; [|exact Hpre4].
  rewrite Hf3. by apply prefix_app_r.
Qed.

End fetch.

Lemma visit_raise_kind (G : networkx.DiGraph) budget nbunch st e :
  networkx.visit budget G nbunch st = Raise e →
  e = Diverged ∨ (∃ k, e = KeyError k) ∨ (∃ m, e = NetworkXUnfeasible m).
Proof.
  revert st. induction nbunch as [|v nbunch IH]; intros st; cbn [networkx.visit].
  { discriminate. }
  destruct (bool_decide (v ∈ networkx.explored st)); [apply IH|].
  destruct (networkx.explore budget G [v] st) as [st'|e'] eqn:He.
  - cbn [result_bind]. apply IH.
  - cbn [result_bind]. intros [= <-]. by eapply explore_raise_kind.
Qed.

Lemma entries_raise_kind (G : networkx.DiGraph) (l : list string)
    (acc : list ImportsGraph.entry) e :
  for_each (fun acc node =>
              result_bind (networkx.node_parsed G node) (fun p =>
                Ok (acc ++ [ {| ImportsGraph.import := node;
                                ImportsGraph.parsed := p |} ])))
           l acc
  = Raise e →
  ∃ k, e = KeyError k.
Proof.
  revert acc. induction l as [|n l IH]; intros acc; cbn [for_each].
  { discriminate. }
  unfold networkx.node_parsed at 1.
  destruct (networkx.find_node G n) as [x|]; cbn [result_bind].
  - destruct (networkx.parsed_attr x); cbn [result_bind]; [apply IH|].
    intros [= <-]. by eexists.
  - intros [= <-]. by eexists.
Qed.

Lemma imports_graph_sort_raise_kind (g : ImportsGraph.t) e :
  ImportsGraph.topological_sort g = Raise e →
  e = Diverged ∨ (∃ k, e = KeyError k) ∨ (∃ m, e = NetworkXUnfeasible m).
Proof.
  unfold ImportsGraph.topological_sort, networkx.topological_sort.
  destruct (networkx.visit _ _ _ _) as [st|e'] eqn:Hv; cbn [result_bind].
  - intros H%entries_raise_kind. by right; left.
  - intros [= <-]. by eapply visit_raise_kind.
Qed.

Lemma build_ordered_imports_fetch (D : gset string) (bounded : Prop)
    depth env parsed_dsl_holder dsl_location resources_base_url resolver :
  (bounded → ∀ u, is_Some (resolver u) → u ∈ D) →
  let pass := ImportsLoader._build_ordered_imports depth env parsed_dsl_holder
                dsl_location resources_base_url resolver in
  (bounded → size D < depth → pass.1 ≠ Raise RecursionError) ∧
  (∀ entries, pass.1 = Ok entries →
     fetch_inv env resolver (ImportsLoader.location dsl_location) pass.2).
Proof.
  intros HD pass.
  set (s1 := {| imports_graph :=
                  ImportsGraph.add ImportsGraph.init
                    (ImportsLoader.location dsl_location) parsed_dsl_holder None;
                fetched := []; loaded := [] |}).
  assert (pass =
          let (r, s') :=
            ImportsLoader._build_ordered_imports_recursive depth env
              resources_base_url resolver parsed_dsl_holder dsl_location s1 in
          match r with
          | Ok _ => (ImportsGraph.topological_sort (imports_graph s'), s')
          | Raise e => (Raise e, s')
          end) as Hpass by reflexivity.
  clearbody pass.
  assert (fetch_inv env resolver (ImportsLoader.location dsl_location) s1)
    as Hs1.
  { split; [apply NoDup_nil_2|]. split; [done|]. split.
    - by intros u ?%elem_of_nil.
    - intros _. done. }
  pose proof (build_recursive_fetch env resources_base_url resolver
                (ImportsLoader.location dsl_location) D
                (bounded ∧ size D < depth)
                ltac:(intros [Hb _]; by apply HD)
                depth parsed_dsl_holder dsl_location s1
                ltac:(intros _; left)
                ltac:(intros [_ Hb]; cbn; lia)
                s1 (conj Hs1 (reflexivity _))) as Hrec.
  destruct (ImportsLoader._build_ordered_imports_recursive _ _ _ _ _ _ _)
    as [[[]|e] s']; subst pass; cbn [fst snd].
  - destruct Hrec as [Hs' _]. split; [|done].
    intros _ _ Hsort. apply imports_graph_sort_raise_kind in Hsort
      as [?|[[? ?]|[? ?]]]; done.
  - split; [|done]. intros Hb Hd [= ->]. by apply Hrec.
Qed.

(** X9.  When the resolver can fetch only the locations of a finite set and
    the interpreter allows more nested calls than that set has locations,
    the discovery of the imports never reaches the recursion limit: a nested
    call is only made for a location fetched for the first time, so imports
    that refer to each other in a cycle cannot recurse forever. *)
Theorem recursion_is_bounded_by_locations
    (depth : nat) (env : Environment) (parsed_dsl_holder : Document)
    (dsl_location resources_base_url : option string) (resolver : Resolver)
    (D : gset string) :
  (∀ u, is_Some (resolver u) → u ∈ D) →
  size D < depth →
  (ImportsLoader._build_ordered_imports depth env parsed_dsl_holder
     dsl_location resources_base_url resolver).1
  ≠ Raise RecursionError.
Proof.
  intros HD Hd.
  destruct (build_ordered_imports_fetch D True depth env parsed_dsl_holder
              dsl_location resources_base_url resolver (fun _ => HD))
    as [Hrec _].
  by apply Hrec.
Qed.

Lemma recursion_is_bounded_witness :
  (ImportsLoader._build_ordered_imports 3 (table_env cyclic_files) cyclic_root
     None (Some "base") (table_resolver cyclic_files)).1
  ≠ Raise RecursionError.
Proof.
  assert (∀ u, is_Some (table_resolver cyclic_files u) →
               u ∈ ({[ "base/a.yaml"; "base/b.yaml" ]} : gset string)) as HD.
  { intros u. unfold table_resolver.
    change (cyclic_files.*1) with ["base/a.yaml"; "base/b.yaml"].
    destruct (decide (u ∈ ["base/a.yaml"; "base/b.yaml"])) as [Hu|Hu].
    - intros _. set_solver.
    - rewrite (bool_decide_eq_false_2 _ Hu). by intros [? ?]. }
  assert (size ({[ "base/a.yaml"; "base/b.yaml" ]} : gset string) < 3) as Hd.
  { vm_compute. lia. }
  exact (recursion_is_bounded_by_locations 3 (table_env cyclic_files)
           cyclic_root None (Some "base") (table_resolver cyclic_files) _
           HD Hd).
Defined.

(** X10.  When a pass returns, its entries are the root location and the
    locations handed to the resolver, each once: every location that was
    fetched is in the ordering, and nothing else but the root is.  Every
    fetch succeeded, every fetched text was parsed, no location was fetched
    twice and the root location was never fetched. *)
Theorem ordering_lists_root_and_fetched
    (depth : nat) (env : Environment) (parsed_dsl_holder : Document)
    (dsl_location resources_base_url : option string) (resolver : Resolver)
    (entries : list ImportsGraph.entry) :
  resolves_nonempty env →
  let pass := ImportsLoader._build_ordered_imports depth env parsed_dsl_holder
                dsl_location resources_base_url resolver in
  pass.1 = Ok entries →
  map ImportsGraph.import entries
    ≡ₚ ImportsLoader.location dsl_location :: fetched pass.2 ∧
  (∀ u, u ∈ fetched pass.2 → is_Some (resolver u)) ∧
  loaded pass.2 = fetched pass.2 ∧
  NoDup (ImportsLoader.location dsl_location :: fetched pass.2).
Proof.
  intros Hne pass He. subst pass.
  destruct (build_ordered_imports_fetch ∅ False depth env parsed_dsl_holder
              dsl_location resources_base_url resolver ltac:(done))
    as [_ Hfetch].
  destruct (Hfetch entries He) as (_ & Hl & Hf & Hnodes).
  specialize (Hnodes Hne).
  destruct (build_ordered_imports_outcome depth env parsed_dsl_holder
              dsl_location resources_base_url resolver) as (_ & _ & Hreg).
  destruct (Hreg Hne) as (_ & docs & Hdocs & _ & Hsort).
  specialize (Hsort entries He).
  destruct (registered_ordering _ _ Hdocs) as (entries' & He' & Hperm & _).
  assert (entries' = entries) as -> by congruence.
  split; [|split; [|split; [done|]]].
  - rewrite <-Hnodes.
    rewrite (discovery_tree_nodes _ _ (registered_tree _ _ Hdocs)).
    by rewrite <-Hperm, <-list_fmap_compose.
  - intros u Hu. by apply Hf.
  - rewrite <-Hnodes.
    rewrite (discovery_tree_nodes _ _ (registered_tree _ _ Hdocs)).
    exact (discovery_tree_NoDup _ _ (registered_tree _ _ Hdocs)).
Qed.

Lemma ordering_lists_root_and_fetched_witness :
  match (ImportsLoader._build_ordered_imports 10 (table_env cyclic_files)
           cyclic_root None (Some "base") (table_resolver cyclic_files)).1
  with
  | Ok entries =>
      map ImportsGraph.import entries
      ≡ₚ "root"
         :: fetched
              (ImportsLoader._build_ordered_imports 10 (table_env cyclic_files)
                 cyclic_root None (Some "base")
                 (table_resolver cyclic_files)).2
  | Raise _ => False
  end.
Proof.
  assert (is_ok (ImportsLoader._build_ordered_imports 10
                   (table_env cyclic_files) cyclic_root None (Some "base")
                   (table_resolver cyclic_files)).1 = true) as Hok.
  { vm_compute. reflexivity. }
  destruct (ImportsLoader._build_ordered_imports 10 (table_env cyclic_files)
              cyclic_root None (Some "base") (table_resolver cyclic_files)).1
    as [entries|e] eqn:H; [|discriminate Hok].
  exact (proj1 (ordering_lists_root_and_fetched 10 (table_env cyclic_files)
                  cyclic_root None (Some "base") (table_resolver cyclic_files)
                  entries (table_env_resolves_nonempty cyclic_files) H)).
Defined.

(** ** The whole pass: whose values reach the result *)

Lemma merge_parsed_cases (combined imported combined' : Document) version j :
  ImportsLoader.merge_parsed_into_combined combined imported version None
    = Ok combined' →
  match imported !! j with
  | None => combined' !! j = combined !! j
  | Some v =>
      (j ∈ ImportsLoader.IGNORE ∧ combined' !! j = combined !! j) ∨
      ((j ∉ ImportsLoader.IGNORE) ∧ combined !! j = None ∧
       combined' !! j = Some v) ∨
      ((j ∉ ImportsLoader.IGNORE) ∧ j ∈ ImportsLoader.MERGE_NO_OVERRIDE ∧
       is_Some (combined !! j) ∧ is_Some (combined' !! j))
  end.
Proof.
  intros [Hj Hok]%merge_parsed_spec. rewrite (Hj j). unfold merged_lookup.
  destruct (imported !! j) as [v|] eqn:Hjv; [|done].
  specialize (Hok j v Hjv).
  destruct (merge_value _ _ _ _) as [r|e] eqn:Hr; [|done].
  apply merge_value_ok in Hr
    as [[Hi ->]|[(Hi & Hc & ->)|(Hi & Hm & t & h & Hc & _ & ->)]].
  - by left.
  - right. by left.
  - right. right. rewrite Hc. by eauto.
Qed.

Lemma combine_step_cases validate_version version
    (combined combined' : Document) (e : ImportsGraph.entry) j :
  ImportsLoader.combine_step validate_version version combined e
    = Ok combined' →
  match ImportsGraph.parsed e !! j with
  | None => combined' !! j = combined !! j
  | Some v =>
      (j ∈ ImportsLoader.IGNORE ∧ combined' !! j = combined !! j) ∨
      ((j ∉ ImportsLoader.IGNORE) ∧ combined !! j = None ∧
       combined' !! j = Some v) ∨
      ((j ∉ ImportsLoader.IGNORE) ∧ j ∈ ImportsLoader.MERGE_NO_OVERRIDE ∧
       is_Some (combined !! j) ∧ is_Some (combined' !! j))
  end.
Proof.
  unfold ImportsLoader.combine_step.
  intros (_u & _ & H)%result_bind_ok. by eapply merge_parsed_cases.
Qed.

Lemma combine_loop_keeps validate_version version
    (entries : list ImportsGraph.entry) (combined combined' : Document)
    key value :
  for_each (ImportsLoader.combine_step validate_version version)
    entries combined = Ok combined' →
  combined !! key = Some value →
  key ∉ ImportsLoader.MERGE_NO_OVERRIDE →
  combined' !! key = Some value.
Proof.
  revert combined. induction entries as [|e entries IH]; intros combined.
  { cbn. by intros [= <-]. }
  cbn [for_each]. intros (c1 & H1 & H)%result_bind_ok Hc Hm.
  apply (IH c1 H); [|done].
  pose proof (combine_step_cases _ _ _ _ _ key H1) as Hcase.
  destruct (ImportsGraph.parsed e !! key) as [v|]; [|congruence].
  destruct Hcase as [[_ ?]|[(_ & ? & _)|(_ & ? & _)]]; congruence.
Qed.

Lemma combine_loop_dom validate_version version
    (entries : list ImportsGraph.entry) (combined combined' : Document) key :
  for_each (ImportsLoader.combine_step validate_version version)
    entries combined = Ok combined' →
  key ∉ ImportsLoader.IGNORE →
  is_Some (combined' !! key)
  ↔ is_Some (combined !! key)
    ∨ ∃ e, e ∈ entries ∧ is_Some (ImportsGraph.parsed e !! key).
Proof.
  intros H Hi. revert combined H.
  induction entries as [|e entries IH]; intros combined.
  { cbn. intros [= <-]. split; [by left|].
    intros [?|(e & ?%elem_of_nil & _)]; done. }
  cbn [for_each]. intros (c1 & H1 & H)%result_bind_ok.
  rewrite (IH c1 H).
  pose proof (combine_step_cases _ _ _ _ _ key H1) as Hcase.
  destruct (ImportsGraph.parsed e !! key) as [v|] eqn:Hv.
  - destruct Hcase as [[? _]|[(_ & Hc & Hc1)|(_ & _ & Hc & Hc1)]]; [done| |].
    + split.
      * intros _. right. exists e. split; [left|by rewrite Hv].
      * intros _. left. by rewrite Hc1.
    + split.
      * intros _. by left.
      * intros _. by left.
  - rewrite Hcase. split.
    + intros [?|(e' & He' & Hk)]; [by left|].
      right. exists e'. split; [by right|done].
    + intros [?|(e' & [->|He']%elem_of_cons & Hk)]; [by left| |].
      * rewrite Hv in Hk. by destruct Hk.
      * right. by exists e'.
Qed.

Lemma pass_head depth env parsed_dsl_holder dsl_location resources_base_url
    resolver entries :
  resolves_nonempty env →
  (ImportsLoader._build_ordered_imports depth env parsed_dsl_holder
     dsl_location resources_base_url resolver).1 = Ok entries →
  ∃ rest,
    entries
    = {| ImportsGraph.import := ImportsLoader.location dsl_location;
         ImportsGraph.parsed := parsed_dsl_holder |} :: rest.
Proof.
  intros Hne He.
  destruct (build_ordered_imports_outcome depth env parsed_dsl_holder
              dsl_location resources_base_url resolver) as (_ & _ & Hreg).
  destruct (Hreg Hne) as (_ & docs & Hdocs & Hhead & Hsort).
  specialize (Hsort entries He).
  destruct (registered_ordering _ _ Hdocs)
    as (entries' & He' & Hperm & Hfirst & _).
  assert (entries' = entries) as -> by congruence.
  pose proof (discovery_tree_NoDup _ _ (registered_tree _ _ Hdocs)) as Hk.
  destruct entries as [|[ei ep] rest].
  { apply Permutation_nil_l in Hperm. by subst docs. }
  exists rest. destruct docs as [|[k d] docs']; [done|].
  cbn in Hhead, Hfirst, Hperm. simplify_eq. do 2 f_equal.
  eapply (NoDup_fst_unique _ _ _ _ Hk); [|left].
  rewrite <-Hperm. left.
Qed.

(** X11.  When a pass succeeds, what the root document declares outside the
    ignore and the no-override sections is in the result with the root's
    value, whatever the imports declare; and outside the ignore sections the
    keys of the result are exactly the keys that some ordered document
    declares. *)
Theorem root_values_reach_the_result
    (depth : nat) (env : Environment) (parsed_dsl_holder : Document)
    (dsl_location resources_base_url : option string) (version : VersionNumber)
    (resolver : Resolver) (validate_version : bool)
    (merged : gmap (option string) (option Holder)) :
  resolves_nonempty env →
  ImportsLoader._combine_imports depth env parsed_dsl_holder dsl_location
    resources_base_url version resolver validate_version = Ok merged →
  (∀ key value,
     parsed_dsl_holder !! key = Some value →
     key ∉ ImportsLoader.IGNORE →
     key ∉ ImportsLoader.MERGE_NO_OVERRIDE →
     merged !! Some key = Some (Some value)) ∧
  ∃ entries,
    (ImportsLoader._build_ordered_imports depth env parsed_dsl_holder
       dsl_location resources_base_url resolver).1 = Ok entries ∧
    ∀ key, key ∉ ImportsLoader.IGNORE →
      is_Some (merged !! Some key)
      ↔ ∃ e, e ∈ entries ∧ is_Some (ImportsGraph.parsed e !! key).
Proof.
  intros Hne. unfold ImportsLoader._combine_imports. intros H.
  apply result_bind_ok in H as (entries & He & H).
  destruct (get_item VERSION parsed_dsl_holder) as [vk vv] eqn:Hitem.
  apply result_bind_ok in H as (holder_result & Hloop & [= <-]).
  assert (∀ key, key ∉ ImportsLoader.IGNORE →
            (<[vk := vv]> (kmap Some (Some <$> holder_result))
               : gmap (option string) (option Holder)) !! Some key
            = Some <$> holder_result !! key) as Hlook.
  { intros key Hi. rewrite lookup_insert_ne.
    - by rewrite (lookup_kmap Some), lookup_fmap.
    - unfold get_item in Hitem.
      destruct (parsed_dsl_holder !! VERSION); simplify_eq; [|done].
      intros [= <-]. apply Hi. vm_compute. reflexivity. }
  split.
  - intros key value Hroot Hi Hm. rewrite (Hlook key Hi).
    destruct (pass_head _ _ _ _ _ _ _ Hne He) as [rest ->].
    cbn [for_each] in Hloop.
    apply result_bind_ok in Hloop as (c1 & H1 & Hrest).
    pose proof (combine_step_cases _ _ _ _ _ key H1) as Hcase.
    cbn [ImportsGraph.parsed] in Hcase. rewrite Hroot in Hcase.
    assert (c1 !! key = Some value) as Hc1.
    { destruct Hcase as [[? _]|[(_ & _ & ?)|(_ & ? & _)]]; done. }
    by rewrite (combine_loop_keeps _ _ _ _ _ _ _ Hrest Hc1 Hm).
  - exists entries. split; [done|]. intros key Hi.
    rewrite (Hlook key Hi), fmap_is_Some.
    rewrite (combine_loop_dom _ _ _ _ _ key Hloop Hi).
    rewrite lookup_empty. split; [|by right].
    intros [[? ?]|?]; done.
Qed.

Lemma root_values_reach_the_result_witness :
  match ImportsLoader._combine_imports 10 (table_env cyclic_files)
          described_root None (Some "base") {| raw := "v2" |}
          (table_resolver cyclic_files) false
  with
  | Ok merged => merged !! Some "description" = Some (Some (HStr "root"))
  | Raise _ => False
  end.
Proof.
  assert (is_ok (ImportsLoader._combine_imports 10 (table_env cyclic_files)
                   described_root None (Some "base") {| raw := "v2" |}
                   (table_resolver cyclic_files) false) = true) as Hok.
  { vm_compute. reflexivity. }
  destruct (ImportsLoader._combine_imports 10 (table_env cyclic_files)
              described_root None (Some "base") {| raw := "v2" |}
              (table_resolver cyclic_files) false)
    as [merged|e] eqn:H; [|discriminate Hok].
  apply (proj1 (root_values_reach_the_result 10 (table_env cyclic_files)
                  described_root None (Some "base") {| raw := "v2" |}
                  (table_resolver cyclic_files) false merged
                  (table_env_resolves_nonempty cyclic_files) H)).
  - reflexivity.
  - vm_compute. intros Hin. discriminate Hin.
  - vm_compute. intros Hin. discriminate Hin.
Defined.

Lemma single_entry_ordering (k : string) (d : Document) :
  ImportsGraph.topological_sort (ImportsGraph.add ImportsGraph.init k d None)
  = Ok [ {| ImportsGraph.import := k; ImportsGraph.parsed := d |} ].
Proof.
  destruct (registered_ordering _ _ (reg_root k d))
    as (entries & He & Hperm & _).
  rewrite He. f_equal.
  apply Permutation_singleton_r in Hperm.
  destruct entries as [|[ei ep] [|? ?]]; cbn in Hperm; by simplify_eq.
Qed.

(** X12.  A root document without an imports declaration is a pass of its
    own: nothing is fetched, the ordering holds the root alone, and the
    result is the root without its ignore sections, with its version item
    attached; with version validation enabled, the root's own version is
    checked against the version given to the pass, and the pass fails with
    what that check raises. *)
Theorem document_without_imports_merges_to_itself
    (depth : nat) (env : Environment) (parsed_dsl_holder : Document)
    (dsl_location resources_base_url : option string) (version : VersionNumber)
    (resolver : Resolver) (validate_version : bool) :
  parsed_dsl_holder !! constants.IMPORTS = None →
  let pass := ImportsLoader._build_ordered_imports (S depth) env
                parsed_dsl_holder dsl_location resources_base_url resolver in
  pass.1 = Ok [ {| ImportsGraph.import := ImportsLoader.location dsl_location;
                   ImportsGraph.parsed := parsed_dsl_holder |} ] ∧
  fetched pass.2 = [] ∧
  ImportsLoader._combine_imports (S depth) env parsed_dsl_holder dsl_location
    resources_base_url version resolver validate_version
  = result_bind
      (if validate_version
       then ImportsLoader._validate_version (raw version)
              (ImportsLoader.location dsl_location) parsed_dsl_holder
       else Ok tt)
      (fun _ =>
         Ok (<[(get_item VERSION parsed_dsl_holder).1
               := (get_item VERSION parsed_dsl_holder).2]>
               (kmap Some (Some <$> without_ignored parsed_dsl_holder)))).
Proof.
  intros Himports pass.
  assert (pass
          = (ImportsGraph.topological_sort
               (ImportsGraph.add ImportsGraph.init
                  (ImportsLoader.location dsl_location) parsed_dsl_holder None),
             {| imports_graph :=
                  ImportsGraph.add ImportsGraph.init
                    (ImportsLoader.location dsl_location) parsed_dsl_holder
                    None;
                fetched := []; loaded := [] |})) as Hpass.
  { subst pass. unfold ImportsLoader._build_ordered_imports,
      ImportsLoader._build_ordered_imports_M.
    unfold bind at 1, modify_graph. cbv beta iota.
    unfold bind at 1. cbn [ImportsLoader._build_ordered_imports_recursive].
    unfold get_item. rewrite Himports. cbn [snd ret]. reflexivity. }
  rewrite single_entry_ordering in Hpass.
  split; [by rewrite Hpass|]. split; [by rewrite Hpass|].
  unfold ImportsLoader._combine_imports. fold pass. rewrite Hpass.
  cbn [fst result_bind for_each].
  destruct (get_item VERSION parsed_dsl_holder) as [vk vv] eqn:Hitem.
  unfold ImportsLoader.combine_step.
  cbn [ImportsGraph.import ImportsGraph.parsed fst snd].
  destruct (if validate_version then _ else _) as [[]|e]; [|done].
  cbn [result_bind]. by rewrite merge_alone.
Qed.

Lemma document_without_imports_witness :
  (ImportsLoader._build_ordered_imports 1 (table_env []) {[ "inputs" := HStr "i" ]}
     None None (table_resolver [])).1
  = Ok [ {| ImportsGraph.import := "root";
            ImportsGraph.parsed := {[ "inputs" := HStr "i" ]} |} ].
Proof.
  assert (({[ "inputs" := HStr "i" ]} : Document) !! constants.IMPORTS = None)
    as H by reflexivity.
  exact (proj1 (document_without_imports_merges_to_itself 0 (table_env [])
                  _ None None {| raw := "v2" |} (table_resolver []) false H)).
Defined.

(** ** What the component types hold *)

Lemma parse_Ok fw self super_type cts p :
  DataType.parse fw self super_type cts = Ok p →
  DataType.merged_component_types p
  = foldl (fun merged component => DataType.update merged component) ∅ cts ∧
  DataType.component_types p
  = <[DataType.name self := PyDict (DataType.result_value p)]>
      (DataType.merged_component_types p).
Proof.
  unfold DataType.parse. intros H.
  apply result_bind_ok in H as (result & _ & [= <-]).
  cbn [DataType.merged_component_types DataType.component_types
       DataType.result_value]. split; [done|].
  unfold DataType.update at 1. by rewrite (right_id_L ∅ (∪)).
Qed.

Lemma merged_lookup_Some (cts : list ComponentTypes) (acc : ComponentTypes)
    n v :
  foldl (fun merged component => DataType.update merged component) acc cts
    !! n = Some v →
  acc !! n = Some v ∨ ∃ c, c ∈ cts ∧ c !! n = Some v.
Proof.
  revert acc. induction cts as [|c cts IH]; intros acc; cbn [foldl].
  { by left. }
  intros [H|(c' & Hc' & H)]%IH.
  - unfold DataType.update in H.
    apply lookup_union_Some_raw in H as [H|[_ H]]; [|by left].
    right. exists c. split; [left|done].
  - right. exists c'. split; [by right|done].
Qed.

Lemma merged_lookup_frame (cts : list ComponentTypes) (acc : ComponentTypes) n :
  (∀ c, c ∈ cts → c !! n = None) →
  foldl (fun merged component => DataType.update merged component) acc cts
    !! n = acc !! n.
Proof.
  revert acc. induction cts as [|c cts IH]; intros acc Hnone; cbn [foldl].
  { done. }
  rewrite IH by (intros c' Hc'; apply Hnone; by right).
  unfold DataType.update. rewrite lookup_union_r; [done|]. apply Hnone. left.
Qed.

(** X13.  The component types a data type publishes hold its own parsed
    value under its own name, whatever the merged component types held
    there, and are the merged component types everywhere else; where several
    required component types hold the same name, the merged component types
    take the value of the last one, and a name none of them holds is not
    in the merged component types. *)
Theorem own_result_is_published
    (fw : Framework) (self : DataType.t)
    (super_type : option (gmap string pyvalue))
    (component_types : list ComponentTypes) (p : DataType.parsed) :
  DataType.parse fw self super_type component_types = Ok p →
  DataType.component_types p !! DataType.name self
    = Some (PyDict (DataType.result_value p)) ∧
  (∀ n, n ≠ DataType.name self →
        DataType.component_types p !! n
        = DataType.merged_component_types p !! n) ∧
  (∀ l1 c l2 n v,
     component_types = l1 ++ c :: l2 →
     c !! n = Some v →
     (∀ c', c' ∈ l2 → c' !! n = None) →
     DataType.merged_component_types p !! n = Some v) ∧
  (∀ n, (∀ c, c ∈ component_types → c !! n = None) →
        DataType.merged_component_types p !! n = None).
Proof.
  intros [Hm Hc]%parse_Ok. split; [|split; [|split]].
  - by rewrite Hc, lookup_insert_eq.
  - intros n Hn. by rewrite Hc, lookup_insert_ne.
  - intros l1 c l2 n v -> Hv Hlast. rewrite Hm, foldl_app. cbn [foldl].
    rewrite merged_lookup_frame by done.
    unfold DataType.update. by apply lookup_union_Some_l.
  - intros n Hnone. rewrite Hm, merged_lookup_frame by done.
    apply lookup_empty.
Qed.

Lemma own_result_is_published_witness :
  match DataType.parse plain_framework pair_type None
          [ {[ "point" := PyDict ∅ ]}; {[ "base" := PyDict ∅ ]} ]
  with
  | Ok p =>
      DataType.component_types p !! "pair"
      = Some (PyDict (DataType.result_value p))
  | Raise _ => False
  end.
Proof.
  assert (is_ok (DataType.parse plain_framework pair_type None
                   [ {[ "point" := PyDict ∅ ]}; {[ "base" := PyDict ∅ ]} ])
          = true) as Hok by (vm_compute; reflexivity).
  destruct (DataType.parse plain_framework pair_type None _)
    as [p|e] eqn:H; [|discriminate Hok].
  exact (proj1 (own_result_is_published _ _ _ _ _ H)).
Defined.

Lemma evaluate_carries_results fw document
    (order : list DataType.t) (acc evaluated : gmap string DataType.parsed) :
  NoDup (map DataType.name order) →
  (∀ T, T ∈ order → acc !! DataType.name T = None) →
  (∀ T p n v,
     acc !! T = Some p → DataType.component_types p !! n = Some v →
     ∃ q, acc !! n = Some q ∧ v = PyDict (DataType.result_value q)) →
  for_each
    (fun evaluated source =>
       result_bind
         (DataTypes.resolve_component_types document evaluated source)
         (fun component_types =>
            result_bind
              (DataType.parse fw source
                 (DataTypes.resolve_super_type evaluated source)
                 component_types)
              (fun p => Ok (<[DataType.name source := p]> evaluated))))
    order acc = Ok evaluated →
  ∀ T p n v,
    evaluated !! T = Some p → DataType.component_types p !! n = Some v →
    ∃ q, evaluated !! n = Some q ∧ v = PyDict (DataType.result_value q).
Proof.
  revert acc. induction order as [|S order IH]; intros acc Hnd Hfresh Hacc H.
  { cbn in H. by simplify_eq. }
  cbn [for_each] in H. apply result_bind_ok in H as (acc1 & H1 & H).
  apply result_bind_ok in H1 as (cts & Hcts & H1).
  apply result_bind_ok in H1 as (pS & HpS & [= <-]).
  rewrite fmap_cons in Hnd. apply NoDup_cons in Hnd as [HS Hnd].
  assert (acc !! DataType.name S = None) as HaccS by (apply Hfresh; left).
  pose proof (resolve_component_types_spec _ _ _ _ Hcts) as Hres.
  destruct (parse_Ok _ _ _ _ _ HpS) as [Hm Hc].
  assert (∀ n v, n ≠ DataType.name S →
            DataType.component_types pS !! n = Some v →
            ∃ q, acc !! n = Some q ∧ v = PyDict (DataType.result_value q))
    as HpS'.
  { intros n v Hn. rewrite Hc, lookup_insert_ne by done. rewrite Hm.
    intros [Hv|(c & Hin & Hv)]%merged_lookup_Some.
    - by rewrite lookup_empty in Hv.
    - apply Hres in Hin as (T & pT & _ & _ & HpT & ->). by eapply Hacc. }
  refine (IH _ Hnd _ _ H).
  - intros T HT. rewrite lookup_insert_ne; [apply Hfresh; by right|].
    intros Heq. apply HS. rewrite Heq. apply list_elem_of_fmap. by exists T.
  - intros T p n v. destruct (decide (T = DataType.name S)) as [->|HT].
    + rewrite lookup_insert_eq. intros [= <-] Hv.
      destruct (decide (n = DataType.name S)) as [->|Hn].
      * rewrite Hc, lookup_insert_eq in Hv. simplify_eq.
        exists pS. by rewrite lookup_insert_eq.
      * destruct (HpS' n v Hn Hv) as (q & Hq & ->).
        exists q. by rewrite lookup_insert_ne.
    + rewrite lookup_insert_ne by done. intros Hp Hv.
      destruct (Hacc _ _ _ _ Hp Hv) as (q & Hq & ->).
      exists q. split; [|done]. rewrite lookup_insert_ne; [done|].
      intros <-. congruence.
Qed.

(** X14.  When every data type is evaluated once, in an order that lets the
    evaluation succeed, each entry of the component types of every data type
    is the parsed value of the data type it is named after: what a data type
    publishes about another one is that one's own result. *)
Theorem component_types_carry_parsed_results
    (fw : Framework) (document order : list DataType.t)
    (evaluated : gmap string DataType.parsed) :
  NoDup (map DataType.name order) →
  DataTypes.evaluate fw document order = Ok evaluated →
  ∀ T p n v,
    evaluated !! T = Some p →
    DataType.component_types p !! n = Some v →
    ∃ q, evaluated !! n = Some q ∧ v = PyDict (DataType.result_value q).
Proof.
  intros Hnd H. unfold DataTypes.evaluate in H.
  apply (evaluate_carries_results fw document order ∅ evaluated Hnd); [| |done].
  - intros T _. apply lookup_empty.
  - intros T p n v Hp. by rewrite lookup_empty in Hp.
Qed.

Lemma component_types_carry_parsed_results_witness :
  match DataTypes.evaluate plain_framework
          [base_type; point_type; pair_type]
          [point_type; base_type; pair_type]
  with
  | Ok evaluated =>
      ∀ T p n v,
        evaluated !! T = Some p →
        DataType.component_types p !! n = Some v →
        ∃ q, evaluated !! n = Some q ∧ v = PyDict (DataType.result_value q)
  | Raise _ => False
  end.
Proof.
  assert (is_ok (DataTypes.evaluate plain_framework
                   [base_type; point_type; pair_type]
                   [point_type; base_type; pair_type]) = true) as Hok.
  { vm_compute. reflexivity. }
  assert (NoDup (map DataType.name [point_type; base_type; pair_type])) as H1.
  { apply (bool_decide_unpack _). vm_compute. exact I. }
  destruct (DataTypes.evaluate plain_framework
              [base_type; point_type; pair_type]
              [point_type; base_type; pair_type]) as [evaluated|e] eqn:H.
  - exact (component_types_carry_parsed_results plain_framework _ _
             evaluated H1 H).
  - discriminate Hok.
Defined.

(** ** The full graph and the tree *)

Lemma find_node_add_edge_cases (G : networkx.DiGraph) u v x :
  match networkx.find_node G x with
  | Some y =>
      ∃ y', networkx.find_node (networkx.add_edge G u v) x = Some y' ∧
            networkx.parsed_attr y' = networkx.parsed_attr y ∧
            ∀ w, w ∈ networkx.adj y'
                 ↔ w ∈ networkx.adj y ∨ (x = u ∧ w = v)
  | None =>
      (x ≠ u ∧ x ≠ v ∧
       networkx.find_node (networkx.add_edge G u v) x = None) ∨
      ((x = u ∨ x = v) ∧
       ∃ y', networkx.find_node (networkx.add_edge G u v) x = Some y' ∧
             networkx.parsed_attr y' = None ∧
             ∀ w, w ∈ networkx.adj y' ↔ (x = u ∧ w = v))
  end.
Proof.
  unfold networkx.add_edge.
  rewrite find_node_add_succ_adj, !find_node_ensure.
  assert (∀ l : list string, ∀ w,
            w ∈ (if bool_decide (v ∈ l) then l else l ++ [v])
            ↔ w ∈ l ∨ w = v) as Hadj.
  { intros l w. destruct (decide (v ∈ l)) as [Hv|Hv].
    - rewrite (bool_decide_eq_true_2 _ Hv). split; [by left|].
      by intros [?| ->].
    - rewrite (bool_decide_eq_false_2 _ Hv).
      by rewrite elem_of_app, list_elem_of_singleton. }
  destruct (networkx.find_node G x) as [y|] eqn:Hy.
  - destruct (decide (x = u)) as [->|Hxu].
    + rewrite (bool_decide_eq_true_2 (u = u)) by done.
      eexists. split; [done|]. split; [done|]. intros w. cbn.
      pose proof (Hadj (networkx.adj y) w). naive_solver.
    + assert (bool_decide (x = u) = false) as ->
        by (by apply bool_decide_eq_false_2).
      eexists. split; [done|]. split; [done|]. naive_solver.
  - destruct (decide (x = u)) as [->|Hxu].
    + rewrite (bool_decide_eq_true_2 (u = u)) by done.
      right. split; [by left|]. eexists. split; [done|]. split; [done|].
      intros w. cbn. etrans; [apply Hadj|].
      rewrite elem_of_nil. naive_solver.
    + assert (bool_decide (u = x) = false) as ->
        by (apply bool_decide_eq_false_2; by intros ->).
      assert (bool_decide (x = u) = false) as ->
        by (by apply bool_decide_eq_false_2).
      destruct (decide (v = x)) as [->|Hvx].
      * rewrite (bool_decide_eq_true_2 (x = x)) by done.
        right. split; [by right|]. eexists. split; [done|]. split; [done|].
        intros w. cbn. rewrite elem_of_nil. naive_solver.
      * assert (bool_decide (v = x) = false) as ->
          by (by apply bool_decide_eq_false_2).
        left. split; [done|]. split; [by intros ->|done].
Qed.

Lemma extends_add_edge_both tree graph u v :
  extends tree graph →
  extends (networkx.add_edge tree u v) (networkx.add_edge graph u v).
Proof.
  intros H x. specialize (H x).
  pose proof (find_node_add_edge_cases tree u v x) as Ht.
  pose proof (find_node_add_edge_cases graph u v x) as Hg.
  destruct (networkx.find_node tree x) as [nt|],
           (networkx.find_node graph x) as [ng|]; [|done| |].
  - destruct Ht as (nt' & -> & Hpt & Hat), Hg as (ng' & -> & Hpg & Hag).
    destruct H as [Hp Ha]. split; [congruence|].
    intros w [Hw|Hw]%Hat; apply Hag; [left; by apply Ha|by right].
  - destruct Hg as (ng' & -> & Hpg & Hag).
    destruct Ht as [(_ & _ & ->)|(_ & nt' & -> & Hpt & Hat)]; [congruence|].
    split; [congruence|]. intros w Hw%Hat. apply Hag. by right.
  - destruct Ht as [(Hu & Hv & ->)|(Huv & nt' & -> & Hpt & Hat)],
             Hg as [(Hu' & Hv' & ->)|(Huv' & ng' & -> & Hpg & Hag)];
      try done; try (by destruct Huv); try (by destruct Huv').
    split; [congruence|]. intros w Hw%Hat. by apply Hag.
Qed.

Lemma extends_add_edge_graph tree graph u v :
  extends tree graph → extends tree (networkx.add_edge graph u v).
Proof.
  intros H x. specialize (H x).
  pose proof (find_node_add_edge_cases graph u v x) as Hg.
  destruct (networkx.find_node tree x) as [nt|],
           (networkx.find_node graph x) as [ng|]; [|done| |].
  - destruct Hg as (ng' & -> & Hpg & Hag). destruct H as [Hp Ha].
    split; [congruence|]. intros w Hw. apply Hag. left. by apply Ha.
  - destruct Hg as (ng' & -> & Hpg & Hag). congruence.
  - by destruct Hg as [(_ & _ & ->)|(_ & ng' & -> & Hpg & _)].
Qed.

Lemma extends_add_node tree graph k d :
  networkx.find_node tree k = None →
  extends tree graph →
  extends (networkx.add_node tree k d) (networkx.add_node graph k d).
Proof.
  intros Hk H x. specialize (H x). rewrite !find_node_add_node.
  destruct (decide (x = k)) as [->|Hx].
  - rewrite Hk in *. rewrite (bool_decide_eq_true_2 (k = k)) by done.
    destruct (networkx.find_node graph k) as [ng|]; cbn; split; try done;
      by intros w ?%elem_of_nil.
  - rewrite (bool_decide_eq_false_2 (x = k)) by done.
    by destruct (networkx.find_node tree x), (networkx.find_node graph x).
Qed.

Lemma built_extends (g : ImportsGraph.t) :
  built g →
  extends (ImportsGraph._imports_tree g) (ImportsGraph._imports_graph g).
Proof.
  induction 1 as [|g k d via _ IH|g k via _ IH].
  - by intros x.
  - unfold ImportsGraph.add.
    set (g1 := if negb _ then _ else g).
    assert (extends (ImportsGraph._imports_tree g1)
              (ImportsGraph._imports_graph g1)) as H1.
    { subst g1.
      destruct (networkx.has_node (ImportsGraph._imports_tree g) k) eqn:Hk;
        [done|]. cbn. apply extends_add_node; [|done].
      apply find_node_None. by apply has_node_false. }
    destruct via as [via|]; [|done].
    destruct (truthy (Some via)); [|done]. cbn.
    by apply extends_add_edge_both.
  - unfold ImportsGraph.add_graph_dependency.
    destruct via as [via|]; [|done].
    destruct (truthy (Some via)); [|done]. cbn.
    by apply extends_add_edge_graph.
Qed.

(** X15.  In a graph built through [add] and [add_graph_dependency] the
    full graph extends the tree: it has every node and every edge of the
    tree, it holds the same document for every node of the tree and a
    document for no other node; and a dependency recorded for a non-empty
    via is an edge of the full graph that leaves the tree, and so the
    ordering, as they were. *)
Theorem full_graph_extends_tree (g : ImportsGraph.t) :
  built g →
  (∀ x, x ∈ networkx.nodes_iter (ImportsGraph._imports_tree g) →
        x ∈ networkx.nodes_iter (ImportsGraph._imports_graph g)) ∧
  (∀ x y, networkx.has_edge (ImportsGraph._imports_tree g) x y →
          networkx.has_edge (ImportsGraph._imports_graph g) x y) ∧
  (∀ x, x ∈ networkx.nodes_iter (ImportsGraph._imports_tree g) →
        networkx.node_parsed (ImportsGraph._imports_graph g) x
        = networkx.node_parsed (ImportsGraph._imports_tree g) x) ∧
  (∀ x d, networkx.node_parsed (ImportsGraph._imports_graph g) x = Ok d →
          x ∈ networkx.nodes_iter (ImportsGraph._imports_tree g)) ∧
  (∀ k via, via ≠ "" →
     networkx.has_edge
       (ImportsGraph._imports_graph
          (ImportsGraph.add_graph_dependency g k (Some via))) k via ∧
     ImportsGraph.topological_sort
       (ImportsGraph.add_graph_dependency g k (Some via))
     = ImportsGraph.topological_sort g).
Proof.
  intros Hext%built_extends.
  split; [|split; [|split; [|split]]].
  - intros x Hx. specialize (Hext x).
    destruct (find_node_is_Some _ x Hx) as [nt Hnt]. rewrite Hnt in Hext.
    destruct (networkx.find_node (ImportsGraph._imports_graph g) x)
      as [ng|] eqn:Hng; [|done].
    apply find_node_Some in Hng as [Hin <-].
    apply list_elem_of_fmap. eauto.
  - intros x y (nt & Hnt & Hy). specialize (Hext x). rewrite Hnt in Hext.
    destruct (networkx.find_node (ImportsGraph._imports_graph g) x)
      as [ng|] eqn:Hng; [|done].
    exists ng. split; [done|]. by apply Hext.
  - intros x Hx. specialize (Hext x). unfold networkx.node_parsed.
    destruct (find_node_is_Some _ x Hx) as [nt Hnt]. rewrite Hnt in *.
    destruct (networkx.find_node (ImportsGraph._imports_graph g) x)
      as [ng|]; [|done].
    destruct Hext as [-> _]. done.
  - intros x d. specialize (Hext x). unfold networkx.node_parsed.
    destruct (networkx.find_node (ImportsGraph._imports_graph g) x)
      as [ng|]; [|done].
    destruct (networkx.find_node (ImportsGraph._imports_tree g) x)
      as [nt|] eqn:Hnt.
    + intros _. apply find_node_Some in Hnt as [Hin <-].
      apply list_elem_of_fmap. eauto.
    + by rewrite Hext.
  - intros k via Hvia. split.
    + unfold ImportsGraph.add_graph_dependency.
      rewrite (proj2 (truthy_Some via) Hvia). cbn.
      apply has_edge_add_edge. by right.
    + unfold ImportsGraph.topological_sort.
      by rewrite add_graph_dependency_tree.
Qed.

Lemma full_graph_extends_tree_witness :
  networkx.has_edge (ImportsGraph._imports_graph chain_graph) "b.yaml" "a.yaml".
Proof.
  assert (built chain_graph) as Hb by (repeat constructor).
  assert (networkx.has_edge (ImportsGraph._imports_tree chain_graph)
            "b.yaml" "a.yaml") as He.
  { eexists. split; [vm_compute; reflexivity|]. left. }
  exact (proj1 (proj2 (full_graph_extends_tree chain_graph Hb)) _ _ He).
Defined.

(** ** What a pass can fail with *)

Lemma mappings_only_sound (doc : Document) :
  mappings_only doc = true → sections_are_mappings doc.
Proof.
  unfold mappings_only. rewrite forallb_forall.
  intros H key h Hkey Hdoc.
  assert (In key (elements ImportsLoader.MERGE_NO_OVERRIDE)) as Hin.
  { apply (proj1 (list_elem_of_In _ _)).
    apply (proj2 (elem_of_elements _ _)). exact Hkey. }
  apply H in Hin. rewrite Hdoc in Hin.
  destruct h as [?|?|d]; [discriminate Hin|discriminate Hin|by exists d].
Qed.

Lemma for_each_raise {A S} (body : S → A → result S) (l : list A) (s : S) e :
  for_each body l s = Raise e → ∃ s' x, x ∈ l ∧ body s' x = Raise e.
Proof.
  revert s. induction l as [|x l IH]; intros s; cbn [for_each].
  { discriminate. }
  destruct (body s x) as [s1|e1] eqn:Hx; cbn [result_bind].
  - intros (s' & y & Hy & H)%IH. exists s', y. split; [by right|done].
  - intros [= <-]. exists s, x. split; [left|done].
Qed.

(** The item at which a merge fails fails on what the accumulator held under
    its key before the merge. *)
Lemma merge_items_raise merge_no_override (items : list (string * Holder))
    (c : Document) e :
  NoDup items.*1 →
  for_each (ImportsLoader.merge_item merge_no_override) items c = Raise e →
  ∃ k v, (k, v) ∈ items ∧ merge_value merge_no_override (c !! k) k v = Raise e.
Proof.
  revert c. induction items as [|[k v] items IH]; intros c Hnd H.
  { discriminate H. }
  rewrite fmap_cons in Hnd. apply NoDup_cons in Hnd as [Hk Hnd].
  cbn [for_each fst] in H. rewrite merge_item_local in H.
  destruct (merge_value merge_no_override (c !! k) k v) as [r|e'] eqn:Hv.
  2:{ injection H as <-. exists k, v. split; [left|done]. }
  set (c1 := match r with Some h => <[k := h]> c | None => c end).
  assert (match r with
          | Some h => Ok (<[k:=h]> c)
          | None => Ok c
          end = Ok c1) as Hc1 by (by destruct r).
  rewrite Hc1 in H. cbn [result_bind] in H.
  destruct (IH c1 Hnd H) as (k' & v' & Hin & Hr).
  exists k', v'. split; [by right|].
  assert (k' ≠ k) as Hne.
  { intros ->. apply Hk. apply list_elem_of_fmap. by exists (k, v'). }
  rewrite <-Hr. f_equal. subst c1. destruct r; [|done].
  by rewrite lookup_insert_ne.
Qed.

(** Merging a document whose sections are mappings into an accumulator whose
    sections are mappings fails only with the errors 3 and 4. *)
Lemma merge_parsed_raise (combined imported : Document) version e :
  sections_are_mappings combined → sections_are_mappings imported →
  ImportsLoader.merge_parsed_into_combined combined imported version None
    = Raise e →
  (∃ key, (key ∉ ImportsLoader.MERGE_NO_OVERRIDE) ∧
          e = DSLParsingLogicException 3
                ("Import failed: non-mergeable field: '" +:+ key +:+ "'")) ∨
  (∃ section key, section ∈ ImportsLoader.MERGE_NO_OVERRIDE ∧
                  e = duplicate_definition section key).
Proof.
  intros Hc Hi H. unfold ImportsLoader.merge_parsed_into_combined in H.
  apply merge_items_raise in H as (k & v & Hin & H);
    [|apply NoDup_fst_map_to_list].
  apply elem_of_map_to_list in Hin.
  unfold merge_value in H.
  destruct (bool_decide (k ∈ ImportsLoader.IGNORE)); [done|].
  destruct (combined !! k) as [to_dict|] eqn:Hk; [|done].
  destruct (decide (k ∈ ImportsLoader.MERGE_NO_OVERRIDE)) as [Hm|Hm].
  - rewrite (bool_decide_eq_true_2 _ Hm) in H. right.
    destruct (Hi k v Hm Hin) as [from_dict ->].
    destruct (Hc k to_dict Hm Hk) as [to_value ->].
    destruct (decide (from_dict ##ₘ to_value)) as [Hd|Hd].
    + by rewrite (merge_into_dict_disjoint _ _ _ Hd) in H.
    + destruct (merge_into_dict_conflict _ _ k Hd) as (key & _ & _ & Heq).
      rewrite Heq in H. injection H as <-. by exists k, key.
  - rewrite (bool_decide_eq_false_2 _ Hm) in H. injection H as <-.
    left. by exists k.
Qed.

(** A successful merge keeps the sections of the accumulator mappings. *)
Lemma merge_parsed_mappings (combined imported combined' : Document) version :
  sections_are_mappings combined → sections_are_mappings imported →
  ImportsLoader.merge_parsed_into_combined combined imported version None
    = Ok combined' →
  sections_are_mappings combined'.
Proof.
  intros Hc Hi [Hj Hok]%merge_parsed_spec key h Hkey Hh.
  rewrite Hj in Hh. unfold merged_lookup in Hh.
  destruct (imported !! key) as [v|] eqn:Hv; [|by eapply Hc].
  destruct (merge_value _ (combined !! key) key v) as [[r|]|e'] eqn:Hm;
    [|by eapply Hc|by eapply Hc].
  injection Hh as ->.
  apply merge_value_ok in Hm
    as [[_ [=]]|[(_ & _ & [= <-])|(_ & _ & to_dict & h' & Hcur & Hd & [= <-])]].
  { by eapply Hi. }
  destruct (Hi key v Hkey Hv) as [from_dict ->].
  destruct (Hc key to_dict Hkey Hcur) as [to_value ->].
  destruct (decide (from_dict ##ₘ to_value)) as [Hdj|Hdj].
  - rewrite (merge_into_dict_disjoint _ _ _ Hdj) in Hd.
    injection Hd as <-. by eexists.
  - destruct (merge_into_dict_conflict _ _ key Hdj) as (? & _ & _ & Heq).
    rewrite Heq in Hd. discriminate Hd.
Qed.

Lemma combine_loop_raise validate_version version
    (entries : list ImportsGraph.entry) (combined : Document) e :
  sections_are_mappings combined →
  Forall (fun entry => sections_are_mappings (ImportsGraph.parsed entry))
         entries →
  for_each (ImportsLoader.combine_step validate_version version)
    entries combined = Raise e →
  (validate_version = true ∧ ∃ m, e = DSLParsingLogicException 28 m) ∨
  (∃ key, (key ∉ ImportsLoader.MERGE_NO_OVERRIDE) ∧
          e = DSLParsingLogicException 3
                ("Import failed: non-mergeable field: '" +:+ key +:+ "'")) ∨
  (∃ section key, section ∈ ImportsLoader.MERGE_NO_OVERRIDE ∧
                  e = duplicate_definition section key).
Proof.
  intros Hc Hall. revert combined Hc.
  induction Hall as [|entry entries Hentry _ IH]; intros combined Hc H.
  { discriminate H. }
  cbn [for_each] in H.
  destruct (ImportsLoader.combine_step validate_version version combined entry)
    as [c1|e1] eqn:Hstep; cbn [result_bind] in H.
  - apply (IH c1); [|done].
    unfold ImportsLoader.combine_step in Hstep.
    apply result_bind_ok in Hstep as (_u & _ & Hstep).
    eapply merge_parsed_mappings; [exact Hc|exact Hentry|]. exact Hstep.
  - injection H as <-. unfold ImportsLoader.combine_step in Hstep.
    destruct validate_version.
    + destruct (ImportsLoader._validate_version _ _ _) as [[]|e''] eqn:Hv;
        cbn [result_bind] in Hstep.
      * right. exact (merge_parsed_raise _ _ _ _ Hc Hentry Hstep).
      * injection Hstep as <-. left. split; [done|].
        unfold ImportsLoader._validate_version in Hv.
        destruct (get_item VERSION (ImportsGraph.parsed entry)) as [k' [v'|]];
          [|done].
        destruct (_ && _); [|done]. injection Hv as <-. by eexists.
    + cbn [result_bind] in Hstep. right. exact (merge_parsed_raise _ _ _ _ Hc Hentry Hstep).
Qed.

(** X16.  When locations are never empty and the no-override sections of the
    ordered documents are mappings, a pass fails only in these ways: the
    discovery of the imports failed, with one of its exceptions; or the merge
    failed with the version error 28, and then version validation was
    enabled; with the non-mergeable field error 3 for a key outside the
    no-override sections; or with the duplicate definition error 4 for a
    no-override section.  It never fails with a key error or a cycle error
    of the graph. *)
Theorem pass_fails_only_as_listed
    (depth : nat) (env : Environment) (parsed_dsl_holder : Document)
    (dsl_location resources_base_url : option string) (version : VersionNumber)
    (resolver : Resolver) (validate_version : bool) (e : exception) :
  let pass := ImportsLoader._build_ordered_imports depth env parsed_dsl_holder
                dsl_location resources_base_url resolver in
  resolves_nonempty env →
  (∀ entries, pass.1 = Ok entries →
     Forall (fun entry => sections_are_mappings (ImportsGraph.parsed entry))
            entries) →
  ImportsLoader._combine_imports depth env parsed_dsl_holder dsl_location
    resources_base_url version resolver validate_version = Raise e →
  ((pass.1 = Raise e ∧ is_discovery_exception e = true) ∨
   (validate_version = true ∧ ∃ m, e = DSLParsingLogicException 28 m) ∨
   (∃ key, (key ∉ ImportsLoader.MERGE_NO_OVERRIDE) ∧
           e = DSLParsingLogicException 3
                 ("Import failed: non-mergeable field: '" +:+ key +:+ "'")) ∨
   (∃ section key, section ∈ ImportsLoader.MERGE_NO_OVERRIDE ∧
                   e = duplicate_definition section key)) ∧
  (∀ k, e ≠ KeyError k) ∧
  (∀ m, e ≠ NetworkXUnfeasible m).
Proof.
  intros pass Hne Hmaps H.
  assert ((pass.1 = Raise e ∧ is_discovery_exception e = true) ∨
   (validate_version = true ∧ ∃ m, e = DSLParsingLogicException 28 m) ∨
   (∃ key, (key ∉ ImportsLoader.MERGE_NO_OVERRIDE) ∧
           e = DSLParsingLogicException 3
                 ("Import failed: non-mergeable field: '" +:+ key +:+ "'")) ∨
   (∃ section key, section ∈ ImportsLoader.MERGE_NO_OVERRIDE ∧
                   e = duplicate_definition section key)) as Hcases.
  { unfold ImportsLoader._combine_imports in H. fold pass in H.
    destruct pass.1 as [entries|e'] eqn:Hpass; cbn [result_bind] in H.
    2:{ injection H as <-. left. split; [done|].
        destruct (build_ordered_imports_outcome depth env parsed_dsl_holder
                    dsl_location resources_base_url resolver)
          as (_ & _ & Hreg).
        destruct (Hreg Hne) as [Hexc _]. by apply Hexc. }
    destruct (get_item VERSION parsed_dsl_holder) as [vk vv].
    destruct (for_each _ entries ∅) as [holder_result|e'] eqn:Hloop;
      cbn [result_bind] in H; [done|].
    injection H as <-. right.
    eapply combine_loop_raise; [|by apply Hmaps|done].
    intros key h _ Hh. by rewrite lookup_empty in Hh. }
  split; [done|]. split.
  - intros k ->.
    destruct Hcases as [[_ ?]|[[_ [? ?]]|[(? & _ & ?)|(? & ? & _ & ?)]]];
      done.
  - intros m ->.
    destruct Hcases as [[_ ?]|[[_ [? ?]]|[(? & _ & ?)|(? & ? & _ & ?)]]];
      done.
Qed.

Lemma pass_fails_only_as_listed_witness :
  ∃ key, (key ∉ ImportsLoader.MERGE_NO_OVERRIDE) ∧
    DSLParsingLogicException 3 "Import failed: non-mergeable field: 'timeout'"
    = DSLParsingLogicException 3
        ("Import failed: non-mergeable field: '" +:+ key +:+ "'").
Proof.
  assert (ImportsLoader._combine_imports 10 (table_env timeout_files)
            timeout_root None (Some "base") {| raw := "v2" |}
            (table_resolver timeout_files) false
          = Raise (DSLParsingLogicException 3
                     "Import failed: non-mergeable field: 'timeout'")) as H.
  { vm_compute. reflexivity. }
  assert (∀ entries,
            (ImportsLoader._build_ordered_imports 10 (table_env timeout_files)
               timeout_root None (Some "base")
               (table_resolver timeout_files)).1 = Ok entries →
            Forall (fun entry =>
                      sections_are_mappings (ImportsGraph.parsed entry))
                   entries) as Hmaps.
  { assert (match (ImportsLoader._build_ordered_imports 10
                     (table_env timeout_files) timeout_root None (Some "base")
                     (table_resolver timeout_files)).1 with
            | Ok entries =>
                forallb (fun entry => mappings_only (ImportsGraph.parsed entry))
                        entries
            | Raise _ => false
            end = true) as Hb by (vm_compute; reflexivity).
    intros entries Hp. rewrite Hp in Hb.
    apply Forall_forall. intros entry Hin%list_elem_of_In.
    rewrite forallb_forall in Hb.
    by apply mappings_only_sound, Hb. }
  destruct (proj1 (pass_fails_only_as_listed 10 (table_env timeout_files)
                     timeout_root None (Some "base") {| raw := "v2" |}
                     (table_resolver timeout_files) false _
                     (table_env_resolves_nonempty timeout_files) Hmaps H))
    as [[_ Hd]|[[Hv _]|[Hk|(s & k & _ & He)]]].
  - discriminate Hd.
  - discriminate Hv.
  - exact Hk.
  - discriminate He.
Defined.

(** ** The dependencies the full graph records *)

Lemma triple_for_prefix {A} (P : list A → loader_state → Prop) E
    (items : list A) (body : A → M unit) :
  (∀ l1 x l2, items = l1 ++ x :: l2 →
     triple (P l1) (body x) (fun _ => P (l1 ++ [x])) E) →
  triple (P []) (for_ items body) (fun _ => P items) E.
Proof.
  intros Hbody.
  assert (∀ rest processed, items = processed ++ rest →
            triple (P processed) (for_ rest body) (fun _ => P items) E)
    as Hgen; [|by apply (Hgen items [])].
  induction rest as [|x rest IH]; intros processed Heq s Hs; cbn [for_].
  - rewrite app_nil_r in Heq. by subst.
  - unfold bind. pose proof (Hbody processed x rest Heq s Hs) as Hx.
    destruct (body x s) as [[[]|e] s1]; [|done].
    apply (IH (processed ++ [x])); [|done]. by rewrite <-app_assoc.
Qed.

Lemma grows_refl s : grows s s.
Proof. by split. Qed.

Lemma grows_trans s1 s2 s3 : grows s1 s2 → grows s2 s3 → grows s1 s3.
Proof.
  intros [He1 Hn1] [He2 Hn2]. split.
  - intros x y H. by apply He2, He1.
  - intros k Hk. destruct (Hn1 k Hk) as [Hk2 Hp2].
    destruct (Hn2 k Hk2) as [Hk3 Hp3]. split; [done|congruence].
Qed.

Lemma references_recorded_mono env resources_base_url G G' k d :
  (∀ x y, networkx.has_edge G x y → networkx.has_edge G' x y) →
  references_recorded env resources_base_url G k d →
  references_recorded env resources_base_url G' k d.
Proof. intros Hmono H h r url ? ? ?. apply Hmono. by eapply H. Qed.

Lemma has_edge_graph_add g k d via x y :
  networkx.has_edge (ImportsGraph._imports_graph g) x y →
  networkx.has_edge (ImportsGraph._imports_graph (ImportsGraph.add g k d via))
    x y.
Proof.
  intros H. unfold ImportsGraph.add.
  set (g1 := if negb _ then _ else g).
  assert (networkx.has_edge (ImportsGraph._imports_graph g1) x y) as H1.
  { subst g1. destruct (negb _); [|done]. cbn. by apply has_edge_add_node. }
  destruct via as [via|]; [|done].
  destruct (truthy (Some via)); [|done]. cbn.
  apply has_edge_add_edge. by left.
Qed.

Lemma has_edge_graph_add_via g k d via :
  via ≠ "" →
  networkx.has_edge
    (ImportsGraph._imports_graph (ImportsGraph.add g k d (Some via))) k via.
Proof.
  intros Hvia. unfold ImportsGraph.add.
  rewrite (proj2 (truthy_Some via) Hvia). cbn.
  apply has_edge_add_edge. by right.
Qed.

Lemma has_edge_graph_dependency g k via x y :
  networkx.has_edge (ImportsGraph._imports_graph g) x y →
  networkx.has_edge
    (ImportsGraph._imports_graph (ImportsGraph.add_graph_dependency g k via))
    x y.
Proof.
  intros H. unfold ImportsGraph.add_graph_dependency.
  destruct via as [via|]; [|done].
  destruct (truthy (Some via)); [|done]. cbn.
  apply has_edge_add_edge. by left.
Qed.

Lemma has_edge_graph_dependency_via g k via :
  via ≠ "" →
  networkx.has_edge
    (ImportsGraph._imports_graph
       (ImportsGraph.add_graph_dependency g k (Some via))) k via.
Proof.
  intros Hvia. unfold ImportsGraph.add_graph_dependency.
  rewrite (proj2 (truthy_Some via) Hvia). cbn.
  apply has_edge_add_edge. by right.
Qed.

Section dependencies.
Context (env : Environment) (resources_base_url : option string)
        (resolver : Resolver).
Context (Hne : resolves_nonempty env).

Abbreviation tree s := (ImportsGraph._imports_tree (imports_graph s)).
Abbreviation graph s := (ImportsGraph._imports_graph (imports_graph s)).

Lemma build_recursive_dependencies depth current current_import s0 :
  ImportsLoader.location current_import ∈ networkx.nodes_iter (tree s0) →
  triple (fun s => s = s0)
    (ImportsLoader._build_ordered_imports_recursive depth env
       resources_base_url resolver current current_import)
    (fun _ s' =>
       grows s0 s' ∧
       references_recorded env resources_base_url (graph s')
         (ImportsLoader.location current_import) current ∧
       ∀ k d, k ∉ networkx.nodes_iter (tree s0) →
              networkx.node_parsed (tree s') k = Ok d →
              references_recorded env resources_base_url (graph s') k d)
    (fun _ _ => True).
Proof.
  revert current current_import s0.
  induction depth as [|depth IH]; intros current current_import s0 Hcur.
  { by intros s ->. }
  cbn [ImportsLoader._build_ordered_imports_recursive].
  destruct (get_item constants.IMPORTS current).2 as [h|] eqn:Hh.
  2:{ intros s ->. cbn. split; [apply grows_refl|]. split.
      - intros h r url Hh'. congruence.
      - intros k d Hk Hd. exfalso. apply Hk.
        unfold networkx.node_parsed in Hd.
        destruct (networkx.find_node (tree s0) k) as [node|] eqn:Hnode; [|done].
        apply find_node_Some in Hnode as [Hin <-].
        apply list_elem_of_fmap. eauto. }
  set (loc := ImportsLoader.location current_import) in *.
  set (P := fun (processed : list Holder) (s : loader_state) =>
    grows s0 s ∧
    (∀ r url, HStr r ∈ processed →
       ImportsLoader._get_resource_location env r resources_base_url
         = Some url →
       networkx.has_edge (graph s) url loc) ∧
    ∀ k d, k ∉ networkx.nodes_iter (tree s0) →
           networkx.node_parsed (tree s) k = Ok d →
           references_recorded env resources_base_url (graph s) k d).
  assert (triple (P []) 
            (for_ (restore_imports h) (fun item =>
               match item with
               | HStr another_import =>
                   match ImportsLoader._get_resource_location env
                           another_import resources_base_url with
                   | None =>
                       raise (DSLParsingLogicException 13
                         ("Import failed: no suitable location found for import '"
                          +:+ another_import +:+ "'"))
                   | Some import_url =>
                       bind get_graph (fun g =>
                       if ImportsGraph.contains g import_url
                       then modify_graph (fun g =>
                              ImportsGraph.add_graph_dependency g import_url
                                (Some loc))
                       else
                         bind (ImportsLoader.fetch resolver import_url)
                           (fun raw_imported_dsl =>
                         bind (ImportsLoader.load env raw_imported_dsl
                                 ("Failed to parse import '" +:+ another_import
                                  +:+ "' (via '" +:+ import_url +:+ "')")
                                 another_import import_url)
                           (fun imported_dsl_holder =>
                         bind (modify_graph (fun g =>
                                 ImportsGraph.add g import_url
                                   imported_dsl_holder (Some loc)))
                           (fun _ =>
                         ImportsLoader._build_ordered_imports_recursive depth
                           env resources_base_url resolver imported_dsl_holder
                           (Some import_url)))))
                   end
               | _ => raise (AttributeError "split")
               end))
            (fun _ => P (restore_imports h)) (fun _ _ => True)) as Hloop.
  2:{ intros s ->. specialize (Hloop s0).
      match goal with
      | |- match ?m s0 with _ => _ end =>
          match type of Hloop with
          | _ → match ?m' s0 with _ => _ end => change m with m'
          end
      end.
      destruct (for_ _ _ s0) as [[[]|e] s']; [|done].
      destruct Hloop as (Hg & Hrec & Hnew).
      { split; [apply grows_refl|]. split.
        - by intros r url ?%elem_of_nil.
        - intros k d Hk Hd. exfalso. apply Hk.
          unfold networkx.node_parsed in Hd.
          destruct (networkx.find_node (tree s0) k) as [node|] eqn:Hnode;
            [|done].
          apply find_node_Some in Hnode as [Hin <-].
          apply list_elem_of_fmap. eauto. }
      split; [done|]. split; [|done].
      intros h' r url Hh' Hr Hurl. rewrite Hh in Hh'. injection Hh' as <-.
      by eapply Hrec. }
  apply triple_for_prefix. intros l1 item l2 Hitems s (Hg & Hrec & Hnew).
  assert (loc ∈ networkx.nodes_iter (tree s)) as Hloc by (by apply Hg).
  assert (loc ≠ "") as Hlocne by apply location_nonempty.
  destruct item as [another_import| |]; [|by cbn..].
  destruct (ImportsLoader._get_resource_location env another_import
              resources_base_url) as [import_url|] eqn:Hurl; [|by cbn].
  unfold bind at 1, get_graph.
  destruct (ImportsGraph.contains (imports_graph s) import_url) eqn:Hknown.
  { unfold modify_graph. cbv beta iota.
    assert (grows s {| imports_graph :=
                         ImportsGraph.add_graph_dependency (imports_graph s)
                           import_url (Some loc);
                       fetched := fetched s; loaded := loaded s |}) as Hstep.
    { split; cbn [imports_graph].
      - intros x y. apply has_edge_graph_dependency.
      - intros k Hk. by rewrite add_graph_dependency_tree. }
    split; [by eapply grows_trans|]. cbn [imports_graph]. split.
    - intros r url [Hr|Hr]%elem_of_app Hurl'.
      + apply has_edge_graph_dependency. by eapply Hrec.
      + apply list_elem_of_singleton in Hr. injection Hr as ->.
        assert (url = import_url) as -> by congruence.
        by apply has_edge_graph_dependency_via.
    - intros k d Hk Hd. rewrite add_graph_dependency_tree in Hd.
      eapply references_recorded_mono; [|by eapply Hnew].
      intros x y. apply has_edge_graph_dependency. }
  unfold bind at 1, ImportsLoader.fetch.
  destruct (resolver import_url) as [raw|]; [|done].
  unfold bind at 1, ImportsLoader.load. cbn [imports_graph fetched loaded].
  destruct (yaml_load env raw another_import) as [holder|]; [|done].
  unfold bind at 1, modify_graph. cbn [imports_graph fetched loaded].
  match goal with
  | |- context [ImportsLoader._build_ordered_imports_recursive _ _ _ _ _ _ ?s1] =>
      set (s3 := s1)
  end.
  assert (import_url ≠ "") as Hurlne by (by eapply Hne).
  assert (tree s3
          = tree s ++ [ {| networkx.name := import_url;
                           networkx.parsed_attr := Some holder;
                           networkx.adj := [loc] |} ]) as Htree3.
  { subst s3. cbn [imports_graph]. apply add_new_tree; [done| |done].
    unfold ImportsGraph.contains. by apply has_node_true. }
  assert (import_url ∉ networkx.nodes_iter (tree s)) as Hfresh.
  { by apply has_node_false. }
  assert (grows s s3) as Hstep.
  { split.
    - intros x y. subst s3. cbn [imports_graph]. apply has_edge_graph_add.
    - intros k Hk. rewrite Htree3, nodes_iter_app. split.
      + apply elem_of_app. by left.
      + unfold networkx.node_parsed. rewrite find_node_app.
        by destruct (find_node_is_Some _ k Hk) as [node ->]. }
  assert (networkx.node_parsed (tree s3) import_url = Ok holder) as Hparsed3.
  { unfold networkx.node_parsed. rewrite Htree3, find_node_app.
    rewrite (proj2 (find_node_None _ _) Hfresh). cbn [networkx.name].
    by rewrite bool_decide_eq_true_2. }
  assert (import_url ∈ networkx.nodes_iter (tree s3)) as Hin3.
  { rewrite Htree3, nodes_iter_app. apply elem_of_app. right. by left. }
  assert (networkx.has_edge (graph s3) import_url loc) as Hedge3.
  { subst s3. cbn [imports_graph]. by apply has_edge_graph_add_via. }
  pose proof (IH holder (Some import_url) s3
                ltac:(by rewrite location_Some) s3 eq_refl) as Hnested.
  destruct (ImportsLoader._build_ordered_imports_recursive _ _ _ _ _ _ s3)
    as [[[]|e] s4]; [|done].
  destruct Hnested as (Hg4 & Hrec4 & Hnew4).
  rewrite location_Some in Hrec4 by done.
  split; [eapply grows_trans; [exact Hg|]; by eapply grows_trans|].
  split.
  - intros r url [Hr|Hr]%elem_of_app Hurl'.
    + apply Hg4, Hstep. by eapply Hrec.
    + apply list_elem_of_singleton in Hr. injection Hr as ->.
      assert (url = import_url) as -> by congruence.
      by apply Hg4.
  - intros k d Hk Hd.
    destruct (decide (k ∈ networkx.nodes_iter (tree s))) as [Hks|Hks].
    + assert (networkx.node_parsed (tree s) k = Ok d) as Hd0.
      { destruct (proj2 Hstep k Hks) as [Hk3 Hp3].
        destruct (proj2 Hg4 k Hk3) as [_ Hp4]. congruence. }
      eapply references_recorded_mono; [|by eapply Hnew].
      intros x y Hxy. by apply Hg4, Hstep.
    + destruct (decide (k = import_url)) as [->|Hku].
      * destruct (proj2 Hg4 import_url Hin3) as [_ Hp4].
        assert (d = holder) as -> by congruence. done.
      * apply Hnew4; [|done]. rewrite Htree3, nodes_iter_app.
        intros [?|?%list_elem_of_singleton]%elem_of_app; done.
Qed.

End dependencies.

(** X17.  When a pass returns, the full graph records every import
    relation, not only the first discoveries: for every ordered document and
    every import reference of it that resolves to a location, the full
    graph has an edge from that location to the location of the document. *)
Theorem imports_are_recorded_as_dependencies
    (depth : nat) (env : Environment) (parsed_dsl_holder : Document)
    (dsl_location resources_base_url : option string) (resolver : Resolver)
    (entries : list ImportsGraph.entry) :
  resolves_nonempty env →
  let pass := ImportsLoader._build_ordered_imports depth env parsed_dsl_holder
                dsl_location resources_base_url resolver in
  pass.1 = Ok entries →
  ∀ e, e ∈ entries →
    references_recorded env resources_base_url
      (ImportsGraph._imports_graph (imports_graph pass.2))
      (ImportsGraph.import e) (ImportsGraph.parsed e).
Proof.
  intros Hne pass He e Hin.
  destruct (build_ordered_imports_outcome depth env parsed_dsl_holder
              dsl_location resources_base_url resolver) as (_ & _ & Hreg).
  destruct (Hreg Hne) as (_ & docs & Hdocs & _ & Hsort). fold pass in Hdocs, Hsort.
  specialize (Hsort entries He).
  destruct (registered_ordering _ _ Hdocs) as (entries' & He' & Hperm & _).
  assert (entries' = entries) as -> by congruence.
  pose proof (registered_tree _ _ Hdocs) as Htree.
  assert (networkx.node_parsed
            (ImportsGraph._imports_tree (imports_graph pass.2))
            (ImportsGraph.import e) = Ok (ImportsGraph.parsed e)) as Hparsed.
  { assert ((ImportsGraph.import e, ImportsGraph.parsed e) ∈ docs) as Hd.
    { rewrite <-Hperm. apply list_elem_of_fmap. by exists e. }
    destruct (discovery_tree_node_parsed _ _ (ImportsGraph.import e) Htree)
      as (d & Hd1 & Hd2).
    { apply list_elem_of_fmap. by eexists (_, _). }
    rewrite Hd1. f_equal.
    by eapply (NoDup_fst_unique _ _ _ _ (discovery_tree_NoDup _ _ Htree)). }
  set (root := ImportsLoader.location dsl_location) in *.
  set (s1 := {| imports_graph :=
                  ImportsGraph.add ImportsGraph.init root parsed_dsl_holder None;
                fetched := []; loaded := [] |}).
  pose proof (registered_tree _ _ (reg_root root parsed_dsl_holder)) as Htree1.
  assert (networkx.nodes_iter (ImportsGraph._imports_tree (imports_graph s1))
          = [root]) as Hnodes1.
  { exact (discovery_tree_nodes _ _ Htree1). }
  assert (pass =
          let (r, s') :=
            ImportsLoader._build_ordered_imports_recursive depth env
              resources_base_url resolver parsed_dsl_holder dsl_location s1 in
          match r with
          | Ok _ => (ImportsGraph.topological_sort (imports_graph s'), s')
          | Raise e => (Raise e, s')
          end) as Hpass by reflexivity.
  clearbody pass.
  pose proof (build_recursive_dependencies env resources_base_url resolver Hne
                depth parsed_dsl_holder dsl_location s1
                ltac:(rewrite Hnodes1; left) s1 eq_refl) as Hrec.
  destruct (ImportsLoader._build_ordered_imports_recursive _ _ _ _ _ _ _)
    as [[[]|e0] s']; subst pass; cbn [fst snd] in *; [|done].
  destruct Hrec as (Hg & Hroot & Hnew).
  destruct (decide (ImportsGraph.import e = root)) as [Heq|Hneq].
  - rewrite Heq in *.
    destruct (proj2 Hg root ltac:(rewrite Hnodes1; left)) as [_ Hp].
    destruct (discovery_tree_node_parsed _ _ root Htree1 ltac:(left))
      as (d & Hd1 & Hd2%list_elem_of_singleton).
    injection Hd2 as ->.
    assert (ImportsGraph.parsed e = parsed_dsl_holder) as ->.
    { rewrite Hp in Hparsed. subst s1. cbn [imports_graph] in Hparsed.
      rewrite Hd1 in Hparsed. by injection Hparsed. }
    done.
  - apply Hnew; [|done]. rewrite Hnodes1.
    by intros ?%list_elem_of_singleton.
Qed.

Lemma imports_are_recorded_witness :
  match (ImportsLoader._build_ordered_imports 10 (table_env cyclic_files)
           cyclic_root None (Some "base") (table_resolver cyclic_files)).1
  with
  | Ok entries =>
      ∀ e, e ∈ entries →
        references_recorded (table_env cyclic_files) (Some "base")
          (ImportsGraph._imports_graph
             (imports_graph
                (ImportsLoader._build_ordered_imports 10
                   (table_env cyclic_files) cyclic_root None (Some "base")
                   (table_resolver cyclic_files)).2))
          (ImportsGraph.import e) (ImportsGraph.parsed e)
  | Raise _ => False
  end.
Proof.
  assert (is_ok (ImportsLoader._build_ordered_imports 10
                   (table_env cyclic_files) cyclic_root None (Some "base")
                   (table_resolver cyclic_files)).1 = true) as Hok.
  { vm_compute. reflexivity. }
  destruct (ImportsLoader._build_ordered_imports 10 (table_env cyclic_files)
              cyclic_root None (Some "base") (table_resolver cyclic_files)).1
    as [entries|e] eqn:H; [|discriminate Hok].
  exact (imports_are_recorded_as_dependencies 10 (table_env cyclic_files)
           cyclic_root None (Some "base") (table_resolver cyclic_files)
           entries (table_env_resolves_nonempty cyclic_files) H).
Defined.

(** The back reference of the cyclic example, from [b.yaml] to [a.yaml], is
    an edge of the full graph and not of the tree. *)
Lemma cyclic_back_reference_is_recorded :
  bool_decide
    ("base/b.yaml"
     ∈ default []
         (networkx.adj <$>
            networkx.find_node
              (ImportsGraph._imports_graph
                 (imports_graph
                    (ImportsLoader._build_ordered_imports 10
                       (table_env cyclic_files) cyclic_root None (Some "base")
                       (table_resolver cyclic_files)).2))
              "base/a.yaml")) = true ∧
  bool_decide
    ("base/b.yaml"
     ∈ default []
         (networkx.adj <$>
            networkx.find_node
              (ImportsGraph._imports_tree
                 (imports_graph
                    (ImportsLoader._build_ordered_imports 10
                       (table_env cyclic_files) cyclic_root None (Some "base")
                       (table_resolver cyclic_files)).2))
              "base/a.yaml")) = false.
Proof. split; vm_compute; reflexivity. Qed.

(** ** Versions across a pass *)

Lemma for_each_ok_steps {A S} (body : S → A → result S) (l : list A)
    (s s' : S) x :
  for_each body l s = Ok s' → x ∈ l → ∃ c c', body c x = Ok c'.
Proof.
  revert s. induction l as [|y l IH]; intros s H Hx.
  { by apply elem_of_nil in Hx. }
  cbn [for_each] in H. apply result_bind_ok in H as (s1 & H1 & H).
  apply elem_of_cons in Hx as [->|Hx]; [by eauto|by eapply IH].
Qed.

Lemma merge_ignores_version combined imported version version' mno :
  ImportsLoader.merge_parsed_into_combined combined imported version mno
  = ImportsLoader.merge_parsed_into_combined combined imported version' mno.
Proof. reflexivity. Qed.

(** X18.  With version validation enabled, a pass that succeeds has checked
    every ordered document, the root included: no document of the ordering
    declares a version that differs from the version given to the pass and
    from that version with a trailing [_0] removed.  With validation
    disabled the version given to the pass has no effect on the outcome. *)
Theorem successful_pass_has_compatible_versions
    (depth : nat) (env : Environment) (parsed_dsl_holder : Document)
    (dsl_location resources_base_url : option string) (version : VersionNumber)
    (resolver : Resolver) :
  (∀ merged entries e declared,
     ImportsLoader._combine_imports depth env parsed_dsl_holder dsl_location
       resources_base_url version resolver true = Ok merged →
     (ImportsLoader._build_ordered_imports depth env parsed_dsl_holder
        dsl_location resources_base_url resolver).1 = Ok entries →
     e ∈ entries →
     ImportsGraph.parsed e !! VERSION = Some (HStr declared) →
     ¬ incompatible_version declared (raw version)) ∧
  (∀ version',
     ImportsLoader._combine_imports depth env parsed_dsl_holder dsl_location
       resources_base_url version resolver false
     = ImportsLoader._combine_imports depth env parsed_dsl_holder dsl_location
         resources_base_url version' resolver false).
Proof.
  split.
  - intros merged entries e declared H He Hin Hdecl.
    unfold ImportsLoader._combine_imports in H. rewrite He in H.
    cbn [result_bind] in H.
    destruct (get_item VERSION parsed_dsl_holder) as [vk vv].
    apply result_bind_ok in H as (holder_result & Hloop & _).
    destruct (for_each_ok_steps _ _ _ _ e Hloop Hin) as (c & c' & Hstep).
    unfold ImportsLoader.combine_step in Hstep.
    apply result_bind_ok in Hstep as ([] & Hv & _).
    rewrite (validate_version_declared _ _ declared _ Hdecl) in Hv.
    intros Hinc%incompatible_version_iff.
    by rewrite bool_decide_eq_true_2 in Hv.
  - intros version'. unfold ImportsLoader._combine_imports.
    destruct (ImportsLoader._build_ordered_imports _ _ _ _ _ _).1
      as [entries|e]; [|done].
    cbn [result_bind]. destruct (get_item VERSION parsed_dsl_holder) as [vk vv].
    assert (∀ l c,
      for_each (ImportsLoader.combine_step false version) l c
      = for_each (ImportsLoader.combine_step false version') l c) as Hsame.
    { induction l as [|x l IH]; intros c; cbn [for_each]; [done|].
      unfold ImportsLoader.combine_step at 1 3. cbn [result_bind].
      rewrite (merge_ignores_version _ _ version version').
      destruct (ImportsLoader.merge_parsed_into_combined _ _ _ _); [|done].
      cbn [result_bind]. apply IH. }
    by rewrite Hsame.
Qed.
